(** * Pdf-Query-App: chunking, hybrid retrieval and answer selection

    A shallow embedding of [backend/pdf_processor.py] (the chunker) and
    [backend/query_engine.py] (the document session, the hybrid scorer,
    the retriever and the answer selector), with the properties of the
    design document checked against it; then the rest of
    [pdf_processor.py] (the extraction and the cleaning of the text)
    and the handlers of [backend/main.py], with properties of their
    own.

    Modelling conventions.
    - A Python [str] is a [string]; characters are the 8-bit [ascii]
      type and the character classes ([str.isspace], the regex class
      [\w], [str.lower]) are those of Python on the ASCII range.
    - A Python [int] is a [Z] where it can go negative in the source
      (positions in the chunking loop) and a [nat] where it is a count.
    - A Python [float] is the rational number [Q] that it stands
      for. The result of an operation on floats is rounded to the
      format: the rounding is a parameter [fl] of the scorer and of
      the retriever, [PyFloat.binary64] being the one of Python (to
      the nearest, ties to even); with the identity for [fl] the
      arithmetic is exact. Infinities and not-a-number are left out.
    - The chunk dictionaries live in an object store ([heap]) and are
      handled through their addresses, so that [dict.copy] and item
      assignment have their Python meaning.
    - The three inference services and the cosine similarity of
      scikit-learn are parameters of the development; the calls to the
      services and the log records are kept as a list of events.

    The first part holds the definitions: the Python string operations,
    the source modules, the words of the design document and sample
    data. The second part holds the proofs. *)

From Stdlib Require Import ZArith QArith Qpower Qminmax Qround Qabs Lqa Lia.
From Stdlib Require Import Ascii String.
From stdpp Require Import base tactics option list sorting gmap strings pretty.

Local Open Scope Z_scope.

(** ** Python strings *)

Module PyStr.

Definition chars (s : string) : list ascii := String.list_ascii_of_string s.
Definition str (l : list ascii) : string := String.string_of_list_ascii l.

(** [len(s)] *)
Definition len (s : string) : Z := Z.of_nat (String.length s).

(** [str.isspace] on one ASCII character: TAB, LF, VT, FF, CR, the
    four separators FS, GS, RS, US, and the space. *)
Definition is_space (c : ascii) : bool :=
  let n := nat_of_ascii c in
  ((9 <=? n)%nat && (n <=? 13)%nat) || ((28 <=? n)%nat && (n <=? 32)%nat).

(** The regex class [\w] on the ASCII range: letters, digits and the
    underscore. *)
Definition is_word (c : ascii) : bool :=
  let n := nat_of_ascii c in
  ((48 <=? n)%nat && (n <=? 57)%nat)
  || ((65 <=? n)%nat && (n <=? 90)%nat)
  || ((97 <=? n)%nat && (n <=? 122)%nat)
  || (n =? 95)%nat.

Definition lower_char (c : ascii) : ascii :=
  let n := nat_of_ascii c in
  if ((65 <=? n)%nat && (n <=? 90)%nat) then ascii_of_nat (n + 32) else c.

(** [s.lower()] *)
Definition lower (s : string) : string := str (lower_char <$> chars s).

Fixpoint lstrip_chars (l : list ascii) : list ascii :=
  match l with
  | c :: l' => if is_space c then lstrip_chars l' else l
  | [] => []
  end.

Definition strip_chars (l : list ascii) : list ascii :=
  rev (lstrip_chars (rev (lstrip_chars l))).

(** [s.strip()] *)
Definition strip (s : string) : string := str (strip_chars (chars s)).

(** How Python reads one bound of a slice of a sequence of length [n]:
    a negative bound counts from the end, and the result is clamped
    to [0..n]. *)
Definition clamp_index (n i : Z) : Z :=
  if i <? 0 then Z.max 0 (i + n) else Z.min i n.

Definition slice_list {A} (l : list A) (lo hi : Z) : list A :=
  let n := Z.of_nat (length l) in
  let lo' := clamp_index n lo in
  let hi' := clamp_index n hi in
  take (Z.to_nat (hi' - lo')) (drop (Z.to_nat lo') l).

(** [s[lo:hi]] *)
Definition slice (s : string) (lo hi : Z) : string :=
  str (slice_list (chars s) lo hi).

(** [s[:k]] *)
Definition prefix_to (s : string) (k : Z) : string := slice s 0 k.

Fixpoint last_index (c : ascii) (l : list ascii) : option nat :=
  match l with
  | [] => None
  | x :: l' =>
      match last_index c l' with
      | Some k => Some (S k)
      | None => if Ascii.eqb x c then Some 0%nat else None
      end
  end.

(** [s.rfind(c, lo, hi)] for a one-character [c]: the highest index
    of [c] inside [s[lo:hi]], or [-1]. *)
Definition rfind (s : string) (c : ascii) (lo hi : Z) : Z :=
  let l := chars s in
  let lo' := clamp_index (Z.of_nat (length l)) lo in
  match last_index c (slice_list l lo hi) with
  | Some k => lo' + Z.of_nat k
  | None => -1
  end.

Fixpoint is_prefix (p l : list ascii) : bool :=
  match p, l with
  | [], _ => true
  | _ :: _, [] => false
  | a :: p', b :: l' => Ascii.eqb a b && is_prefix p' l'
  end.

Fixpoint contains_chars (sub l : list ascii) : bool :=
  is_prefix sub l
  || match l with
     | [] => false
     | _ :: l' => contains_chars sub l'
     end.

(** [sub in s] *)
Definition contains (sub s : string) : bool :=
  contains_chars (chars sub) (chars s).

Definition flush (cur : list ascii) : list string :=
  match cur with
  | [] => []
  | _ => [str (rev cur)]
  end.

(** The maximal runs of characters of the class [keep], left to
    right; [cur] is the run being read, last character first. *)
Fixpoint runs_go (keep : ascii -> bool) (cur : list ascii) (l : list ascii)
  : list string :=
  match l with
  | [] => flush cur
  | c :: l' =>
      if keep c then runs_go keep (c :: cur) l'
      else flush cur ++ runs_go keep [] l'
  end.

(** [re.findall(r'\b\w+\b', s)]: a match starts at the first word
    character after a boundary, [\w+] is greedy and [\b] then holds
    exactly at the end of the run, so the matches are the maximal
    runs of word characters. *)
Definition findall_words (s : string) : list string :=
  runs_go is_word [] (chars s).

(** [sep.join(l)] *)
Definition join (sep : string) (l : list string) : string :=
  String.concat sep l.

(** A list of characters that does not start with a blank. *)
Definition clean (l : list ascii) : Prop :=
  match l with
  | [] => True
  | c :: _ => is_space c = false
  end.

End PyStr.

(** ** The chunker ([pdf_processor.py]) *)

Module Chunker.
Import PyStr.

(** [PDFProcessor.__init__] stores its two parameters as they come. *)
Record PDFProcessor := {
  chunk_size : Z;
  chunk_overlap : Z
}.

(** [PDFProcessor()] in [main.py] *)
Definition default_processor : PDFProcessor :=
  {| chunk_size := 1000; chunk_overlap := 200 |}.

(** [max(l, default=d)] *)
Definition max_default (l : list Z) (d : Z) : Z :=
  match l with
  | [] => d
  | x :: l' => foldr Z.max x l'
  end.

(** The cut of the window that starts at [start]: the hard boundary
    [start + chunk_size], moved when it falls before the end of the
    text. *)
Definition window_end (self : PDFProcessor) (text : string) (start : Z) : Z :=
  let end_ := start + chunk_size self in
  if end_ <? len text then
    let search_start := Z.max (end_ - 200) start in
    let sentence_endings :=
      [ rfind text "." search_start end_;
        rfind text "!" search_start end_;
        rfind text "?" search_start end_;
        rfind text "010" search_start end_ ] in
    let best_end :=
      max_default (filter (fun pos => search_start < pos) sentence_endings) end_ in
    if search_start <? best_end then best_end + 1 else end_
  else end_.

(** What one turn of the [while] loop does after the cut is known:
    [None] is the [break]. *)
Definition next_start (self : PDFProcessor) (text : string) (end_ : Z)
  : option Z :=
  if len text <=? end_ then None
  else
    let start := end_ - chunk_overlap self in
    Some (if start <=? 0 then end_ else start).

Definition append_chunk (chunks : list string) (chunk : string) : list string :=
  if String.eqb chunk "" then chunks else chunks ++ [chunk].

(** The [while start < len(text)] loop. The source loop has no bound;
    [fuel] bounds the number of turns and [None] means that the fuel
    ran out before the loop was left. *)
Fixpoint chunk_loop (self : PDFProcessor) (text : string)
    (fuel : nat) (start : Z) (chunks : list string) : option (list string) :=
  if start <? len text then
    match fuel with
    | O => None
    | S fuel' =>
        let end_ := window_end self text start in
        let chunk := strip (slice text start end_) in
        let chunks := append_chunk chunks chunk in
        match next_start self text end_ with
        | None => Some chunks
        | Some start' => chunk_loop self text fuel' start' chunks
        end
    end
  else Some chunks.

(** [PDFProcessor._create_chunks] *)
Definition create_chunks (self : PDFProcessor) (fuel : nat) (text : string)
  : option (list string) :=
  if len text <=? chunk_size self then Some [text]
  else chunk_loop self text fuel 0 [].

End Chunker.


(** ** Python floats *)

Module PyFloat.

Local Open Scope Q_scope.

(** The power of two of an exponent that may be negative. *)
Definition pow2 (e : Z) : Q :=
  if (0 <=? e)%Z then inject_Z (2 ^ e) else 1 # Z.to_pos (2 ^ (- e)).

(** The nearest integer, and the even one of the two when the number
    lies half way between them. *)
Definition round_half_even (x : Q) : Z :=
  let f := Qfloor x in
  match Qcompare (x - inject_Z f) (1 # 2) with
  | Lt => f
  | Gt => (f + 1)%Z
  | Eq => if Z.even f then f else (f + 1)%Z
  end.

(** The exponent [e] of a positive number: [2 ^ e <= x < 2 ^ (e + 1)]. *)
Definition ilog2 (x : Q) : Z :=
  let e := (Z.log2 (Qnum x) - Z.log2 (Zpos (Qden x)))%Z in
  if Qle_bool (pow2 e) x then e else (e - 1)%Z.

(** The binary64 number nearest to a rational number, as an
    operation of Python on floats gives it: a significand of 53 bits,
    the least exponent of the last place -1074, ties to the even
    significand. Numbers too large for the format are not treated. *)
Definition last_place (a : Q) : Z := Z.max (ilog2 a - 52) (-1074).

Definition nearest (a : Q) : Q :=
  inject_Z (round_half_even (a / pow2 (last_place a))) * pow2 (last_place a).

Definition binary64 (x : Q) : Q :=
  if Qeq_bool x 0 then 0
  else Qred (if Qle_bool 0 x then nearest (Qabs x) else - nearest (Qabs x)).

(** Exact arithmetic: the rounding that changes nothing. *)
Definition unrounded (x : Q) : Q := x.

End PyFloat.

(** ** The query engine ([query_engine.py]) *)

Module Engine.
Import PyStr.

(** What a call gives back: a value, or an exception with its message
    ([str(e)]). *)
Inductive result (A : Type) : Type :=
| Ok (a : A)
| Raise (e : string).
Arguments Ok {A} a.
Arguments Raise {A} e.

(** A chunk dictionary: the four keys that [extract_text_chunks] sets,
    and the three that the retriever adds to its copies ([None] while
    the key is absent). *)
Record chunk := Chunk {
  text : string;
  chunk_id : nat;
  length_ : nat;
  source : string;
  relevance_score : option Q;
  semantic_score : option Q;
  keyword_score : option Q
}.

(** [chunk[key] = value] for the three score keys. *)
Definition set_relevance_score (v : Q) (c : chunk) : chunk :=
  Chunk (text c) (chunk_id c) (length_ c) (source c)
        (Some v) (semantic_score c) (keyword_score c).
Definition set_semantic_score (v : Q) (c : chunk) : chunk :=
  Chunk (text c) (chunk_id c) (length_ c) (source c)
        (relevance_score c) (Some v) (keyword_score c).
Definition set_keyword_score (v : Q) (c : chunk) : chunk :=
  Chunk (text c) (chunk_id c) (length_ c) (source c)
        (relevance_score c) (semantic_score c) (Some v).

(** The dictionary that the question-answering pipeline returns. *)
Record qa_result := QAResult {
  answer : string;
  score : Q
}.

(** What the engine does to the world outside: the calls to the three
    services, with their arguments, and the records it logs. *)
Inductive event : Type :=
| EncodeCall (texts : list string)
| SummarizerCall (full_text : string) (max_length min_length : nat) (do_sample : bool)
| QACall (question context : string)
| LogInfo (msg : string)
| LogError (msg : string).

Definition Qltb (x y : Q) : bool := negb (Qle_bool y x).

(** [min(x, y)] of Python: [y] only when it is strictly smaller. *)
Definition py_min (x y : Q) : Q := if Qltb y x then y else x.

Definition nl : string := String "010" EmptyString.

(** The markers are the bytes of the source file. *)
Definition summary_marker : string :=
  "ðŸ“„ Summary of the document:" +:+ nl +:+ nl.
Definition answer_marker : string := "ðŸ’¡ Answer: ".
Definition no_document_message : string :=
  "No document loaded. Please upload a PDF first.".
Definition no_relevant_message : string :=
  "I couldn't find relevant information in the document to answer your query.".
Definition error_prefix : string := "Error processing your query: ".
Definition trigger_terms : list string := ["summarize"; "summary"; "overview"].

(** [any(keyword in query_text.lower() for keyword in [...])] *)
Definition summary_requested (query_text : string) : bool :=
  existsb (fun keyword => contains keyword (lower query_text)) trigger_terms.

(** *** Floating-point numbers

    A score is a Python or NumPy float; the model takes it for the
    rational number that it is. The results of the operations of the
    source are rounded to the format: [fl] is that rounding, to the
    nearest number of the format, a parameter as the services are
    (binary64 for Python floats, [PyFloat.binary64]; the identity
    gives exact arithmetic). A literal such as [0.7] is [fl 0.7], a
    product [x * y] is [fl (x * y)]. Comparisons are exact. The
    similarities that scikit-learn returns are taken in the format of
    the Python floats they are combined with. Not a number and the
    infinities are left out. *)

Section Services.

Variable fl : Q -> Q.

(** *** The hybrid scorer, on texts *)

(** [set(re.findall(r'\b\w+\b', s.lower()))] *)
Definition word_set (s : string) : gset string :=
  list_to_set (findall_words (lower s)).

(** The query words: [{word for word in query_words if len(word) > 2}] *)
Definition query_words (query_text : string) : gset string :=
  filter (fun word => 2 < String.length word)%nat (word_set query_text).

Definition Qnat (n : nat) : Q := inject_Z (Z.of_nat n).

(** The body of the loop of [_calculate_keyword_scores] for one chunk. *)
Definition chunk_keyword_score (query_text : string) (qw : gset string)
    (chunk_text : string) : Q :=
  let chunk_words := word_set chunk_text in
  let intersection := qw ∩ chunk_words in
  let union := qw ∪ chunk_words in
  let jaccard_score :=
    if decide (union = ∅) then 0%Q
    else fl (Qnat (size intersection) / Qnat (size union))%Q in
  let phrase_boost :=
    if contains (lower query_text) (lower chunk_text) then fl 0.3%Q else 0%Q in
  py_min (fl (jaccard_score + phrase_boost))%Q 1%Q.

(** [0.7 * sem_score + 0.3 * kw_score] *)
Definition combined_score (sem_score kw_score : Q) : Q :=
  fl (fl (fl 0.7 * sem_score) + fl (fl 0.3 * kw_score))%Q.

(** [enumerate(zip(similarities, keyword_scores))] with the combined
    score of each pair. *)
Definition combine_scores (similarities keyword_scores : list Q)
  : list (Q * nat) :=
  imap (fun i p => (combined_score p.1 p.2, i))
       (zip similarities keyword_scores).

(** [list.sort(reverse=True, key=lambda x: x[0])]: a stable sort,
    and [reverse=True] keeps the original order of equal keys. An
    element goes behind those of a strictly greater key only. *)
Fixpoint insert_desc (x : Q * nat) (l : list (Q * nat)) : list (Q * nat) :=
  match l with
  | [] => [x]
  | y :: l' => if Qltb x.1 y.1 then y :: insert_desc x l' else x :: l
  end.

Definition sort_desc (l : list (Q * nat)) : list (Q * nat) :=
  foldr insert_desc [] l.

(** The running best of the loop over the retrieved chunks in [query]. *)
Record best := Best {
  best_answer : string;
  best_score : Q;
  best_context : string
}.

Definition best_init : best := Best "" (-1)%Q "".

Definition best_update (b : best) (context : string) (r : qa_result) : best :=
  if Qltb (best_score b) (score r) then Best (answer r) (score r) context
  else b.

(** [best_score < 0.3 or not best_answer or len(best_answer.strip()) < 3] *)
Definition falls_back (b : best) : bool :=
  Qltb (best_score b) (fl 0.3%Q)
  || String.eqb (best_answer b) ""
  || (String.length (strip (best_answer b)) <? 3)%nat.

(** The three strings that the loop of [_generate_response] adds for
    the chunk at position [i]. *)
Definition section_parts (i : nat) (chunk_text : string) : list string :=
  let chunk_text :=
    if (800 <? len chunk_text)%Z then prefix_to chunk_text 800 +:+ "..."
    else chunk_text in
  [ "--- Relevant Section " +:+ pretty (i + 1)%nat +:+ " ---"; chunk_text; ""%string ].

Definition summary_parts (query_text : string) (n : nat) : list string :=
  if (1 <? n)%nat then
    [ "--- Summary ---"%string;
      "The above content from " +:+ pretty n
        +:+ " sections answers your query about: '" +:+ query_text +:+ "'." ]
  else [].

(** The end of [_generate_response]: join, and cut at 2000 characters. *)
Definition assemble (response_parts : list string) : string :=
  let response := join nl response_parts in
  if (2000 <? len response)%Z then
    prefix_to response 2000 +:+ nl +:+ nl +:+ "[Response truncated for readability]"
  else response.

(** An embedding vector, and the services. [model_encode] is
    [SentenceTransformer.encode], [cosine] the entry of
    [cosine_similarity] for one pair of vectors, [summarizer] the
    summarization pipeline with [max_length], [min_length] and
    [do_sample] (its result is the [summary_text] of the first item),
    [qa_model] the question-answering pipeline on a question and a
    context. *)
Variable vec : Type.
Variable model_encode : list string -> result (list vec).
Variable cosine : vec -> vec -> Q.
Variable summarizer : string -> nat -> nat -> bool -> result string.
Variable qa_model : string -> string -> result qa_result.

(** The state: the object store with the chunk dictionaries, the two
    fields of the engine, and the events so far. *)
Record state := State {
  heap : gmap positive chunk;
  document_chunks : list positive;
  chunk_embeddings : option (list vec);
  events : list event
}.

(** [QueryEngine.__init__] leaves no document. *)
Definition initial_state : state := State ∅ [] None [].

Definition with_heap (h : gmap positive chunk) (s : state) : state :=
  State h (document_chunks s) (chunk_embeddings s) (events s).
Definition with_document_chunks (l : list positive) (s : state) : state :=
  State (heap s) l (chunk_embeddings s) (events s).
Definition with_chunk_embeddings (e : option (list vec)) (s : state) : state :=
  State (heap s) (document_chunks s) e (events s).
Definition with_events (l : list event) (s : state) : state :=
  State (heap s) (document_chunks s) (chunk_embeddings s) l.

(** *** A state and exception monad

    A computation runs from a state to a result and a state; the state
    that an exception leaves is the one reached when it was raised. *)
Definition M (A : Type) : Type := state -> result A * state.

Definition ret {A} (a : A) : M A := fun s => (Ok a, s).

Definition raise {A} (e : string) : M A := fun s => (Raise e, s).

Definition bind {A B} (m : M A) (k : A -> M B) : M B :=
  fun s =>
    match m s with
    | (Ok a, s') => k a s'
    | (Raise e, s') => (Raise e, s')
    end.

(** [try: body / except Exception as e: handler] *)
Definition try_except {A} (body : M A) (handler : string -> M A) : M A :=
  fun s =>
    match body s with
    | (Ok a, s') => (Ok a, s')
    | (Raise e, s') => handler e s'
    end.

Definition gets {A} (f : state -> A) : M A := fun s => (Ok (f s), s).
Definition modify (f : state -> state) : M unit := fun s => (Ok tt, f s).
Definition lift {A} (r : result A) : M A := fun s => (r, s).

Notation "x <- m ;; k" := (bind m (fun x => k))
  (at level 100, m at next level, right associativity).
Notation "m ;;; k" := (bind m (fun _ => k))
  (at level 100, right associativity).

Fixpoint mapM {A B} (f : A -> M B) (l : list A) : M (list B) :=
  match l with
  | [] => ret []
  | a :: l' => b <- f a ;; bs <- mapM f l' ;; ret (b :: bs)
  end.

Fixpoint foldM {A B} (f : B -> A -> M B) (b : B) (l : list A) : M B :=
  match l with
  | [] => ret b
  | a :: l' => b' <- f b a ;; foldM f b' l'
  end.

Definition emit (e : event) : M unit :=
  modify (fun s => with_events (events s ++ [e]) s).

Definition log_info (msg : string) : M unit := emit (LogInfo msg).
Definition log_error (msg : string) : M unit := emit (LogError msg).

(** The object behind a reference. A reference of a Python program
    always has one; the model raises where it has none. *)
Definition deref (c : positive) : M chunk :=
  fun s =>
    match heap s !! c with
    | Some d => (Ok d, s)
    | None => (Raise "dangling reference", s)
    end.

(** [chunk['text']] *)
Definition get_text (c : positive) : M string :=
  d <- deref c ;; ret (text d).

(** [chunk.copy()]: a new dictionary with the same items. *)
Definition dict_copy (c : positive) : M positive :=
  d <- deref c ;;
  fun s =>
    let c' := fresh (dom (heap s)) in
    (Ok c', with_heap (<[c' := d]> (heap s)) s).

(** [chunk[key] = value], through [set_relevance_score] and the like. *)
Definition set_item (c : positive) (f : chunk -> chunk) : M unit :=
  modify (fun s => with_heap (alter f c (heap s)) s).

(** [l[i]] *)
Definition index {A} (l : list A) (i : nat) : M A :=
  match l !! i with
  | Some a => ret a
  | None => raise "list index out of range"
  end.

(** [with self._model_lock: self.model.encode(texts)] *)
Definition encode (texts : list string) : M (list vec) :=
  emit (EncodeCall texts) ;;; lift (model_encode texts).

(** [cosine_similarity(query_embedding, self.chunk_embeddings)[0]]:
    the row of the first query vector. Without chunk embeddings
    ([None]) scikit-learn compares the query vectors with themselves;
    on an empty array, the first or the second, it raises. *)
Definition cosine_similarity_row (query_embedding : list vec)
    (chunk_embeddings : option (list vec)) : M (list Q) :=
  match query_embedding, default query_embedding chunk_embeddings with
  | q :: _, (_ :: _) as embs => ret (cosine q <$> embs)
  | _, _ => raise "Found array with 0 sample(s) while a minimum of 1 is required"
  end.

(** [QueryEngine.initialize_document]. The engine has its model from
    [__init__] on, so the [if not self.model] branch is never taken. *)
Definition initialize_document (chunks : list positive) : M unit :=
  try_except
    (modify (with_document_chunks chunks) ;;;
     chunk_texts <- mapM get_text chunks ;;
     embeddings <- encode chunk_texts ;;
     modify (with_chunk_embeddings (Some embeddings)) ;;;
     log_info "Document initialized successfully")
    (fun e =>
       log_error ("Error initializing document: " +:+ e) ;;;
       raise e).

(** [QueryEngine.clear_document] *)
Definition clear_document : M unit :=
  modify (with_document_chunks []) ;;;
  modify (with_chunk_embeddings None) ;;;
  log_info "Document cleared from query engine".

(** [QueryEngine._calculate_keyword_scores] *)
Definition calculate_keyword_scores (query_text : string) : M (list Q) :=
  let qw := query_words query_text in
  chunks <- gets document_chunks ;;
  if decide (qw = ∅) then ret (replicate (length chunks) 0%Q)
  else
    mapM (fun c =>
            chunk_text <- get_text c ;;
            ret (chunk_keyword_score query_text qw chunk_text))
         chunks.

(** One turn of the selection loop of [_find_relevant_chunks]. *)
Definition select_chunk (similarities keyword_scores : list Q)
    (relevant_chunks : list positive) (entry : Q * nat) : M (list positive) :=
  let '(score, idx) := entry in
  if Qltb (fl 0.1%Q) score then
    chunks <- gets document_chunks ;;
    c <- index chunks idx ;;
    chunk <- dict_copy c ;;
    set_item chunk (set_relevance_score score) ;;;
    sem <- index similarities idx ;;
    set_item chunk (set_semantic_score sem) ;;;
    kw <- index keyword_scores idx ;;
    set_item chunk (set_keyword_score kw) ;;;
    ret (relevant_chunks ++ [chunk])
  else ret relevant_chunks.

(** [QueryEngine._find_relevant_chunks] *)
Definition find_relevant_chunks (query_text : string) (top_k : Z)
  : M (list positive) :=
  try_except
    (query_embedding <- encode [query_text] ;;
     embeddings <- gets chunk_embeddings ;;
     similarities <- cosine_similarity_row query_embedding embeddings ;;
     keyword_scores <- calculate_keyword_scores query_text ;;
     let combined_scores := sort_desc (combine_scores similarities keyword_scores) in
     relevant_chunks <-
       foldM (select_chunk similarities keyword_scores) []
             (slice_list combined_scores 0 top_k) ;;
     log_info ("Found " +:+ pretty (length relevant_chunks)
                 +:+ " relevant chunks for query") ;;;
     ret relevant_chunks)
    (fun e =>
       log_error ("Error finding relevant chunks: " +:+ e) ;;;
       ret []).

(** [QueryEngine._generate_response] *)
Definition generate_response (query_text : string)
    (relevant_chunks : list positive) : M string :=
  try_except
    (response_parts <-
       foldM (fun parts entry =>
                chunk_text <- get_text entry.2 ;;
                ret (parts ++ section_parts entry.1 chunk_text))
             ["Based on the document content:" +:+ nl]
             (imap (fun i c => (i, c)) relevant_chunks) ;;
     ret (assemble (response_parts
                      ++ summary_parts query_text (length relevant_chunks))))
    (fun e =>
       log_error ("Error generating response: " +:+ e) ;;;
       ret ("Found relevant information but encountered an error generating the response: "
              +:+ e)).

(** One turn of the loop of [query] over the retrieved chunks. *)
Definition ask (query_text : string) (b : best) (chunk : positive) : M best :=
  chunk_text <- get_text chunk ;;
  let context := prefix_to chunk_text 1000 in
  emit (QACall query_text context) ;;;
  r <- lift (qa_model query_text context) ;;
  ret (best_update b context r).

(** [QueryEngine.query] *)
Definition query (query_text : string) (top_k : Z) : M (string * nat) :=
  try_except
    (chunks <- gets document_chunks ;;
     embeddings <- gets chunk_embeddings ;;
     if bool_decide (chunks = []) || bool_decide (embeddings = None)
     then ret (no_document_message, 0%nat)
     else if summary_requested query_text then
       texts <- mapM get_text chunks ;;
       let full_text := prefix_to (join " " texts) 3000 in
       emit (SummarizerCall full_text 180 60 false) ;;;
       summary <- lift (summarizer full_text 180 60 false) ;;
       ret (summary_marker +:+ summary, 1%nat)
     else
       relevant_chunks <- find_relevant_chunks query_text top_k ;;
       if bool_decide (relevant_chunks = [])
       then ret (no_relevant_message, 0%nat)
       else
         b <- foldM (ask query_text) best_init relevant_chunks ;;
         if falls_back b then
           fallback <- generate_response query_text relevant_chunks ;;
           ret (fallback, length relevant_chunks)
         else ret (answer_marker +:+ strip (best_answer b), length relevant_chunks))
    (fun e =>
       log_error ("Error processing query: " +:+ e) ;;;
       ret (error_prefix +:+ e, 0%nat)).

End Services.

Arguments State {vec}.
Arguments heap {vec}.
Arguments document_chunks {vec}.
Arguments chunk_embeddings {vec}.
Arguments events {vec}.
Arguments initial_state {vec}.
Arguments with_heap {vec}.
Arguments with_document_chunks {vec}.
Arguments with_chunk_embeddings {vec}.
Arguments with_events {vec}.
Arguments M vec A : clear implicits.
Arguments ret {vec A}.
Arguments raise {vec A}.
Arguments bind {vec A B}.
Arguments try_except {vec A}.
Arguments gets {vec A}.
Arguments modify {vec}.
Arguments lift {vec A}.
Arguments mapM {vec A B}.
Arguments foldM {vec A B}.
Arguments emit {vec}.
Arguments log_info {vec}.
Arguments log_error {vec}.
Arguments deref {vec}.
Arguments get_text {vec}.
Arguments dict_copy {vec}.
Arguments set_item {vec}.
Arguments index {vec A}.
Arguments encode {vec}.
Arguments cosine_similarity_row {vec}.
Arguments initialize_document {vec}.
Arguments clear_document {vec}.
Arguments calculate_keyword_scores fl {vec}.
Arguments select_chunk fl {vec}.
Arguments find_relevant_chunks fl {vec}.
Arguments generate_response {vec}.
Arguments ask {vec}.
Arguments query fl {vec}.

End Engine.

(** ** The words of the design document, and sample data *)

Module Design.
Import PyStr Chunker Engine.

(** A chunk that is not blank. *)
Definition nonblank (c : string) : Prop := strip c <> ""%string.

(** The configurations under which every turn of the chunking loop
    moves forward: an overlap of at most one character, or a chunk size
    that exceeds the overlap by more than the 198 characters that the
    search for a sentence end can give up. *)
Definition advances (self : PDFProcessor) : Prop :=
  (0 < chunk_size self)%Z /\
  (0 <= chunk_overlap self < chunk_size self)%Z /\
  (chunk_overlap self <= 1 \/ chunk_overlap self + 198 < chunk_size self)%Z.

(** The texts of the chunk dictionaries behind a list of references. *)
Definition texts_of (h : gmap positive chunk) (cs : list positive)
    (ts : list string) : Prop :=
  Forall2 (fun c t => text <$> h !! c = Some t) cs ts.

(** A response of the query operation that reports an error. *)
Definition is_error_response (response : string) : bool :=
  String.prefix error_prefix response.

(** The contexts put to the question-answering service for the texts
    [ts], as events, and the running best after them when the service
    gave the results [rs]. *)
Definition qa_events (q : string) (ts : list string) : list event :=
  (fun t => QACall q (prefix_to t 1000)) <$> ts.

Definition scan (q : string) (b : best) (ts : list string) (rs : list qa_result)
  : best :=
  foldl (fun b p => best_update b (prefix_to p.1 1000) p.2) b (zip ts rs).

(** The result of the highest confidence; the first one wins a tie. *)
Fixpoint best_result (rs : list qa_result) : option qa_result :=
  match rs with
  | [] => None
  | r :: rs' =>
      match best_result rs' with
      | Some b => Some (if Qltb (score r) (score b) then b else r)
      | None => Some r
      end
  end.

(** The three reasons to give up on the best answer: a confidence
    below 0.3 (the number of the format that the literal stands
    for), a blank answer, fewer than 3 characters once trimmed. *)
Definition must_fall_back (fl : Q -> Q) (top : qa_result) : Prop :=
  (score top < fl 0.3)%Q \/
  strip (answer top) = ""%string \/
  (String.length (strip (answer top)) < 3)%nat.

(** The tokens of a text: the runs of word characters of its
    lowercased form; the long ones have more than 2 characters. *)
Definition long (w : string) : Prop := (2 < String.length w)%nat.

Definition word_tokens (s : string) : list string :=
  runs_go is_word [] (chars (lower s)).

Definition jaccard (fl : Q -> Q) (X Y : gset string) : Q :=
  if decide (X ∪ Y = ∅) then 0%Q
  else fl (Qnat (size (X ∩ Y)) / Qnat (size (X ∪ Y)))%Q.

Definition phrase_bonus (fl : Q -> Q) (q p : string) : Q :=
  if contains (lower q) (lower p) then fl 0.3%Q else 0%Q.

(** The keyword score in the words of the design document: the long
    tokens of the query against the long tokens of the passage. The
    quotient, the bonus and the sum are numbers of the floating-point
    format, rounded by [fl]. *)
Definition claimed_keyword_score (fl : Q -> Q) (q p : string) : Q :=
  Qmin (fl (jaccard fl (list_to_set (filter long (word_tokens q)))
                       (list_to_set (filter long (word_tokens p)))
            + phrase_bonus fl q p))%Q 1%Q.

(** The keyword score as amended: only the tokens of the query are
    kept by length, and a query without a long token scores 0 on every
    passage. *)
Definition keyword_score (fl : Q -> Q) (q p : string) : Q :=
  let query_tokens : gset string := list_to_set (filter long (word_tokens q)) in
  if decide (query_tokens = ∅) then 0%Q
  else Qmin (fl (jaccard fl query_tokens (list_to_set (word_tokens p))
                 + phrase_bonus fl q p))%Q 1%Q.

(** One entry ranks before another: a greater score, or the same
    score and a lower index. *)
Definition before (a b : Q * nat) : Prop :=
  (b.1 < a.1)%Q \/ ((a.1 == b.1)%Q /\ (a.2 < b.2)%nat).

(** Entries in the order of their indices. *)
Definition by_index (a b : Q * nat) : Prop := (a.2 < b.2)%nat.

(** A chunk dictionary with the three scores written to it. *)
Definition scored (d : chunk) (relevance sem kw : Q) : chunk :=
  set_keyword_score kw (set_semantic_score sem (set_relevance_score relevance d)).

(** The entries that the retriever keeps: the first [k] of the sorted
    ones, and of these the ones above the floor of 0.1. *)
Definition picked (fl : Q -> Q) (k : Z) (similarities keyword_scores : list Q)
  : list (Q * nat) :=
  filter (fun e => Qltb (fl 0.1%Q) e.1)
         (take (Z.to_nat k)
               (sort_desc (combine_scores fl similarities keyword_scores))).

(** The tokens in the words of the design document: the runs of
    letters and digits of the lowercased text. *)
Definition is_alnum (c : ascii) : bool :=
  let n := nat_of_ascii c in
  ((48 <=? n)%nat && (n <=? 57)%nat)
  || ((65 <=? n)%nat && (n <=? 90)%nat)
  || ((97 <=? n)%nat && (n <=? 122)%nat).

Definition alnum_tokens (s : string) : list string :=
  runs_go is_alnum [] (chars (lower s)).

(** The ranking: the indices of a list of scored entries, best first. *)
Definition ranking (l : list (Q * nat)) : list nat := (sort_desc l).*2.

(** A rounding that keeps the order of the numbers, and under which
    the weight 0.7 is not negative. *)
Definition monotone (fl : Q -> Q) : Prop :=
  (forall x y, (x <= y)%Q -> (fl x <= fl y)%Q) /\ (0 <= fl 0.7)%Q.

(** The entry [a] may stand before the entry [b] in a ranking by the
    semantic scores [sims]: its passage has the greater semantic
    score, or the two entries have the same combined score and its
    passage has the lower index. *)
Definition ranked_by (sims : list Q) (a b : Q * nat) : Prop :=
  exists sem_a sem_b,
    sims !! a.2 = Some sem_a /\ sims !! b.2 = Some sem_b /\
    ((sem_b < sem_a)%Q \/ ((a.1 == b.1)%Q /\ (a.2 < b.2)%nat)).

(** The excerpt of a passage, and the response of the fallback in the
    words of the design document: a header, for each passage a label,
    its excerpt of at most 800 characters and an empty line, a closing
    note for more than one passage, the whole cut at 2000 characters. *)
Definition excerpt (t : string) : string :=
  if (800 <? len t)%Z then prefix_to t 800 +:+ "..." else t.

Definition excerpt_lines (q : string) (texts : list string) : list string :=
  ("Based on the document content:" +:+ nl)
    :: concat (imap (fun i t =>
                       [ "--- Relevant Section " +:+ pretty (S i) +:+ " ---";
                         excerpt t;
                         ""%string ])
                    texts)
    ++ (if (2 <=? length texts)%nat
        then [ "--- Summary ---"%string;
               "The above content from " +:+ pretty (length texts)
                 +:+ " sections answers your query about: '" +:+ q +:+ "'." ]
        else []).

Definition excerpt_response (q : string) (texts : list string) : string :=
  let response := join nl (excerpt_lines q texts) in
  if (len response <=? 2000)%Z then response
  else prefix_to response 2000 +:+ nl +:+ nl
         +:+ "[Response truncated for readability]".

Section Session.
Context {vec : Type}.

(** A document is loaded: [query] goes past its first test. *)
Definition loaded (s : state vec) : Prop :=
  document_chunks s <> [] /\ chunk_embeddings s <> None.

(** The alignment invariant of the document session: no passages and
    no embeddings, or as many embeddings as passages. *)
Definition aligned (s : state vec) : Prop :=
  match chunk_embeddings s with
  | None => document_chunks s = []
  | Some embeddings => length embeddings = length (document_chunks s)
  end.

(** What a query may do to a session that was in state [s0]: the two
    fields keep their values, and every stored dictionary is still
    there with the same items. *)
Definition frame (s0 s : state vec) : Prop :=
  document_chunks s = document_chunks s0 /\
  chunk_embeddings s = chunk_embeddings s0 /\
  heap s0 ⊆ heap s.

(** A Hoare triple for the monad, with one postcondition for a value
    and one for an exception. *)
Definition triple {A} (P : state vec -> Prop) (m : M vec A)
    (R : A -> state vec -> Prop) (E : state vec -> Prop) : Prop :=
  forall s, P s ->
    match m s with
    | (Ok a, s') => R a s'
    | (Raise _, s') => E s'
    end.

(** The object [c] of the store of [s1] is the passage of index [e.2]
    of the session [s], with its semantic score, its keyword score and
    their combination [e.1], which is above the floor. *)
Definition retrieved (fl : Q -> Q) (s s1 : state vec)
    (similarities keyword_scores : list Q) (c : positive) (e : Q * nat) : Prop :=
  exists c0 d sem kw,
    document_chunks s !! e.2 = Some c0 /\
    heap s !! c0 = Some d /\
    similarities !! e.2 = Some sem /\
    keyword_scores !! e.2 = Some kw /\
    e.1 = combined_score fl sem kw /\
    (fl 0.1 < e.1)%Q /\
    heap s1 !! c = Some (scored d e.1 sem kw).

(** A computation that keeps the session, whatever its outcome. *)
Definition keeps {A} (s0 : state vec) (m : M vec A) : Prop :=
  triple (frame s0) m (fun _ => frame s0) (frame s0).

(** References to objects that the store of [s0] does not hold. *)
Definition all_new (s0 : state vec) (l : list positive) : Prop :=
  Forall (fun c => c ∉ dom (heap s0)) l.

End Session.

Section Answering.
Variable qa_model : string -> string -> result qa_result.

(** The service answers the question [q] on the first 1000 characters
    of [t] with [r]. *)
Definition answers (q : string) (t : string) (r : qa_result) : Prop :=
  qa_model q (prefix_to t 1000) = Ok r.

End Answering.
End Design.

Module Samples.
Import PyStr PyFloat Chunker Engine.

(** A configuration with a positive chunk size and an overlap below
    it, and a cleaned text that it never finishes. *)
Definition tight : PDFProcessor := {| chunk_size := 3; chunk_overlap := 2 |}.
Definition stuck_text : string := "a.a.aaaa".

Definition passage (t : string) (i : nat) : chunk :=
  Chunk t i (String.length t) "report.pdf" None None None.

(** Two documents in the object store: the chunks 1 and 2 of a first
    upload, the chunks 3, 4 and 5 of a second one. *)
Definition store : gmap positive chunk :=
  <[1%positive := passage "a cat" 0]>
  (<[2%positive := passage "the dog barks loud" 1]>
  (<[3%positive := passage "rain" 0]>
  (<[4%positive := passage "snow and ice" 1]>
  (<[5%positive := passage "wind" 2]> ∅)))).

Definition fresh_engine : state Q := State store [] None [].

(** An embedding service with one number per text, a twentieth of its
    length, that gives up on a batch of more than two texts. *)
Definition small_encode (texts : list string) : result (list Q) :=
  if (2 <? length texts)%nat then Raise "out of memory"
  else Ok ((fun t => Qnat (String.length t) / 20)%Q <$> texts).

(** An embedding service that is down. *)
Definition down_encode (texts : list string) : result (list Q) :=
  Raise "encoder down".

Definition plain_cosine (q v : Q) : Q := v.

Definition echo_summarizer (full_text : string) (max_length min_length : nat)
    (do_sample : bool) : result string :=
  Ok ("In short: " +:+ full_text).

(** A question-answering service that answers with the context and is
    half sure of it. *)
Definition echo_qa (question context : string) : result qa_result :=
  Ok (QAResult context 0.5).

(** A question-answering service that is a quarter sure. *)
Definition unsure_qa (question context : string) : result qa_result :=
  Ok (QAResult context 0.25).

Definition down_summarizer (full_text : string) (max_length min_length : nat)
    (do_sample : bool) : result string :=
  Raise "summarizer down".

Definition down_qa (question context : string) : result qa_result :=
  Raise "reader down".

(** The first document, loaded. *)
Definition first_loaded : state Q :=
  (initialize_document small_encode [1; 2]%positive fresh_engine).2.

(** The second document after a load that the embedding service
    refused. *)
Definition after_failed_load : state Q :=
  (initialize_document small_encode [3; 4; 5]%positive first_loaded).2.

(** A document of two passages whose semantic scores are the floats
    0.65 and 0.45, and one with an identifier in its first passage. *)
Definition pets_store : gmap positive chunk :=
  <[1%positive := passage "cat xx yy" 0]>
  (<[2%positive := passage "cat dog" 1]> ∅).

Definition pets_loaded : state Q :=
  State pets_store [1; 2]%positive (Some [binary64 0.65; binary64 0.45]) [].

Definition names_store : gmap positive chunk :=
  <[1%positive := passage "a_b" 0]>
  (<[2%positive := passage "c" 1]> ∅).

Definition names_loaded : state Q :=
  State names_store [1; 2]%positive (Some [binary64 0.5; binary64 0.5]) [].

(** Two semantic scores that are neighbours among the floats,
    0.9262191471236858 and 0.9262191471236859. *)
Definition close_low : Q := 2085660102924825 # 2251799813685248.
Definition close_high : Q := 8342640411699301 # 9007199254740992.

Definition close_loaded : state Q :=
  State pets_store [1; 2]%positive (Some [close_low; close_high]) [].

(** An embedding service that gives the number 1 for every text; with
    [plain_cosine] the semantic score of a passage is its embedding. *)
Definition unit_encode (texts : list string) : result (list Q) :=
  Ok ((fun _ => 1%Q) <$> texts).

(** The passage numbers ([chunk_id]) of the chunks that a retrieval
    has returned, in their order. *)
Definition returned_ids (out : result (list positive) * state Q)
  : list (option nat) :=
  match out.1 with
  | Ok relevant_chunks =>
      (fun c => chunk_id <$> heap out.2 !! c) <$> relevant_chunks
  | Raise _ => []
  end.

End Samples.

(** ** Regular-expression substitutions ([re.sub]) *)

Module PyRe.
Import PyStr.

(** A pattern, as what it does at the current position of the text:
    no match, or a match with its replacement and the number of
    characters that it takes (at least one for the patterns here). *)
Definition matcher : Type := list ascii -> option (list ascii * nat).

(** [re.sub]: the text is read from left to right; where the pattern
    matches, the replacement is written and the reading goes on behind
    the match; elsewhere the character is kept. [skip] counts the
    characters of a match that are still to be passed over. *)
Fixpoint sub_go (m : matcher) (skip : nat) (l : list ascii) : list ascii :=
  match l with
  | [] => []
  | c :: l' =>
      match skip with
      | S k => sub_go m k l'
      | O =>
          match m l with
          | Some (replacement, n) => replacement ++ sub_go m (n - 1) l'
          | None => c :: sub_go m 0 l'
          end
      end
  end.

Definition sub (m : matcher) (s : string) : string :=
  str (sub_go m 0 (chars s)).

Definition is_digit (c : ascii) : bool :=
  let n := nat_of_ascii c in (48 <=? n)%nat && (n <=? 57)%nat.

Definition is_lower (c : ascii) : bool :=
  let n := nat_of_ascii c in (97 <=? n)%nat && (n <=? 122)%nat.

Definition is_upper (c : ascii) : bool :=
  let n := nat_of_ascii c in (65 <=? n)%nat && (n <=? 90)%nat.

Definition is_newline (c : ascii) : bool := Ascii.eqb c "010".

Definition is_blank (c : ascii) : bool := Ascii.eqb c " ".

(** The length of the longest run of characters of a class at the
    start of a text: what a greedy [+] takes. *)
Fixpoint run_length (cls : ascii -> bool) (l : list ascii) : nat :=
  match l with
  | c :: l' => if cls c then S (run_length cls l') else 0%nat
  | [] => 0%nat
  end.

(** The pattern [c+] for a class of characters, with a fixed
    replacement. *)
Definition run_of (cls : ascii -> bool) (replacement : list ascii) : matcher :=
  fun l =>
    match run_length cls l with
    | O => None
    | n => Some (replacement, n)
    end.

(** What is left of [l] behind the literal text [p], when [l] starts
    with it. *)
Fixpoint strip_prefix (p l : list ascii) : option (list ascii) :=
  match p, l with
  | [], _ => Some l
  | _ :: _, [] => None
  | a :: p', b :: l' => if Ascii.eqb a b then strip_prefix p' l' else None
  end.

End PyRe.

(** ** The rest of [pdf_processor.py] *)

Module Pdf.
Import PyStr PyRe Chunker Engine.

Local Open Scope nat_scope.

(** [r'\s+'] replaced by one space *)
Definition whitespace_run : matcher := run_of is_space [" "%char].

(** [r'\n--- Page \d+ ---\n'] replaced by two line breaks. The digits
    are followed by a space in the pattern, so the greedy [\d+] takes
    all the digits there are or the pattern fails. *)
Definition page_separator : matcher :=
  fun l =>
    match strip_prefix ("010"%char :: chars "--- Page ") l with
    | None => None
    | Some digits =>
        match run_length is_digit digits with
        | O => None
        | d =>
            match strip_prefix (chars " ---" ++ ["010"%char]) (drop d digits) with
            | None => None
            | Some _ => Some (["010"; "010"]%char, 10 + d + 5)
            end
        end
    end.

(** [r'([a-z])([A-Z])'] replaced by [r'\1 \2'] *)
Definition lower_upper : matcher :=
  fun l =>
    match l with
    | a :: b :: _ =>
        if is_lower a && is_upper b then Some ([a; " "; b]%char, 2) else None
    | _ => None
    end.

(** [r'(\w)-\n(\w)'] replaced by [r'\1\2'] *)
Definition hyphen_break : matcher :=
  fun l =>
    match l with
    | a :: h :: n :: b :: _ =>
        if is_word a && Ascii.eqb h "-" && is_newline n && is_word b
        then Some ([a; b], 4)
        else None
    | _ => None
    end.

(** [r'\n+'] replaced by one line break *)
Definition newline_run : matcher := run_of is_newline ["010"%char].

(** [r' +'] replaced by one space *)
Definition blank_run : matcher := run_of is_blank [" "%char].

(** [PDFProcessor._clean_text] *)
Definition clean_text (text : string) : string :=
  let text := sub whitespace_run text in
  let text := sub page_separator text in
  let text := sub lower_upper text in
  let text := sub hyphen_break text in
  let text := sub newline_run text in
  let text := sub blank_run text in
  strip text.

(** What [page.extract_text()] gives for one page: a text, nothing, or
    an exception. *)
Definition page : Type := result (option string).

(** The records of the logger of the module. *)
Inductive log_record : Type :=
| Info (msg : string)
| Warning (msg : string)
| Error (msg : string).

(** The loop of [_extract_full_text] over the pages, numbered from
    [page_num] on: a page adds its separator and its text when it has
    one, and a warning is logged for a page without text or whose
    extraction fails. *)
Fixpoint extract_pages (page_num : nat) (pages : list page)
    (full_text : string) (log : list log_record) : string * list log_record :=
  match pages with
  | [] => (full_text, log)
  | p :: pages' =>
      match p with
      | Ok (Some page_text) =>
          if String.eqb page_text "" then
            extract_pages (S page_num) pages' full_text
              (log ++ [Warning ("No text found on page " +:+ pretty page_num)])
          else
            extract_pages (S page_num) pages'
              (full_text +:+ nl +:+ "--- Page " +:+ pretty page_num +:+ " ---" +:+ nl
                 +:+ page_text +:+ nl)
              log
      | Ok None =>
          extract_pages (S page_num) pages' full_text
            (log ++ [Warning ("No text found on page " +:+ pretty page_num)])
      | Raise e =>
          extract_pages (S page_num) pages' full_text
            (log ++ [Warning ("Error processing page " +:+ pretty page_num
                                +:+ ": " +:+ e)])
      end
  end.

(** A page that gives a text. *)
Definition has_text (p : page) : bool :=
  match p with
  | Ok (Some page_text) => negb (String.eqb page_text "")
  | _ => false
  end.

(** The last component of a path ([Path(p).name]): the components are
    the pieces between slashes, the empty ones and the single dots
    left out; a path without components has the empty name. *)
Fixpoint split_on (sep : ascii) (cur : list ascii) (l : list ascii)
  : list string :=
  match l with
  | [] => [str (rev cur)]
  | c :: l' =>
      if Ascii.eqb c sep then str (rev cur) :: split_on sep [] l'
      else split_on sep (c :: cur) l'
  end.

Definition path_parts (p : string) : list string :=
  filter (fun part => part <> ""%string /\ part <> "."%string)
         (split_on "/" [] (chars p)).

Definition path_name (p : string) : string :=
  default ""%string (last (path_parts p)).

Section Files.

(** The file system and the PDF reader: [path_exists] is
    [os.path.exists], [open_pdf] gives the pages of the file that
    [pdfplumber.open] reads, or the exception of a file that it cannot
    open. *)
Variable path_exists : string -> bool.
Variable open_pdf : string -> result (list page).

(** [PDFProcessor._extract_full_text] *)
Definition extract_full_text (pdf_path : string) (log : list log_record)
  : result string * list log_record :=
  match open_pdf pdf_path with
  | Raise e => (Raise e, log ++ [Error ("Error opening PDF file: " +:+ e)])
  | Ok pages =>
      let '(full_text, log) :=
        extract_pages 1 pages ""
          (log ++ [Info ("Processing PDF with " +:+ pretty (length pages)
                           +:+ " pages")]) in
      (Ok full_text, log)
  end.

(** The dictionaries that [extract_text_chunks] builds from the chunks. *)
Definition with_metadata (source : string) (chunks : list string) : list chunk :=
  imap (fun i chunk => Chunk chunk i (String.length chunk) source None None None)
       chunks.

(** The body of the [try] of [extract_text_chunks]; [None] when the
    chunking loop does not end within [fuel] turns. *)
Definition extract_body (self : PDFProcessor) (fuel : nat) (pdf_path : string)
    (log : list log_record) : option (result (list chunk) * list log_record) :=
  if negb (path_exists pdf_path) then
    Some (Raise ("PDF file not found: " +:+ pdf_path), log)
  else
    match extract_full_text pdf_path log with
    | (Raise e, log) => Some (Raise e, log)
    | (Ok full_text, log) =>
        if String.eqb (strip full_text) "" then
          Some (Raise "No text content found in PDF", log)
        else
          let cleaned_text := clean_text full_text in
          match create_chunks self fuel cleaned_text with
          | None => None
          | Some chunks =>
              let chunks_with_metadata := with_metadata (path_name pdf_path) chunks in
              Some (Ok chunks_with_metadata,
                    log ++ [Info ("Successfully extracted "
                                    +:+ pretty (length chunks_with_metadata)
                                    +:+ " chunks from " +:+ path_name pdf_path)])
          end
    end.

(** [PDFProcessor.extract_text_chunks]: an exception of the body is
    logged and raised again. *)
Definition extract_text_chunks (self : PDFProcessor) (fuel : nat)
    (pdf_path : string) (log : list log_record)
  : option (result (list chunk) * list log_record) :=
  match extract_body self fuel pdf_path log with
  | None => None
  | Some (Ok chunks, log) => Some (Ok chunks, log)
  | Some (Raise e, log) =>
      Some (Raise e,
            log ++ [Error ("Error processing PDF " +:+ pdf_path +:+ ": " +:+ e)])
  end.

End Files.

(** The windows of the chunking loop, in the order in which it cuts
    them: the same loop as [chunk_loop], keeping the bounds of each
    window instead of its text. *)
Fixpoint windows (self : PDFProcessor) (text : string) (fuel : nat) (start : Z)
  : option (list (Z * Z)) :=
  if (start <? len text)%Z then
    match fuel with
    | O => None
    | S fuel' =>
        let end_ := window_end self text start in
        match next_start self text end_ with
        | None => Some [(start, end_)]
        | Some start' => cons (start, end_) <$> windows self text fuel' start'
        end
    end
  else Some [].

(** The chunks that the loop appends for a list of windows. *)
Definition chunks_of (text : string) (chunks : list string) (ws : list (Z * Z))
  : list string :=
  foldl (fun chunks w => append_chunk chunks (strip (slice text w.1 w.2))) chunks ws.

(** A text whose white space is single blanks, each one followed by
    a character that is not white space or by the end of the text. *)
Fixpoint spaced (l : list ascii) : Prop :=
  match l with
  | [] => True
  | c :: l' =>
      (is_space c = true -> c = " "%char /\ clean l') /\ spaced l'
  end.

(** A text in which a pattern matches nowhere. *)
Fixpoint quiet (m : matcher) (l : list ascii) : Prop :=
  m l = None /\
  match l with
  | [] => True
  | _ :: l' => quiet m l'
  end.

End Pdf.

(** Sample files: a report of three pages, one of them without text
    and one with a blank text, and a scan whose pages give no text. *)
Module PdfSamples.
Import Engine Pdf.

Definition report_path : string := "/tmp/tmpk3v9.pdf".

Definition on_disk (p : string) : bool := String.eqb p report_path.

Definition report_pages : list page :=
  [Ok (Some "Intro. helloWorld"%string); Ok None; Ok (Some " "%string)].

Definition scan_pages : list page :=
  [Ok None; Ok (Some ""%string); Raise "bad page"].

Definition open_report (p : string) : result (list page) := Ok report_pages.

Definition open_scan (p : string) : result (list page) := Ok scan_pages.

End PdfSamples.

(** ** The server ([main.py])

    The handlers of the upload, of the queries and of the chat
    history, on the global state of the module. The readings of the
    clock ([datetime.now()]) are arguments of a handler, as is the
    name that [tempfile] gives to the temporary file; the reader of
    PDF files and the two formats of a time are parameters. Paths
    are those of [posixpath]; reading the upload and writing the
    temporary file are taken to succeed. The validation of a request
    by the framework, before the handler runs, is not part of the
    model. *)

Module App.
Import PyStr Chunker Engine Design Pdf.

(** What a handler gives: the body of its response, or an
    [HTTPException]. *)
Inductive http (A : Type) : Type :=
| Reply (body : A)
| HTTPException (status_code : Z) (detail : string).
Arguments Reply {A} body.
Arguments HTTPException {A} status_code detail.

Record UploadResponse := {
  message : string;
  filename : string;
  chunks_created : nat;
  file_size : Z;
  upload_processing_time : Q
}.

Record ChatResponse := {
  response : string;
  timestamp : Q;
  chunks_used : nat;
  processing_time : Q
}.

(** An entry of the chat history. *)
Record chat_entry := ChatEntry {
  entry_query : string;
  entry_response : string;
  entry_timestamp : string;
  entry_chunks_used : nat
}.

(** The bodies of [GET /chat-history] and [GET /document-status]. *)
Record ChatHistory := {
  history : list chat_entry;
  document : option string;
  total_messages : nat
}.

Record DocumentStatus := {
  document_loaded : bool;
  status_current_document : option string;
  chat_messages : nat;
  ready_for_queries : bool
}.

Definition MAX_FILE_SIZE : Z := 10 * 1024 * 1024.
Definition ALLOWED_EXTENSIONS : list string := [".pdf"%string].
Definition MAX_CHAT_HISTORY : nat := 5.

(** [pdf_processor = PDFProcessor()] *)
Definition pdf_processor : PDFProcessor := default_processor.

(** [os.path.splitext] of [posixpath]: the extension starts at the
    last dot, when that dot lies behind the last slash and behind a
    character of the last component that is not a dot. *)
Definition splitext (p : string) : string * string :=
  let sepIndex := rfind p "/" 0 (len p) in
  let dotIndex := rfind p "." 0 (len p) in
  if sepIndex <? dotIndex then
    if existsb (fun c => negb (Ascii.eqb c "."))
               (slice_list (chars p) (sepIndex + 1) dotIndex)
    then (slice p 0 dotIndex, slice p dotIndex (len p))
    else (p, ""%string)
  else (p, ""%string).

(** The files of the machine, by their paths, with [os.path.exists]. *)
Definition path_exists (fs : gmap string string) (p : string) : bool :=
  bool_decide (is_Some (fs !! p)).

Section Server.

Variable vec : Type.
Variable fl : Q -> Q.
Variable model_encode : list string -> result (list vec).
Variable cosine : vec -> vec -> Q.
Variable summarizer : string -> nat -> nat -> bool -> result string.
Variable qa_model : string -> string -> result qa_result.

(** [parse_pdf] is [pdfplumber] on the bytes of a file, [isoformat]
    the method of [datetime], [seconds_2f] the format [:.2f] of a
    number of seconds. *)
Variable parse_pdf : string -> result (list page).
Variable isoformat : Q -> string.
Variable seconds_2f : Q -> string.

(** The globals of the module, the files, and the records of the
    loggers of [main] and [pdf_processor]. *)
Record app := App {
  query_engine : state vec;
  chat_history : list chat_entry;
  current_document : option string;
  files : gmap string string;
  log : list log_record
}.

(** The module as it is loaded. *)
Definition start (fs : gmap string string) : app :=
  App initial_state [] None fs [].

(** [pdfplumber.open(path)] *)
Definition open_pdf (fs : gmap string string) (p : string) : result (list page) :=
  match fs !! p with
  | Some content => parse_pdf content
  | None => Raise ("[Errno 2] No such file or directory: '" +:+ p +:+ "'")
  end.

(** The dictionaries that [extract_text_chunks] has built, as objects
    of the store. *)
Fixpoint new_dicts (ds : list chunk) (s : state vec) : list positive * state vec :=
  match ds with
  | [] => ([], s)
  | d :: ds' =>
      let c := fresh (dom (heap s)) in
      let '(cs, s') := new_dicts ds' (with_heap (<[c := d]> (heap s)) s) in
      (c :: cs, s')
  end.

(** [upload_pdf]. [fuel] bounds the turns of the chunking loop. The
    temporary file is removed on every way out of the inner [try]. *)
Definition upload_pdf (fuel : nat) (file_filename : option string)
    (content temp_file_path : string) (start_time end_time : Q) (a : app)
  : option (http UploadResponse * app) :=
  match file_filename with
  | None => Some (HTTPException 400 "No file provided", a)
  | Some name =>
      if String.eqb name "" then Some (HTTPException 400 "No file provided", a)
      else
        let file_ext := lower (splitext name).2 in
        if bool_decide (file_ext ∉ ALLOWED_EXTENSIONS) then
          Some (HTTPException 400 "Only PDF files are allowed", a)
        else
          let file_size := len content in
          if MAX_FILE_SIZE <? file_size then
            Some (HTTPException 413
                    ("File size (" +:+ pretty file_size
                       +:+ " bytes) exceeds maximum allowed size ("
                       +:+ pretty MAX_FILE_SIZE +:+ " bytes)"), a)
          else
            let fs := <[temp_file_path := content]> (files a) in
            let log := log a ++ [Info ("Processing PDF: " +:+ name)] in
            match extract_text_chunks (path_exists fs) (open_pdf fs) pdf_processor
                    fuel temp_file_path log with
            | None => None
            | Some (Raise e, log) =>
                Some (HTTPException 500 ("Error processing PDF: " +:+ e),
                      App (query_engine a) (chat_history a) (current_document a)
                          (delete temp_file_path fs)
                          (log ++ [Error ("Error processing PDF " +:+ name
                                            +:+ ": " +:+ e)]))
            | Some (Ok chunks, log) =>
                if bool_decide (chunks = []) then
                  Some (HTTPException 422
                          "Could not extract text from PDF. The file might be corrupted or contain only images.",
                        App (query_engine a) (chat_history a) (current_document a)
                            (delete temp_file_path fs) log)
                else
                  let '(refs, engine) := new_dicts chunks (query_engine a) in
                  match initialize_document model_encode refs engine with
                  | (Raise e, engine) =>
                      Some (HTTPException 500 ("Error processing PDF: " +:+ e),
                            App engine (chat_history a) (current_document a)
                                (delete temp_file_path fs)
                                (log ++ [Error ("Error processing PDF " +:+ name
                                                  +:+ ": " +:+ e)]))
                  | (Ok _, engine) =>
                      let processing_time := (end_time - start_time)%Q in
                      Some (Reply {| message := "Successfully processed " +:+ name;
                                     filename := name;
                                     chunks_created := length chunks;
                                     file_size := file_size;
                                     upload_processing_time := processing_time |},
                            App engine [] (Some name)
                                (delete temp_file_path fs)
                                (log ++ [Info ("Successfully processed " +:+ name
                                                 +:+ ": " +:+ pretty (length chunks)
                                                 +:+ " chunks created")]))
                  end
            end
  end.

(** [query_document] *)
Definition query_document (message_query : string)
    (start_time end_time now : Q) (a : app) : http ChatResponse * app :=
  match current_document a with
  | None =>
      (HTTPException 400 "No document loaded. Please upload a PDF first.", a)
  | Some _ =>
      let query_text := strip message_query in
      if String.eqb query_text "" then
        (HTTPException 400 "Query cannot be empty", a)
      else if 1000 <? len query_text then
        (HTTPException 400 "Query is too long (maximum 1000 characters)", a)
      else
        let log := log a ++ [Info ("Processing query: " +:+ prefix_to query_text 50
                                     +:+ "...")] in
        match query fl model_encode cosine summarizer qa_model query_text 5
                (query_engine a) with
        | (Raise e, engine) =>
            (HTTPException 500 ("Error processing query: " +:+ e),
             App engine (chat_history a) (current_document a) (files a)
                 (log ++ [Error ("Error processing query: " +:+ e)]))
        | (Ok (response, chunks_used), engine) =>
            let processing_time := (end_time - start_time)%Q in
            let chat_entry :=
              ChatEntry query_text response (isoformat now) chunks_used in
            let chat_history := chat_history a ++ [chat_entry] in
            let chat_history :=
              if (MAX_CHAT_HISTORY <? length chat_history)%nat
              then drop 1 chat_history else chat_history in
            (Reply {| response := response;
                      timestamp := now;
                      chunks_used := chunks_used;
                      processing_time := processing_time |},
             App engine chat_history (current_document a) (files a)
                 (log ++ [Info ("Query processed successfully in "
                                  +:+ seconds_2f processing_time +:+ "s")]))
        end
  end.

(** [get_chat_history] *)
Definition get_chat_history (a : app) : ChatHistory :=
  {| history := chat_history a;
     document := current_document a;
     total_messages := length (chat_history a) |}.

(** [clear_chat_history] *)
Definition clear_chat_history (a : app) : string * app :=
  ("Chat history cleared"%string,
   App (query_engine a) [] (current_document a) (files a) (log a)).

(** [get_document_status] *)
Definition get_document_status (a : app) : DocumentStatus :=
  {| document_loaded := bool_decide (current_document a <> None);
     status_current_document := current_document a;
     chat_messages := length (chat_history a);
     ready_for_queries := bool_decide (current_document a <> None) |}.

(** The requests that change the state, and the states that the
    server can be in. *)
Inductive request : Type :=
| PostUpload (fuel : nat) (file_filename : option string)
             (content temp_file_path : string) (start_time end_time : Q)
| PostQuery (message_query : string) (start_time end_time now : Q)
| DeleteChatHistory.

Definition serve (r : request) (a : app) : option app :=
  match r with
  | PostUpload fuel file_filename content temp_file_path start_time end_time =>
      snd <$> upload_pdf fuel file_filename content temp_file_path
                start_time end_time a
  | PostQuery message_query start_time end_time now =>
      Some (query_document message_query start_time end_time now a).2
  | DeleteChatHistory => Some (clear_chat_history a).2
  end.

Inductive reachable : app -> Prop :=
| reachable_start fs : reachable (start fs)
| reachable_step a r a' : reachable a -> serve r a = Some a' -> reachable a'.

(** What holds of the globals in every state of the server: the
    history has at most [MAX_CHAT_HISTORY] entries and is empty while
    no document is named, and a document is named exactly when the
    engine has one loaded. *)
Definition consistent (a : app) : Prop :=
  (length (chat_history a) <= MAX_CHAT_HISTORY)%nat /\
  (current_document a <> None <-> loaded (query_engine a)) /\
  (chunk_embeddings (query_engine a) <> None ->
     document_chunks (query_engine a) <> []) /\
  (current_document a = None -> chat_history a = []).

End Server.

Arguments App {vec}.
Arguments query_engine {vec}.
Arguments chat_history {vec}.
Arguments current_document {vec}.
Arguments files {vec}.
Arguments log {vec}.
Arguments start {vec}.
Arguments new_dicts {vec}.
Arguments upload_pdf {vec}.
Arguments query_document {vec}.
Arguments get_chat_history {vec}.
Arguments clear_chat_history {vec}.
Arguments get_document_status {vec}.
Arguments serve {vec}.
Arguments reachable {vec}.
Arguments consistent {vec}.

End App.

(** Sample requests: a reader of PDF files that takes the content of
    a file for the text of its only page, and refuses one broken
    file; the formats of a time are fixed texts. *)
Module AppSamples.
Import PyStr PyFloat Engine Pdf App Samples.

Definition line_pages (content : string) : result (list page) :=
  if String.eqb content "%PDF broken" then Raise "No /Root object"
  else Ok [Ok (Some content)].

Definition plain_isoformat (t : Q) : string := "2024-01-01T00:00:00".
Definition plain_seconds (t : Q) : string := "0.00".

Definition upload_sample (file_filename : option string) (content : string)
    (a : app Q) : option (http UploadResponse * app Q) :=
  upload_pdf small_encode line_pages 5 file_filename content "/tmp/tmpq1.pdf" 0 1 a.

Definition query_sample (message_query : string) (a : app Q)
  : http ChatResponse * app Q :=
  query_document unrounded small_encode plain_cosine echo_summarizer echo_qa
    plain_isoformat plain_seconds message_query 0 1 2 a.

(** The server after the upload of a file of one line. *)
Definition after_upload : app Q :=
  default (start ∅)
    (snd <$> upload_sample (Some "Report.PDF"%string) "the dog barks loud" (start ∅)).

End AppSamples.

(** ** The rounding to binary64 keeps the order *)

Module FloatFacts.
Import PyFloat.
Local Open Scope Q_scope.

Lemma pow2_Qpower e : pow2 e == 2 ^ e.
Proof.
  unfold pow2. destruct (Z.leb_spec 0 e) as [He|He].
  - by rewrite (Zpower_Qpower 2 e He).
  - replace e with (- - e)%Z at 2 by lia.
    rewrite Qpower_opp, <- (Zpower_Qpower 2 (- e)) by lia.
    assert (0 < 2 ^ (- e))%Z as Hp by (apply Z.pow_pos_nonneg; lia).
    destruct (2 ^ (- e))%Z as [|p|p] eqn:E; [lia | | lia].
    done.
Qed.

Lemma pow2_pos e : 0 < pow2 e.
Proof. rewrite pow2_Qpower. by apply Qpower_0_lt. Qed.

Lemma pow2_le e e' : (e <= e')%Z -> pow2 e <= pow2 e'.
Proof. intros H. rewrite !pow2_Qpower. by apply Qpower_le_compat_l. Qed.

Lemma pow2_lt_inv e e' : pow2 e < pow2 e' -> (e < e')%Z.
Proof. rewrite !pow2_Qpower. intros H. by apply (Qpower_lt_compat_l_inv 2). Qed.

Lemma pow2_plus e e' : pow2 (e + e') == pow2 e * pow2 e'.
Proof. rewrite !pow2_Qpower. by apply Qpower_plus. Qed.

Lemma pow2_nonneg e : (0 <= e)%Z -> pow2 e = inject_Z (2 ^ e).
Proof. intros H. unfold pow2. by destruct (Z.leb_spec 0 e); [|lia]. Qed.


(** The exponent of a positive number. *)
Lemma ilog2_spec a : 0 < a -> pow2 (ilog2 a) <= a /\ a < pow2 (ilog2 a + 1).
Proof.
  destruct a as [n d]. intros Ha.
  assert (0 < n)%Z as Hn by (unfold Qlt in Ha; simpl in Ha; lia).
  unfold ilog2. cbn [Qnum Qden].
  destruct (Z.log2_spec n Hn) as [Hn1 Hn2].
  destruct (Z.log2_spec (Zpos d) eq_refl) as [Hd1 Hd2].
  pose proof (Z.log2_nonneg n) as Hln.
  pose proof (Z.log2_nonneg (Zpos d)) as Hld.
  set (ln := Z.log2 n) in *. set (ld := Z.log2 (Zpos d)) in *.
  assert (n # d == inject_Z n / inject_Z (Zpos d)) as Hq by apply Qmake_Qdiv.
  assert (0 < inject_Z (Zpos d)) as Hdpos by done.
  assert ((n # d) * inject_Z (Zpos d) == inject_Z n) as Hmul.
  { rewrite Hq. field. intros E. rewrite E in Hdpos. by apply Qlt_irrefl in Hdpos. }
  assert (pow2 ln <= inject_Z n) as Hn1'.
  { rewrite pow2_nonneg by done. by rewrite <- Zle_Qle. }
  assert (inject_Z n < pow2 (ln + 1)) as Hn2'.
  { rewrite pow2_nonneg by lia. rewrite <- Zlt_Qlt. by rewrite <- Z.add_1_r in Hn2. }
  assert (pow2 ld <= inject_Z (Zpos d)) as Hd1'.
  { rewrite pow2_nonneg by done. by rewrite <- Zle_Qle. }
  assert (inject_Z (Zpos d) < pow2 (ld + 1)) as Hd2'.
  { rewrite pow2_nonneg by lia. rewrite <- Zlt_Qlt. by rewrite <- Z.add_1_r in Hd2. }
  pose proof (pow2_pos ld) as Hpd. pose proof (pow2_pos (ld + 1)) as Hpd1.
  destruct (Qle_bool (pow2 (ln - ld)) (n # d)) eqn:E.
  - apply Qle_bool_iff in E. split; [done|].
    apply Qnot_le_lt. intros Hge.
    assert (pow2 (ln - ld + 1) * pow2 ld == pow2 (ln + 1)) as Hp.
    { rewrite <- pow2_plus. by replace (ln - ld + 1 + ld)%Z with (ln + 1)%Z by lia. }
    pose proof (pow2_pos (ln - ld + 1)) as Hpp.
    assert (pow2 (ln - ld + 1) * pow2 ld <= (n # d) * inject_Z (Zpos d)) as H.
    { apply Qle_trans with (pow2 (ln - ld + 1) * inject_Z (Zpos d)).
      - rewrite !(Qmult_comm (pow2 (ln - ld + 1))).
        apply Qmult_le_compat_r; [done | by apply Qlt_le_weak].
      - apply Qmult_le_compat_r; [done | by apply Qlt_le_weak]. }
    rewrite Hp, Hmul in H. lra.
  - assert (~ pow2 (ln - ld) <= n # d) as E'.
    { intros H. apply Qle_bool_iff in H. by rewrite H in E. }
    apply Qnot_le_lt in E'.
    replace (ln - ld - 1 + 1)%Z with (ln - ld)%Z by lia. split; [|done].
    apply Qnot_lt_le. intros Hlt.
    assert (pow2 (ln - ld - 1) * pow2 (ld + 1) == pow2 ln) as Hp.
    { rewrite <- pow2_plus. by replace (ln - ld - 1 + (ld + 1))%Z with ln by lia. }
    pose proof (pow2_pos (ln - ld - 1)) as Hpp.
    assert ((n # d) * inject_Z (Zpos d) < pow2 (ln - ld - 1) * pow2 (ld + 1)) as H.
    { apply Qlt_le_trans with (pow2 (ln - ld - 1) * inject_Z (Zpos d)).
      - by apply Qmult_lt_compat_r.
      - rewrite !(Qmult_comm (pow2 (ln - ld - 1))).
        apply Qmult_le_compat_r; [by apply Qlt_le_weak | by apply Qlt_le_weak]. }
    rewrite Hp, Hmul in H. lra.
Qed.


(** The rounding to the nearest integer. *)
Lemma round_half_even_cases x :
  let f := Qfloor x in
  (x - inject_Z f < 1 # 2 /\ round_half_even x = f)
  \/ (x - inject_Z f == 1 # 2 /\ (round_half_even x = f \/ round_half_even x = (f + 1)%Z))
  \/ (1 # 2 < x - inject_Z f /\ round_half_even x = (f + 1)%Z).
Proof.
  intros f. unfold round_half_even. fold f.
  destruct (Qcompare (x - inject_Z f) (1 # 2)) eqn:C.
  - right; left. apply Qeq_alt in C. split; [done|].
    destruct (Z.even f); by auto.
  - left. by apply Qlt_alt in C.
  - right; right. by apply Qgt_alt in C.
Qed.

Lemma round_half_even_floor x :
  (Qfloor x <= round_half_even x <= Qfloor x + 1)%Z.
Proof.
  destruct (round_half_even_cases x) as [[_ ->]|[[_ [->| ->]]|[_ ->]]]; lia.
Qed.

Lemma round_half_even_mono x y : x <= y -> (round_half_even x <= round_half_even y)%Z.
Proof.
  intros Hxy. pose proof (Qfloor_resp_le x y Hxy) as Hf.
  destruct (Z.eq_dec (Qfloor x) (Qfloor y)) as [E|E].
  - unfold round_half_even. rewrite <- E.
    destruct (Qcompare (x - inject_Z (Qfloor x)) (1 # 2)) eqn:Cx;
      destruct (Qcompare (y - inject_Z (Qfloor x)) (1 # 2)) eqn:Cy;
      try lia; try (destruct (Z.even (Qfloor x)); lia);
      repeat match goal with
             | H : Qcompare _ _ = Eq |- _ => apply Qeq_alt in H
             | H : Qcompare _ _ = Lt |- _ => apply Qlt_alt in H
             | H : Qcompare _ _ = Gt |- _ => apply Qgt_alt in H
             end; lra.
  - pose proof (round_half_even_floor x). pose proof (round_half_even_floor y). lia.
Qed.

Lemma round_half_even_int n : round_half_even (inject_Z n) = n.
Proof.
  unfold round_half_even. rewrite Qfloor_Z.
  destruct (Qcompare (inject_Z n - inject_Z n) (1 # 2)) eqn:C;
    [apply Qeq_alt in C; lra | done | apply Qgt_alt in C; lra].
Qed.

Lemma round_half_even_small x : 0 <= x -> x < 1 # 2 -> round_half_even x = 0%Z.
Proof.
  intros H0 H1.
  pose proof (round_half_even_mono 0 x H0) as Hlo.
  change 0 with (inject_Z 0) in Hlo. rewrite round_half_even_int in Hlo.
  assert (Qfloor x = 0%Z) as Hf.
  { pose proof (Qfloor_le x) as Hle. pose proof (Qlt_floor x) as Hlt.
    assert (0 <= Qfloor x)%Z.
    { change 0%Z with (Qfloor 0). by apply Qfloor_resp_le. }
    assert (Qfloor x < 1)%Z; [|lia].
    rewrite Zlt_Qlt. apply Qle_lt_trans with x; [done|].
    change (inject_Z 1) with 1. lra. }
  unfold round_half_even. rewrite Hf.
  change (inject_Z 0) with 0.
  destruct (Qcompare (x - 0) (1 # 2)) eqn:C;
    [apply Qeq_alt in C; lra | done | apply Qgt_alt in C; lra].
Qed.


Lemma scaled_le a b q : a <= b -> a / pow2 q <= b / pow2 q.
Proof.
  intros H. unfold Qdiv. apply Qmult_le_compat_r; [done|].
  apply Qlt_le_weak, Qinv_lt_0_compat, pow2_pos.
Qed.

Lemma scaled_pow2 e q : pow2 e / pow2 q == pow2 (e - q).
Proof.
  pose proof (pow2_pos q) as Hq.
  replace e with (e - q + q)%Z at 1 by lia. rewrite pow2_plus. field.
  intros E. rewrite E in Hq. by apply Qlt_irrefl in Hq.
Qed.

Lemma nearest_nonneg a : 0 < a -> 0 <= nearest a.
Proof.
  intros Ha. unfold nearest. apply Qmult_le_0_compat.
  - change 0 with (inject_Z 0). rewrite <- Zle_Qle.
    rewrite <- (round_half_even_int 0). apply round_half_even_mono.
    change (inject_Z 0) with 0. apply Qlt_le_weak, Qlt_shift_div_l; [apply pow2_pos | lra].
  - apply Qlt_le_weak, pow2_pos.
Qed.

(** A number below the power of two [2 ^ e] is not rounded above it,
    and a number of exponent [e] is not rounded below it. *)
Lemma nearest_upper a e :
  0 < a -> a < pow2 (ilog2 a + 1) -> (ilog2 a + 1 <= e)%Z -> nearest a <= pow2 e.
Proof.
  intros Ha Hup He. unfold nearest.
  set (q := last_place a).
  pose proof (pow2_pos q) as Hq.
  destruct (Z_le_gt_dec q (ilog2 a + 1)) as [Hle|Hgt].
  - apply Qle_trans with (pow2 (ilog2 a + 1)); [|by apply pow2_le].
    assert (pow2 (ilog2 a + 1) == inject_Z (2 ^ (ilog2 a + 1 - q)) * pow2 q) as ->.
    { rewrite <- pow2_nonneg by lia. rewrite <- pow2_plus.
      by replace (ilog2 a + 1 - q + q)%Z with (ilog2 a + 1)%Z by lia. }
    apply Qmult_le_compat_r; [|by apply Qlt_le_weak].
    rewrite <- Zle_Qle.
    rewrite <- (round_half_even_int (2 ^ (ilog2 a + 1 - q))).
    apply round_half_even_mono.
    rewrite <- pow2_nonneg by lia. rewrite <- scaled_pow2.
    by apply scaled_le, Qlt_le_weak.
  - assert (round_half_even (a / pow2 q) = 0%Z) as ->.
    { apply round_half_even_small.
      - apply Qlt_le_weak, Qlt_shift_div_l; [done | lra].
      - apply Qlt_shift_div_r; [done|].
        apply Qlt_le_trans with (pow2 (ilog2 a + 1)); [done|].
        assert ((1 # 2) * pow2 q == pow2 (q - 1)) as ->.
        { replace q with (q - 1 + 1)%Z at 1 by lia. rewrite pow2_plus.
          change (pow2 1) with 2. field. }
        apply pow2_le. lia. }
    change (inject_Z 0) with 0. rewrite Qmult_0_l. apply Qlt_le_weak, pow2_pos.
Qed.

Lemma nearest_lower a :
  0 < a -> pow2 (ilog2 a) <= a -> (-1074 <= ilog2 a - 52)%Z ->
  pow2 (ilog2 a) <= nearest a.
Proof.
  intros Ha Hlo He. unfold nearest, last_place.
  rewrite Z.max_l by lia.
  set (e := ilog2 a) in *.
  pose proof (pow2_pos (e - 52)) as Hq.
  assert (pow2 e == inject_Z (2 ^ 52) * pow2 (e - 52)) as Hp.
  { rewrite <- (pow2_nonneg 52) by lia. rewrite <- pow2_plus.
    by replace (52 + (e - 52))%Z with e by lia. }
  rewrite Hp at 1.
  apply Qmult_le_compat_r; [|by apply Qlt_le_weak].
  rewrite <- Zle_Qle.
  rewrite <- (round_half_even_int (2 ^ 52)).
  apply round_half_even_mono.
  rewrite <- (pow2_nonneg 52) by lia.
  replace 52%Z with (e - (e - 52))%Z at 1 by lia.
  rewrite <- scaled_pow2. by apply scaled_le.
Qed.

Lemma nearest_mono a b : 0 < a -> a <= b -> nearest a <= nearest b.
Proof.
  intros Ha Hab.
  assert (0 < b) as Hb by lra.
  destruct (ilog2_spec a Ha) as [Ha1 Ha2].
  destruct (ilog2_spec b Hb) as [Hb1 Hb2].
  assert (ilog2 a <= ilog2 b)%Z as He.
  { assert (pow2 (ilog2 a) < pow2 (ilog2 b + 1)) as H by lra.
    apply pow2_lt_inv in H. lia. }
  destruct (Z.eq_dec (last_place a) (last_place b)) as [E|E].
  - unfold nearest. rewrite E.
    apply Qmult_le_compat_r; [|apply Qlt_le_weak, pow2_pos].
    rewrite <- Zle_Qle. by apply round_half_even_mono, scaled_le.
  - unfold last_place in E.
    apply Qle_trans with (pow2 (ilog2 b)).
    + apply nearest_upper; [done | done | lia].
    + apply nearest_lower; [done | done | lia].
Qed.

Lemma Qabs_positive x : 0 < x -> Qabs x = x.
Proof.
  destruct x as [n d]. unfold Qlt. simpl. intros H.
  unfold Qabs. f_equal. lia.
Qed.

Lemma Qabs_negative x : x < 0 -> Qabs x = - x.
Proof.
  destruct x as [n d]. unfold Qlt. simpl. intros H.
  unfold Qabs, Qopp. simpl. f_equal. lia.
Qed.

Lemma binary64_zero x : x == 0 -> binary64 x == 0.
Proof.
  intros H. unfold binary64.
  apply Qeq_bool_iff in H. by rewrite H.
Qed.

Lemma binary64_positive x : 0 < x -> binary64 x == nearest x.
Proof.
  intros H. unfold binary64.
  destruct (Qeq_bool x 0) eqn:E; [apply Qeq_bool_iff in E; lra|].
  assert (Qle_bool 0 x = true) as -> by (apply Qle_bool_iff; lra).
  rewrite Qred_correct. by rewrite Qabs_positive.
Qed.

Lemma binary64_negative x : x < 0 -> binary64 x == - nearest (- x).
Proof.
  intros H. unfold binary64.
  destruct (Qeq_bool x 0) eqn:E; [apply Qeq_bool_iff in E; lra|].
  destruct (Qle_bool 0 x) eqn:E'; [apply Qle_bool_iff in E'; lra|].
  rewrite Qred_correct. by rewrite Qabs_negative.
Qed.

(** Rounding to the nearest binary64 number keeps the order. *)
Lemma binary64_mono x y : x <= y -> binary64 x <= binary64 y.
Proof.
  intros Hxy.
  destruct (Q_dec x 0) as [[Hx|Hx]|Hx]; destruct (Q_dec y 0) as [[Hy|Hy]|Hy];
    try lra.
  - rewrite (binary64_negative x Hx), (binary64_negative y Hy).
    assert (nearest (- y) <= nearest (- x)) by (apply nearest_mono; lra). lra.
  - rewrite (binary64_negative x Hx), (binary64_positive y Hy).
    pose proof (nearest_nonneg (- x)). pose proof (nearest_nonneg y). lra.
  - rewrite (binary64_negative x Hx), (binary64_zero y Hy).
    pose proof (nearest_nonneg (- x)). lra.
  - rewrite (binary64_positive x Hx), (binary64_positive y Hy).
    by apply nearest_mono.
  - rewrite (binary64_zero x Hx), (binary64_positive y Hy).
    apply nearest_nonneg. lra.
  - rewrite (binary64_zero x Hx), (binary64_zero y Hy). lra.
Qed.

End FloatFacts.
(** ** Facts about [strip] *)

Module StripFacts.
Import PyStr.

Lemma chars_str l : chars (str l) = l.
Proof. apply String.list_ascii_of_string_of_list_ascii. Qed.

Lemma str_chars s : str (chars s) = s.
Proof. apply String.string_of_list_ascii_of_string. Qed.

Lemma str_nil_inv l : str l = ""%string -> l = [].
Proof. destruct l; [done | discriminate]. Qed.

Lemma lstrip_clean l : clean (lstrip_chars l).
Proof.
  induction l as [|c l IH]; simpl; [done|].
  destruct (is_space c) eqn:E; [done | exact E].
Qed.

Lemma lstrip_fixed l : clean l -> lstrip_chars l = l.
Proof. destruct l as [|c l]; simpl; [done|]. by intros ->. Qed.

Lemma lstrip_suffix l : exists p, l = p ++ lstrip_chars l.
Proof.
  induction l as [|c l [p IH]]; simpl.
  - by exists [].
  - destruct (is_space c).
    + exists (c :: p). simpl. by f_equal.
    + by exists [].
Qed.

Lemma clean_prefix l1 l2 : clean (l1 ++ l2) -> clean l1.
Proof. by destruct l1. Qed.

Lemma strip_chars_clean l : clean (strip_chars l).
Proof.
  unfold strip_chars.
  destruct (lstrip_suffix (rev (lstrip_chars l))) as [p Hp].
  apply (clean_prefix _ (rev p)).
  rewrite <- rev_app_distr, <- Hp, rev_involutive.
  apply lstrip_clean.
Qed.

Lemma strip_chars_idemp l : strip_chars (strip_chars l) = strip_chars l.
Proof.
  unfold strip_chars at 1.
  rewrite (lstrip_fixed (strip_chars l)) by apply strip_chars_clean.
  unfold strip_chars. rewrite rev_involutive.
  rewrite (lstrip_fixed (lstrip_chars _)) by apply lstrip_clean.
  done.
Qed.

Lemma strip_idemp s : strip (strip s) = strip s.
Proof. unfold strip. by rewrite chars_str, strip_chars_idemp. Qed.

End StripFacts.

(** ** The chunking loop *)

Module ChunkerFacts.
Import PyStr Chunker Design Samples StripFacts.

Lemma chunk_loop_step self text fuel start chunks :
  start < len text ->
  chunk_loop self text (S fuel) start chunks =
    let end_ := window_end self text start in
    let chunks' := append_chunk chunks (strip (slice text start end_)) in
    match next_start self text end_ with
    | None => Some chunks'
    | Some start' => chunk_loop self text fuel start' chunks'
    end.
Proof. intros H. simpl. by rewrite (proj2 (Z.ltb_lt _ _) H). Qed.

Lemma chunk_loop_out self text start chunks :
  start < len text -> chunk_loop self text 0 start chunks = None.
Proof. intros H. simpl. by rewrite (proj2 (Z.ltb_lt _ _) H). Qed.

Lemma append_chunk_nonblank chunks w :
  Forall nonblank chunks -> Forall nonblank (append_chunk chunks (strip w)).
Proof.
  intros H. unfold append_chunk.
  destruct (String.eqb_spec (strip w) "") as [E|E]; [done|].
  apply Forall_app; split; [done|].
  constructor; [|done]. unfold nonblank. by rewrite strip_idemp.
Qed.

Lemma chunk_loop_nonblank self text fuel : forall start chunks res,
  Forall nonblank chunks ->
  chunk_loop self text fuel start chunks = Some res ->
  Forall nonblank res.
Proof.
  induction fuel as [|fuel IH]; intros start chunks res Hc; simpl.
  - destruct (start <? len text); [discriminate|]. by intros [= <-].
  - destruct (start <? len text); [|by intros [= <-]].
    destruct (next_start _ _ _) as [start'|].
    + apply IH. by apply append_chunk_nonblank.
    + intros [= <-]. by apply append_chunk_nonblank.
Qed.

(** The cut lies at least two characters after the start of the
    window whenever it was moved, and at the hard boundary otherwise. *)
Lemma window_end_lower self text start :
  0 < chunk_size self ->
  Z.max (start + chunk_size self - 200) start + 2 <= window_end self text start
  \/ window_end self text start = start + chunk_size self.
Proof.
  intros Hcs. unfold window_end.
  destruct (_ <? len text); [|by right].
  match goal with |- context [max_default ?l ?d] => set (b := max_default l d) end.
  destruct (Z.ltb_spec (Z.max (start + chunk_size self - 200) start) b); [left; lia | by right].
Qed.

Lemma next_start_forward self text start start' :
  advances self -> 0 <= start ->
  next_start self text (window_end self text start) = Some start' ->
  start < start'.
Proof.
  intros (Hcs & Hov & Hw) Hs. unfold next_start.
  destruct (len text <=? _); [discriminate|].
  intros [= <-].
  destruct (window_end_lower self text start Hcs) as [H|H];
    destruct (Z.leb_spec (window_end self text start - chunk_overlap self) 0); lia.
Qed.

Lemma chunk_loop_terminates self text : advances self ->
  forall fuel start chunks,
    0 <= start -> (len text - start < Z.of_nat fuel) ->
    exists res, chunk_loop self text fuel start chunks = Some res.
Proof.
  intros Hadv. induction fuel as [|fuel IH]; intros start chunks Hs Hf; simpl.
  - destruct (Z.ltb_spec start (len text)); [lia | eauto].
  - destruct (Z.ltb_spec start (len text)); [|eauto].
    destruct (next_start _ _ _) as [start'|] eqn:E; [|eauto].
    apply next_start_forward in E; [|done..].
    apply IH; lia.
Qed.

(** The default configuration of the application, 1000 and 200,
    is one that advances: chunking any text returns. *)
Lemma create_chunks_terminates self text :
  advances self ->
  exists res, create_chunks self (S (String.length text)) text = Some res.
Proof.
  intros Hadv. unfold create_chunks.
  destruct (len text <=? chunk_size self); [eauto|].
  apply chunk_loop_terminates; [done | lia |]. unfold len. lia.
Qed.

Lemma default_processor_advances : advances default_processor.
Proof. unfold advances, default_processor; simpl. lia. Qed.

Lemma stuck_turn :
  window_end tight stuck_text 2 = 4 /\
  next_start tight stuck_text 4 = Some 2 /\
  2 < len stuck_text.
Proof. by vm_compute. Qed.

Lemma chunk_loop_stuck fuel : forall chunks,
  chunk_loop tight stuck_text fuel 2 chunks = None.
Proof.
  destruct stuck_turn as (Hw & Hn & Hl).
  induction fuel as [|fuel IH]; intros chunks.
  - by apply chunk_loop_out.
  - rewrite chunk_loop_step by done. cbv zeta. rewrite Hw, Hn. apply IH.
Qed.

(** C2 (the code does not do what the claim says): with
    [chunk_size = 3] and [chunk_overlap = 2], a valid configuration
    ([chunk_size > 0], [0 <= overlap < chunk_size]), the loop of
    [_create_chunks] on the text ["a.a.aaaa"] comes back to
    [start = 2] at every turn: no number of turns finishes it. *)
Theorem create_chunks_diverges :
  0 < chunk_size tight /\
  0 <= chunk_overlap tight < chunk_size tight /\
  forall fuel, create_chunks tight fuel stuck_text = None.
Proof.
  split; [done|]. split; [done|].
  intros [|fuel]; [done|].
  unfold create_chunks.
  replace (len stuck_text <=? chunk_size tight) with false by done.
  rewrite chunk_loop_step by done. cbv zeta.
  replace (window_end tight stuck_text 0) with 2 by (by vm_compute).
  replace (next_start tight stuck_text 2) with (Some 2) by (by vm_compute).
  apply chunk_loop_stuck.
Qed.

End ChunkerFacts.

(** ** The monad: running a computation, and Hoare triples *)

Module MonadFacts.
Import PyStr Engine Design.

Section Rules.
Context {vec : Type}.
Implicit Types s : state vec.

Lemma bind_ok {A B} (m : M vec A) (k : A -> M vec B) s a s' :
  m s = (Ok a, s') -> bind m k s = k a s'.
Proof. unfold bind. by intros ->. Qed.

Lemma bind_raise {A B} (m : M vec A) (k : A -> M vec B) s e s' :
  m s = (Raise e, s') -> bind m k s = (Raise e, s').
Proof. unfold bind. by intros ->. Qed.

Lemma try_ok {A} (m : M vec A) h s a s' :
  m s = (Ok a, s') -> try_except m h s = (Ok a, s').
Proof. unfold try_except. by intros ->. Qed.

Lemma try_raise {A} (m : M vec A) h s e s' :
  m s = (Raise e, s') -> try_except m h s = h e s'.
Proof. unfold try_except. by intros ->. Qed.

Lemma triple_ret {A} (P : state vec -> Prop) (a : A) R E :
  (forall s, P s -> R a s) -> triple P (ret a) R E.
Proof. intros H s Hs. by apply H. Qed.

Lemma triple_raise {A} (P : state vec -> Prop) e (R : A -> state vec -> Prop) E :
  (forall s, P s -> E s) -> triple P (raise e) R E.
Proof. intros H s Hs. by apply H. Qed.

Lemma triple_bind {A B} P (m : M vec A) (k : A -> M vec B) R R' E :
  triple P m R E -> (forall a, triple (R a) (k a) R' E) ->
  triple P (bind m k) R' E.
Proof.
  intros Hm Hk s Hs. specialize (Hm s Hs). unfold bind.
  destruct (m s) as [[a|e] s']; [|done]. by apply Hk.
Qed.

Lemma triple_try {A} P (m : M vec A) h R E E' :
  triple P m R E' -> (forall e, triple E' (h e) R E) ->
  triple P (try_except m h) R E.
Proof.
  intros Hm Hh s Hs. specialize (Hm s Hs). unfold try_except.
  destruct (m s) as [[a|e] s']; [done|]. by apply Hh.
Qed.

Lemma triple_weaken {A} (P P' : state vec -> Prop) (m : M vec A) (R R' : A -> state vec -> Prop) (E E' : state vec -> Prop) :
  triple P' m R' E' ->
  (forall s, P s -> P' s) -> (forall a s, R' a s -> R a s) ->
  (forall s, E' s -> E s) ->
  triple P m R E.
Proof.
  intros Hm HP HR HE s Hs. specialize (Hm s (HP s Hs)).
  destruct (m s) as [[a|e] s']; auto.
Qed.

Lemma triple_pure {A} (P : state vec -> Prop) (F : Prop) (m : M vec A) R E :
  (F -> triple P m R E) -> triple (fun s => P s /\ F) m R E.
Proof. intros H s [Hs HF]. by apply H. Qed.

Lemma triple_gets {A} (P : state vec -> Prop) (f : state vec -> A) E :
  triple P (gets f) (fun _ => P) E.
Proof. by intros s Hs. Qed.

Lemma triple_lift {A} (P : state vec -> Prop) (r : result A) :
  triple P (lift r) (fun _ => P) P.
Proof. intros s Hs. by destruct r. Qed.

Lemma triple_modify (P P' : state vec -> Prop) f E :
  (forall s, P s -> P' (f s)) -> triple P (modify f) (fun _ => P') E.
Proof. intros H s Hs. by apply H. Qed.

Lemma triple_mapM {A B} (P : state vec -> Prop) (f : A -> M vec B) l :
  (forall a, triple P (f a) (fun _ => P) P) ->
  triple P (mapM f l) (fun _ => P) P.
Proof.
  intros Hf. induction l as [|a l IH]; simpl.
  - by apply triple_ret.
  - eapply triple_bind; [apply Hf|]. intros b.
    eapply triple_bind; [apply IH|]. intros bs. by apply triple_ret.
Qed.

Lemma triple_foldM {A B} (I : B -> state vec -> Prop) E (f : B -> A -> M vec B) l :
  (forall b a, triple (I b) (f b a) I E) ->
  forall b, triple (I b) (foldM f b l) I E.
Proof.
  intros Hf. induction l as [|a l IH]; intros b; simpl.
  - by apply triple_ret.
  - eapply triple_bind; [apply Hf|]. apply IH.
Qed.

End Rules.
End MonadFacts.

(** ** The session is only read by a query *)

Module FrameFacts.
Import PyStr Engine Design MonadFacts.

Section Frame.
Context {vec : Type}.
Variable fl : Q -> Q.
Variable model_encode : list string -> result (list vec).
Variable cosine : vec -> vec -> Q.
Variable summarizer : string -> nat -> nat -> bool -> result string.
Variable qa_model : string -> string -> result qa_result.
Implicit Types s : state vec.

Lemma frame_refl s : frame s s.
Proof. by repeat split. Qed.

Lemma frame_events s0 s l : frame s0 s -> frame s0 (with_events l s).
Proof. by intros (? & ? & ?). Qed.

Lemma frame_alloc s0 s d :
  frame s0 s ->
  frame s0 (with_heap (<[fresh (dom (heap s)) := d]> (heap s)) s)
  /\ fresh (dom (heap s)) ∉ dom (heap s0).
Proof.
  intros (Hc & He & Hh).
  assert (fresh (dom (heap s)) ∉ dom (heap s)) as Hf by apply is_fresh.
  split.
  - repeat split; [done..|]. simpl.
    etrans; [exact Hh|]. apply insert_subseteq. by apply not_elem_of_dom.
  - intros Hin. apply Hf. by apply (subseteq_dom _ _ Hh).
Qed.

Lemma frame_alter s0 s c f :
  frame s0 s -> c ∉ dom (heap s0) ->
  frame s0 (with_heap (alter f c (heap s)) s).
Proof.
  intros (Hc & He & Hh) Hn. repeat split; [done..|]. simpl.
  apply map_subseteq_spec. intros i x Hi.
  assert (c <> i) by (intros ->; apply Hn, elem_of_dom; eauto).
  rewrite lookup_alter_ne by done.
  by apply (proj1 (map_subseteq_spec _ _) Hh).
Qed.

Lemma emit_frame s0 e E :
  triple (frame s0) (emit e) (fun _ => frame s0) E.
Proof. intros s Hs. by apply frame_events. Qed.

Lemma keeps_emit s0 e : keeps s0 (emit e).
Proof. apply emit_frame. Qed.

Lemma keeps_deref s0 c : keeps s0 (deref c).
Proof. intros s Hs. unfold deref. by destruct (heap s !! c). Qed.

Lemma keeps_get_text s0 c : keeps s0 (get_text c).
Proof.
  eapply triple_bind; [apply (keeps_deref s0)|]. intros d. by apply triple_ret.
Qed.

Lemma keeps_index {A} s0 (l : list A) i : keeps s0 (index l i).
Proof.
  unfold index. destruct (l !! i); [by apply triple_ret | by apply triple_raise].
Qed.

Lemma keeps_encode s0 texts : keeps s0 (encode model_encode texts).
Proof.
  eapply triple_bind; [apply (keeps_emit s0)|]. intros ?. apply triple_lift.
Qed.

Lemma keeps_cosine_similarity_row s0 qe ce :
  keeps s0 (cosine_similarity_row cosine qe ce).
Proof.
  unfold cosine_similarity_row.
  destruct qe as [|q qe]; [by apply triple_raise|].
  destruct (default (q :: qe) ce) as [|v embs];
    [by apply triple_raise | by apply triple_ret].
Qed.

Lemma keeps_calculate_keyword_scores s0 q :
  keeps s0 (calculate_keyword_scores fl q).
Proof.
  unfold calculate_keyword_scores.
  eapply triple_bind; [apply triple_gets|]. intros chunks.
  destruct (decide _); [by apply triple_ret|].
  apply triple_mapM. intros c.
  eapply triple_bind; [apply (keeps_get_text s0)|]. intros t. by apply triple_ret.
Qed.

(** A copy is a new object, and writing to a new object keeps the
    stored ones. *)
Lemma copy_is_new s0 c :
  triple (frame s0) (dict_copy c)
         (fun c' s => frame s0 s /\ c' ∉ dom (heap s0)) (frame s0).
Proof.
  eapply triple_bind; [apply (keeps_deref s0)|]. intros d s Hs.
  by apply frame_alloc.
Qed.

Lemma keeps_set_item s0 c f :
  c ∉ dom (heap s0) -> keeps s0 (set_item c f).
Proof. intros Hc s Hs. by apply frame_alter. Qed.

Lemma select_chunk_new s0 sims kws rel entry :
  all_new s0 rel ->
  triple (frame s0) (select_chunk fl sims kws rel entry)
         (fun rel' s => frame s0 s /\ all_new s0 rel') (frame s0).
Proof.
  intros Hrel. unfold select_chunk. destruct entry as [sc idx].
  destruct (Qltb _ _); [|by apply triple_ret].
  eapply triple_bind; [apply triple_gets|]. intros chunks.
  eapply triple_bind; [apply (keeps_index s0)|]. intros c.
  eapply triple_bind; [apply (copy_is_new s0)|]. intros c'.
  apply triple_pure. intros Hnew.
  eapply triple_bind; [by apply (keeps_set_item s0)|]. intros ?.
  eapply triple_bind; [apply (keeps_index s0)|]. intros sem.
  eapply triple_bind; [by apply (keeps_set_item s0)|]. intros ?.
  eapply triple_bind; [apply (keeps_index s0)|]. intros kw.
  eapply triple_bind; [by apply (keeps_set_item s0)|]. intros ?.
  apply triple_ret. intros s Hs. split; [done|].
  apply Forall_app. split; [done|]. by constructor.
Qed.

Lemma find_relevant_chunks_new s0 q k :
  triple (frame s0) (find_relevant_chunks fl model_encode cosine q k)
         (fun rel s => frame s0 s /\ all_new s0 rel) (fun _ => False).
Proof.
  unfold find_relevant_chunks.
  eapply triple_try with (E' := frame s0).
  - eapply triple_bind; [apply (keeps_encode s0)|]. intros qe.
    eapply triple_bind; [apply triple_gets|]. intros ce.
    eapply triple_bind; [apply (keeps_cosine_similarity_row s0)|]. intros sims.
    eapply triple_bind; [apply (keeps_calculate_keyword_scores s0)|]. intros kws.
    eapply triple_bind.
    + eapply triple_weaken;
        [apply (triple_foldM (fun rel s => frame s0 s /\ all_new s0 rel) (frame s0))|..].
      * intros rel entry. apply triple_pure. intros Hrel.
        by apply select_chunk_new.
      * intros s Hs. split; [done | constructor].
      * intros rel s H. exact H.
      * done.
    + intros rel.
      eapply triple_bind with (R := fun _ s => frame s0 s /\ all_new s0 rel).
      * intros s [Hs Hrel]. split; [by apply frame_events | done].
      * intros ?. by apply triple_ret.
  - intros e.
    eapply triple_bind; [apply (emit_frame s0)|]. intros ?.
    apply triple_ret. intros s Hs. split; [done | constructor].
Qed.

Lemma keeps_generate_response s0 q rel : keeps s0 (generate_response q rel).
Proof.
  unfold generate_response.
  eapply triple_try with (E' := frame s0).
  - eapply triple_bind.
    + apply (triple_foldM (fun _ => frame s0)). intros parts entry.
      eapply triple_bind; [apply (keeps_get_text s0)|]. intros t.
      by apply triple_ret.
    + intros parts. by apply triple_ret.
  - intros e.
    eapply triple_bind; [apply (keeps_emit s0)|]. intros ?. by apply triple_ret.
Qed.

Lemma keeps_ask s0 q b c : keeps s0 (ask qa_model q b c).
Proof.
  unfold ask.
  eapply triple_bind; [apply (keeps_get_text s0)|]. intros t.
  eapply triple_bind; [apply (keeps_emit s0)|]. intros ?.
  eapply triple_bind; [apply triple_lift|]. intros r. by apply triple_ret.
Qed.

Lemma keeps_query s0 q k :
  triple (frame s0) (query fl model_encode cosine summarizer qa_model q k)
         (fun _ => frame s0) (fun _ => False).
Proof.
  unfold query.
  eapply triple_try with (E' := frame s0).
  - eapply triple_bind; [apply triple_gets|]. intros chunks.
    eapply triple_bind; [apply triple_gets|]. intros ce.
    destruct (_ || _); [by apply triple_ret|].
    destruct (summary_requested q).
    + eapply triple_bind; [apply triple_mapM, (keeps_get_text s0)|]. intros texts.
      eapply triple_bind; [apply (keeps_emit s0)|]. intros ?.
      eapply triple_bind; [apply triple_lift|]. intros summary.
      by apply triple_ret.
    + eapply triple_bind.
      { eapply triple_weaken; [apply (find_relevant_chunks_new s0)|..].
        - done.
        - intros rel s [Hs _]. exact Hs.
        - done. }
      intros rel. destruct (bool_decide _); [by apply triple_ret|].
      eapply triple_bind.
      { apply (triple_foldM (fun _ => frame s0)). intros b c. apply keeps_ask. }
      intros b. destruct (falls_back fl b); [|by apply triple_ret].
      eapply triple_bind; [apply (keeps_generate_response s0)|]. intros fb.
      by apply triple_ret.
  - intros e.
    eapply triple_bind; [apply (emit_frame s0)|]. intros ?. by apply triple_ret.
Qed.

(** C9: a query leaves the document session as it found it. The list
    of stored passages and the embeddings are the same after the call,
    every stored dictionary is still in the store with the same items,
    and the chunks that the retriever hands to the answer selection
    are new objects of the store, none of them a stored passage. *)
Theorem query_leaves_session (q : string) (k : Z) (s : state vec) :
  frame s (query fl model_encode cosine summarizer qa_model q k s).2
  /\ exists rel s1,
       find_relevant_chunks fl model_encode cosine q k s = (Ok rel, s1)
       /\ frame s s1
       /\ Forall (fun c => c ∉ dom (heap s)) rel.
Proof.
  split.
  - pose proof (keeps_query s q k s (frame_refl s)) as H.
    by destruct (query _ _ _ _ _ _ _) as [[a|e] s'].
  - pose proof (find_relevant_chunks_new s q k s (frame_refl s)) as H.
    destruct (find_relevant_chunks _ _ _ _ _) as [[rel|e] s1]; [|done].
    by exists rel, s1.
Qed.

End Frame.
End FrameFacts.

(** ** Running the engine *)

Module RunFacts.
Import PyStr Engine Design MonadFacts StripFacts.

Lemma length_str l : String.length (str l) = length l.
Proof. induction l as [|c l IH]; simpl; [done | by f_equal]. Qed.

Lemma len_str l : len (str l) = Z.of_nat (length l).
Proof. unfold len. by rewrite length_str. Qed.

Lemma slice_list_take {A} (l : list A) (k : Z) :
  0 <= k -> slice_list l 0 k = take (Z.to_nat k) l.
Proof.
  intros Hk. unfold slice_list, clamp_index.
  replace (0 <? 0) with false by done.
  destruct (Z.ltb_spec k 0); [lia|].
  rewrite (Z.min_l 0) by lia. simpl. rewrite drop_0.
  destruct (Z.le_ge_cases k (Z.of_nat (length l))).
  - rewrite Z.min_l by lia. f_equal. lia.
  - rewrite Z.min_r by lia. rewrite !take_ge by lia. done.
Qed.

Lemma prefix_to_chars s k :
  0 <= k -> chars (prefix_to s k) = take (Z.to_nat k) (chars s).
Proof.
  intros Hk. unfold prefix_to, slice. by rewrite chars_str, slice_list_take.
Qed.

Lemma prefix_to_len s k : 0 <= k -> len (prefix_to s k) <= k.
Proof.
  intros Hk. unfold prefix_to, slice.
  rewrite len_str, slice_list_take by done.
  rewrite length_take. lia.
Qed.

Section Run.
Context {vec : Type}.
Variable fl : Q -> Q.
Variable model_encode : list string -> result (list vec).
Variable cosine : vec -> vec -> Q.
Variable summarizer : string -> nat -> nat -> bool -> result string.
Variable qa_model : string -> string -> result qa_result.
Implicit Types s : state vec.

Lemma get_text_run s c t :
  text <$> heap s !! c = Some t -> get_text c s = (Ok t, s).
Proof.
  unfold get_text, bind, deref, ret. destruct (heap s !! c); simpl; [|done].
  by intros [= ->].
Qed.

Lemma mapM_get_text_run s cs ts :
  texts_of (heap s) cs ts -> mapM get_text cs s = (Ok ts, s).
Proof.
  induction 1 as [|c t cs ts Hc _ IH]; simpl; [done|].
  rewrite (bind_ok _ _ _ _ _ (get_text_run _ _ _ Hc)).
  by rewrite (bind_ok _ _ _ _ _ IH).
Qed.

Lemma loaded_guard s :
  loaded s ->
  bool_decide (document_chunks s = []) || bool_decide (chunk_embeddings s = None)
  = false.
Proof.
  intros [H1 H2].
  rewrite (bool_decide_eq_false_2 _ H1), (bool_decide_eq_false_2 _ H2). done.
Qed.

Lemma summary_requested_terms q :
  contains "summarize" (lower q) = true \/
  contains "summary" (lower q) = true \/
  contains "overview" (lower q) = true ->
  summary_requested q = true.
Proof.
  unfold summary_requested, trigger_terms. simpl.
  intros [-> | [-> | ->]]; by rewrite ?orb_true_r.
Qed.

(** The query operation never raises. *)
Lemma query_returns q k s :
  exists response used s',
    query fl model_encode cosine summarizer qa_model q k s
    = (Ok (response, used), s').
Proof.
  unfold query, try_except.
  match goal with |- context [match ?b s with _ => _ end] => destruct (b s) as [[[r n]|e] s'] end.
  - by eauto.
  - unfold bind, log_error, emit, modify, ret. by eauto.
Qed.

Lemma find_relevant_chunks_encode_fails q k s e :
  model_encode [q] = Raise e ->
  (find_relevant_chunks fl model_encode cosine q k s).1 = Ok [].
Proof.
  intros He. unfold find_relevant_chunks, try_except, encode.
  unfold bind at 1. unfold bind at 1.
  unfold emit, modify, lift. rewrite He. done.
Qed.

Lemma ask_run_ok q b c s t r :
  text <$> heap s !! c = Some t ->
  qa_model q (prefix_to t 1000) = Ok r ->
  ask qa_model q b c s
  = (Ok (best_update b (prefix_to t 1000) r),
     with_events (events s ++ [QACall q (prefix_to t 1000)]) s).
Proof.
  intros Ht Hr. unfold ask.
  rewrite (bind_ok _ _ _ _ _ (get_text_run _ _ _ Ht)).
  unfold bind, emit, modify, lift, ret. by rewrite Hr.
Qed.

Lemma ask_run_raise q b c s t e :
  text <$> heap s !! c = Some t ->
  qa_model q (prefix_to t 1000) = Raise e ->
  ask qa_model q b c s
  = (Raise e, with_events (events s ++ [QACall q (prefix_to t 1000)]) s).
Proof.
  intros Ht Hr. unfold ask.
  rewrite (bind_ok _ _ _ _ _ (get_text_run _ _ _ Ht)).
  unfold bind, emit, modify, lift, ret. by rewrite Hr.
Qed.

Lemma foldM_ask_run q : forall rel ts rs b s,
  texts_of (heap s) rel ts ->
  Forall2 (answers qa_model q) ts rs ->
  foldM (ask qa_model q) b rel s
  = (Ok (scan q b ts rs), with_events (events s ++ qa_events q ts) s).
Proof.
  induction rel as [|c rel IH]; intros ts rs b s Ht Hr.
  - inversion Ht; subst. inversion Hr; subst. simpl.
    unfold ret, qa_events. simpl. rewrite app_nil_r. by destruct s.
  - inversion Ht as [|? t ? ts' Hc Hts]; subst.
    inversion Hr as [|? r ? rs' Hrt Hrs]; subst. simpl.
    rewrite (bind_ok _ _ _ _ _ (ask_run_ok q b c s t r Hc Hrt)).
    rewrite (IH ts' rs'); [|done..].
    unfold scan, qa_events. simpl. by rewrite <- app_assoc.
Qed.

Lemma foldM_ask_raise q e : forall ts1 rel t ts2 b s,
  texts_of (heap s) rel (ts1 ++ t :: ts2) ->
  Forall (fun t' => exists r, answers qa_model q t' r) ts1 ->
  qa_model q (prefix_to t 1000) = Raise e ->
  exists s', foldM (ask qa_model q) b rel s = (Raise e, s').
Proof.
  induction ts1 as [|t1 ts1 IH]; intros rel t ts2 b s Ht Hok He.
  - inversion Ht as [|c ? rel' ? Hc Hts]; subst. simpl.
    rewrite (bind_raise _ _ _ _ _ (ask_run_raise q b c s t e Hc He)). eauto.
  - inversion Ht as [|c ? rel' ? Hc Hts]; subst.
    inversion Hok as [|? ? [r Hr] Hok']; subst. simpl.
    rewrite (bind_ok _ _ _ _ _ (ask_run_ok q b c s t1 r Hc Hr)).
    by apply (IH rel' t ts2).
Qed.

(** C7: when the lowercased query contains "summarize", "summary" or
    "overview" and a document is loaded, the query calls the summarizer
    once, on the first 3000 characters at most of the texts of all the
    passages, in their order, joined by a space, with [max_length = 180],
    [min_length = 60] and no sampling; it answers with the summary behind
    the summary marker and with 1 passage used. The summarizer call is the
    only event of the query: no embedding call, so no retrieval, and no
    question-answering call. *)
Theorem query_summary_path (q : string) (k : Z) (s : state vec)
    (texts : list string) (summary : string) :
  loaded s ->
  contains "summarize" (lower q) = true \/
  contains "summary" (lower q) = true \/
  contains "overview" (lower q) = true ->
  texts_of (heap s) (document_chunks s) texts ->
  summarizer (prefix_to (join " " texts) 3000) 180 60 false = Ok summary ->
  query fl model_encode cosine summarizer qa_model q k s
  = (Ok (summary_marker +:+ summary, 1%nat),
     with_events
       (events s ++ [SummarizerCall (prefix_to (join " " texts) 3000) 180 60 false]) s)
  /\ chars (prefix_to (join " " texts) 3000) = take 3000 (chars (join " " texts))
  /\ len (prefix_to (join " " texts) 3000) <= 3000.
Proof.
  intros Hl Hq Ht Hs. split; [|split].
  - unfold query. apply try_ok.
    unfold bind at 1. unfold bind at 1. unfold gets.
    rewrite (loaded_guard s Hl), (summary_requested_terms q Hq).
    rewrite (bind_ok _ _ _ _ _ (mapM_get_text_run _ _ _ Ht)).
    unfold bind, emit, modify, lift, ret. by rewrite Hs.
  - by apply prefix_to_chars.
  - by apply prefix_to_len.
Qed.

(** C8 (amended): the query operation never raises. With a document
    loaded, a failure of the summarizer or of a question-answering call
    comes back as the response "Error processing your query: " followed
    by the message, with 0 passages used; a failure of the embedding
    call is absorbed by the retriever, which returns no chunk, and the
    query answers with the fixed message that no relevant information
    was found, with 0 passages used. *)
Theorem query_absorbs_failures (q : string) (k : Z) (s : state vec) :
  (exists response used s',
     query fl model_encode cosine summarizer qa_model q k s
     = (Ok (response, used), s'))
  /\ (forall texts e,
        loaded s -> summary_requested q = true ->
        texts_of (heap s) (document_chunks s) texts ->
        summarizer (prefix_to (join " " texts) 3000) 180 60 false = Raise e ->
        (query fl model_encode cosine summarizer qa_model q k s).1
        = Ok (error_prefix +:+ e, 0%nat))
  /\ (forall e,
        loaded s -> summary_requested q = false ->
        model_encode [q] = Raise e ->
        (query fl model_encode cosine summarizer qa_model q k s).1
        = Ok (no_relevant_message, 0%nat))
  /\ (forall rel s1 ts1 t ts2 e,
        loaded s -> summary_requested q = false ->
        find_relevant_chunks fl model_encode cosine q k s = (Ok rel, s1) ->
        texts_of (heap s1) rel (ts1 ++ t :: ts2) ->
        Forall (fun t' => exists r, qa_model q (prefix_to t' 1000) = Ok r) ts1 ->
        qa_model q (prefix_to t 1000) = Raise e ->
        (query fl model_encode cosine summarizer qa_model q k s).1
        = Ok (error_prefix +:+ e, 0%nat)).
Proof.
  split; [apply query_returns|]. split; [|split].
  - intros texts e Hl Hq Ht Hs. unfold query.
    erewrite try_raise; [by unfold bind, log_error, emit, modify, ret|].
    unfold bind at 1. unfold bind at 1. unfold gets.
    rewrite (loaded_guard s Hl), Hq.
    rewrite (bind_ok _ _ _ _ _ (mapM_get_text_run _ _ _ Ht)).
    unfold bind, emit, modify, lift, ret. by rewrite Hs.
  - intros e Hl Hq He. unfold query.
    pose proof (find_relevant_chunks_encode_fails q k s e He) as Hf.
    destruct (find_relevant_chunks fl model_encode cosine q k s) as [r s1] eqn:E.
    simpl in Hf. subst r.
    erewrite try_ok; [done|].
    unfold bind at 1. unfold bind at 1. unfold gets.
    rewrite (loaded_guard s Hl), Hq.
    by rewrite (bind_ok _ _ _ _ _ E).
  - intros rel s1 ts1 t ts2 e Hl Hq Hf Ht Hok He. unfold query.
    destruct (foldM_ask_raise q e ts1 rel t ts2 best_init s1 Ht Hok He) as [s2 Hr].
    erewrite try_raise; [by unfold bind, log_error, emit, modify, ret|].
    unfold bind at 1. unfold bind at 1. unfold gets.
    rewrite (loaded_guard s Hl), Hq.
    rewrite (bind_ok _ _ _ _ _ Hf).
    assert (rel <> []) as Hne.
    { intros ->. inversion Ht. by destruct ts1. }
    rewrite (bool_decide_eq_false_2 _ Hne).
    by rewrite (bind_raise _ _ _ _ _ Hr).
Qed.

End Run.
End RunFacts.

(** ** The answer selection *)

Module AnswerFacts.
Import PyStr Engine Design MonadFacts StripFacts RunFacts.

Lemma Qltb_lt x y : Qltb x y = true <-> (x < y)%Q.
Proof.
  unfold Qltb. rewrite negb_true_iff, <- not_true_iff_false, Qle_bool_iff.
  split; [apply Qnot_le_lt | apply Qlt_not_le].
Qed.

Lemma Qltb_ge x y : Qltb x y = false <-> (y <= x)%Q.
Proof.
  unfold Qltb. rewrite negb_false_iff. apply Qle_bool_iff.
Qed.

Lemma best_result_score_cons r rs top top' :
  best_result rs = Some top' ->
  best_result (r :: rs) = Some top ->
  top = (if Qltb (score r) (score top') then top' else r).
Proof. simpl. intros ->. by intros [= <-]. Qed.

(** The loop of [query] ends on the result of the highest confidence,
    the first of them, when that confidence is above the one it starts
    with, and on what it starts with otherwise. *)
Lemma scan_best q : forall rs ts b top,
  length ts = length rs ->
  best_result rs = Some top ->
  let b' := scan q b ts rs in
  if Qltb (best_score b) (score top)
  then best_answer b' = answer top /\ best_score b' = score top
  else b' = b.
Proof.
  induction rs as [|r rs IH]; intros ts b top Hlen Htop; [done|].
  destruct ts as [|t ts]; [done|]. simpl in Hlen.
  injection Hlen as Hlen.
  unfold scan. simpl. fold (scan q (best_update b (prefix_to t 1000) r) ts rs).
  destruct (best_result rs) as [top'|] eqn:Hrs.
  - pose proof (best_result_score_cons r rs top top' Hrs Htop) as ->.
    specialize (IH ts (best_update b (prefix_to t 1000) r) top' Hlen eq_refl).
    simpl in IH. unfold best_update in *.
    destruct (Qltb (best_score b) (score r)) eqn:E1;
      destruct (Qltb (score r) (score top')) eqn:E2; simpl in *;
      rewrite ?E2 in IH.
    + assert (Qltb (best_score b) (score top') = true) as ->; [|done].
      apply Qltb_lt. apply Qltb_lt in E1, E2. lra.
    + by rewrite E1, IH.
    + exact IH.
    + rewrite E1.
      assert (Qltb (best_score b) (score top') = false) as E3.
      { apply Qltb_ge. apply Qltb_ge in E1, E2. lra. }
      by rewrite E3 in IH.
  - destruct rs; [|simpl in Hrs; by destruct (best_result rs)].
    destruct ts; [|done].
    simpl in Htop. injection Htop as <-. simpl.
    unfold best_update. by destruct (Qltb (best_score b) (score r)).
Qed.

Lemma falls_back_spec fl q ts rs top :
  (-1 < fl 0.3)%Q ->
  length ts = length rs ->
  best_result rs = Some top ->
  let b := scan q best_init ts rs in
  (falls_back fl b = true <-> must_fall_back fl top)
  /\ (falls_back fl b = false -> best_answer b = answer top).
Proof.
  intros Hfl Hlen Htop.
  pose proof (scan_best q rs ts best_init top Hlen Htop) as H.
  cbv zeta in *.
  destruct (Qltb (best_score best_init) (score top)) eqn:E.
  - destruct H as [Ha Hs]. unfold falls_back, must_fall_back.
    rewrite Ha, Hs. split; [|done].
    rewrite !orb_true_iff, Qltb_lt, String.eqb_eq, Nat.ltb_lt.
    split.
    + intros [[H|H]|H]; [by left | | by right; right].
      right; left. by rewrite H.
    + intros [H|[H|H]]; [by left; left | | by right].
      right. rewrite H. simpl. lia.
  - rewrite H. split.
    + split; [|by intros _; unfold falls_back; rewrite orb_true_r].
      intros _. left. apply Qltb_ge in E. simpl in E. lra.
    + unfold falls_back. simpl. by rewrite orb_true_r.
Qed.

(** The response of the fallback, in the two ways of writing it. *)
Lemma section_parts_excerpt i t :
  section_parts i t
  = [ "--- Relevant Section " +:+ pretty (S i) +:+ " ---"; excerpt t; ""%string ].
Proof. unfold section_parts, excerpt. by rewrite Nat.add_1_r. Qed.

Lemma assemble_excerpt q texts :
  assemble (["Based on the document content:" +:+ nl]
              ++ concat (imap (fun i t => section_parts i t) texts)
              ++ summary_parts q (length texts))
  = excerpt_response q texts.
Proof.
  unfold assemble, excerpt_response, excerpt_lines, summary_parts.
  assert (concat (imap (fun i t => section_parts i t) texts)
          = concat (imap (fun i t =>
                            [ "--- Relevant Section " +:+ pretty (S i) +:+ " ---";
                              excerpt t; ""%string ]) texts)) as ->.
  { f_equal. apply imap_ext. intros i t _. apply section_parts_excerpt. }
  assert ((1 <? length texts)%nat = (2 <=? length texts)%nat) as ->.
  { destruct (Nat.ltb_spec 1 (length texts)), (Nat.leb_spec 2 (length texts));
      try done; lia. }
  cbv zeta. cbn [app].
  match goal with |- context [join nl ?l] => set (response := join nl l) end.
  by destruct (Z.ltb_spec 2000 (len response)), (Z.leb_spec (len response) 2000);
    try lia.
Qed.

Section Selection.
Context {vec : Type}.
Variable fl : Q -> Q.
Variable model_encode : list string -> result (list vec).
Variable cosine : vec -> vec -> Q.
Variable summarizer : string -> nat -> nat -> bool -> result string.
Variable qa_model : string -> string -> result qa_result.
Implicit Types s : state vec.

Lemma generate_response_returns q rel s :
  exists fallback s', generate_response q rel s = (Ok fallback, s').
Proof.
  unfold generate_response, try_except.
  match goal with |- context [match ?b s with _ => _ end] => destruct (b s) as [[r|e] s'] end.
  - by eauto.
  - unfold bind, log_error, emit, modify, ret. by eauto.
Qed.

Lemma foldM_sections_run : forall (rel : list positive) texts (n : nat) parts s,
  texts_of (heap s) rel texts ->
  foldM (fun parts (entry : nat * positive) =>
           bind (get_text entry.2)
                (fun chunk_text => ret (parts ++ section_parts entry.1 chunk_text)))
        parts (imap (fun i c => ((n + i)%nat, c)) rel) s
  = (Ok (parts ++ concat (imap (fun i t => section_parts (n + i)%nat t) texts)), s).
Proof.
  intros rel texts n parts s H. revert n parts.
  induction H as [|c t rel texts Hc _ IH]; intros n parts.
  - simpl. by rewrite app_nil_r.
  - rewrite !imap_cons. cbn [foldM].
    assert (bind (get_text ((n + 0)%nat, c).2)
              (fun chunk_text =>
                 ret (parts ++ section_parts ((n + 0)%nat, c).1 chunk_text)) s
            = (Ok (parts ++ section_parts (n + 0)%nat t), s)) as H1.
    { by rewrite (bind_ok _ _ _ _ _ (get_text_run s c t Hc)). }
    rewrite (bind_ok _ _ _ _ _ H1).
    rewrite (imap_ext _ (fun i c => ((S n + i)%nat, c)) rel)
      by (intros; simpl; f_equal; lia).
    rewrite IH, concat_cons, <- app_assoc. cbv beta.
    rewrite (imap_ext ((fun i t => section_parts (n + i) t) ∘ S)
               (fun i t => section_parts (S n + i) t) texts); [done|].
    intros i x _. unfold compose. f_equal. lia.
Qed.

(** On chunks that are in the store, [_generate_response] gives the
    excerpt response and leaves the state as it is. *)
Lemma generate_response_run q rel texts s :
  texts_of (heap s) rel texts ->
  generate_response q rel s = (Ok (excerpt_response q texts), s).
Proof.
  intros Ht. unfold generate_response. apply try_ok.
  rewrite (bind_ok _ _ _ _ _
             (foldM_sections_run rel texts 0
                ["Based on the document content:" +:+ nl] s Ht)).
  unfold ret. rewrite (Forall2_length _ _ _ Ht).
  f_equal. f_equal. rewrite <- app_assoc. apply assemble_excerpt.
Qed.

(** C6: on a loaded document, for a query that asks for no summary
    and retrieves at least one passage, each passage is put to the
    question-answering service; with [top] the result of the highest
    confidence (the first of them), the query gives the excerpt
    response for the retrieved passages (the header, a labelled
    excerpt of each passage, the closing note, cut at 2000 characters)
    and the number of retrieved passages when that confidence is
    below 0.3, or the answer is blank, or it has fewer than 3
    characters once trimmed; otherwise it gives the trimmed answer
    behind the answer marker and the number of passages examined,
    which is the number retrieved. The threshold is the number that
    the literal [0.3] stands for in the format of the scores, a
    number above the -1 that the loop starts from. *)
Theorem query_answer_selection (q : string) (k : Z) (s s1 : state vec)
    (rel : list positive) (texts : list string) (results : list qa_result)
    (top : qa_result) :
  (-1 < fl 0.3)%Q ->
  loaded s ->
  summary_requested q = false ->
  find_relevant_chunks fl model_encode cosine q k s = (Ok rel, s1) ->
  texts_of (heap s1) rel texts ->
  Forall2 (answers qa_model q) texts results ->
  best_result results = Some top ->
  let s2 := with_events (events s1 ++ qa_events q texts) s1 in
  length (qa_events q texts) = length rel
  /\ (must_fall_back fl top ->
      query fl model_encode cosine summarizer qa_model q k s
      = (Ok (excerpt_response q texts, length rel), s2))
  /\ (~ must_fall_back fl top ->
      query fl model_encode cosine summarizer qa_model q k s
      = (Ok (answer_marker +:+ strip (answer top), length rel), s2)).
Proof.
  intros Hfl Hl Hq Hf Ht Hr Htop s2.
  assert (length texts = length results) as Hlen by by eapply Forall2_length.
  assert (length rel = length texts) as Hlen' by by eapply Forall2_length.
  assert (rel <> []) as Hne.
  { intros ->. destruct texts; [|done]. destruct results; [|done]. done. }
  destruct (falls_back_spec fl q texts results top Hfl Hlen Htop) as [Hfb Hans].
  split; [unfold qa_events; by rewrite length_fmap|].
  split.
  - intros Hm. apply Hfb in Hm.
    assert (generate_response q rel s2 = (Ok (excerpt_response q texts), s2)) as Hg.
    { by apply generate_response_run. }
    unfold query. apply try_ok.
    unfold bind at 1. unfold bind at 1. unfold gets.
    rewrite (loaded_guard s Hl), Hq.
    rewrite (bind_ok _ _ _ _ _ Hf).
    rewrite (bool_decide_eq_false_2 _ Hne).
    rewrite (bind_ok _ _ _ _ _ (foldM_ask_run qa_model q rel texts results best_init s1 Ht Hr)).
    rewrite Hm. by rewrite (bind_ok _ _ _ _ _ Hg).
  - intros Hm.
    assert (falls_back fl (scan q best_init texts results) = false) as Hfalse.
    { apply not_true_is_false. intros E. by apply Hm, Hfb. }
    unfold query. apply try_ok.
    unfold bind at 1. unfold bind at 1. unfold gets.
    rewrite (loaded_guard s Hl), Hq.
    rewrite (bind_ok _ _ _ _ _ Hf).
    rewrite (bool_decide_eq_false_2 _ Hne).
    rewrite (bind_ok _ _ _ _ _ (foldM_ask_run qa_model q rel texts results best_init s1 Ht Hr)).
    rewrite Hfalse. by rewrite (Hans Hfalse).
Qed.

End Selection.
End AnswerFacts.

(** ** The keyword score *)

Module ScoreFacts.
Import PyStr Engine Design MonadFacts RunFacts AnswerFacts.

Lemma py_min_Qmin x y : py_min x y = Qmin x y.
Proof.
  unfold py_min, Qmin, GenericMinMax.gmin.
  destruct (x ?= y)%Q eqn:C.
  - apply Qeq_alt in C.
    assert (Qltb y x = false) as ->; [|done]. apply Qltb_ge. lra.
  - apply Qlt_alt in C.
    assert (Qltb y x = false) as ->; [|done]. apply Qltb_ge. lra.
  - apply Qgt_alt in C.
    assert (Qltb y x = true) as ->; [|done]. by apply Qltb_lt.
Qed.

Lemma filter_list_to_set (P : string -> Prop) `{!forall x, Decision (P x)}
    (l : list string) :
  filter P (list_to_set l : gset string) = list_to_set (filter P l).
Proof.
  apply set_eq. intros x.
  rewrite elem_of_filter, !elem_of_list_to_set, list_elem_of_filter. done.
Qed.

Lemma query_words_tokens q :
  query_words q = list_to_set (filter long (word_tokens q)).
Proof. unfold query_words, word_set. apply filter_list_to_set. Qed.

Lemma chunk_keyword_score_spec fl q p :
  query_words q <> ∅ ->
  chunk_keyword_score fl q (query_words q) p = keyword_score fl q p.
Proof.
  intros Hne. unfold chunk_keyword_score, keyword_score.
  rewrite <- query_words_tokens.
  destruct (decide (query_words q = ∅)); [done|].
  by rewrite py_min_Qmin.
Qed.

Lemma keyword_score_no_token fl q p :
  query_words q = ∅ -> keyword_score fl q p = 0%Q.
Proof.
  intros He. unfold keyword_score. rewrite <- query_words_tokens.
  by destruct (decide (query_words q = ∅)).
Qed.

Lemma no_long_token q :
  Forall (fun w => (String.length w <= 2)%nat) (word_tokens q) ->
  query_words q = ∅.
Proof.
  intros H. rewrite query_words_tokens.
  replace (filter long (word_tokens q)) with (@nil string); [done|].
  symmetry. induction H as [|w l Hw _ IH]; [done|].
  rewrite filter_cons. destruct (decide (long w)) as [Hl|_]; [|done].
  unfold long in Hl. lia.
Qed.

Section Scores.
Context {vec : Type}.
Variable fl : Q -> Q.
Implicit Types s : state vec.

Lemma mapM_score_run s (f : string -> Q) cs ts :
  texts_of (heap s) cs ts ->
  mapM (fun c => bind (get_text c) (fun t => ret (f t))) cs s
  = (Ok (f <$> ts), s).
Proof.
  induction 1 as [|c t cs ts Hc _ IH]; simpl; [done|].
  unfold bind at 1. unfold bind at 1.
  rewrite (get_text_run _ _ _ Hc). unfold ret at 1.
  by rewrite (bind_ok _ _ _ _ _ IH).
Qed.

(** The keyword scores of a session whose passages have the texts
    [texts]. *)
Lemma calculate_keyword_scores_run (q : string) (s : state vec)
    (texts : list string) :
  texts_of (heap s) (document_chunks s) texts ->
  calculate_keyword_scores fl q s = (Ok (keyword_score fl q <$> texts), s).
Proof.
  intros Ht. unfold calculate_keyword_scores.
  unfold bind, gets.
  destruct (decide (query_words q = ∅)) as [He|Hne].
  - unfold ret. do 2 f_equal.
    rewrite (Forall2_length _ _ _ Ht).
    clear Ht. induction texts as [|t texts IH]; simpl; [done|].
    by rewrite IH, keyword_score_no_token.
  - change (mapM (fun c => bind (get_text c)
                    (fun t => ret (chunk_keyword_score fl q (query_words q) t)))
                 (document_chunks s) s
            = (Ok (keyword_score fl q <$> texts), s)).
    rewrite (mapM_score_run _ _ _ _ Ht). do 2 f_equal.
    apply list_fmap_ext. intros _ t _. by apply chunk_keyword_score_spec.
Qed.

Lemma keyword_score_capped q p : (keyword_score fl q p <= 1)%Q.
Proof.
  unfold keyword_score. destruct (decide _); [done|]. apply Q.le_min_r.
Qed.

(** C3 (amended): the keyword scores are, passage by passage, 0 when
    the query has no token of more than 2 characters (no bonus then),
    and otherwise the Jaccard similarity of the set of the tokens of
    more than 2 characters of the query and the set of all the tokens
    of the passage, of any length, plus 0.3 when the lowercased query
    occurs in the lowercased passage, the sum being capped at 1. A
    token is a run of word characters (letters, digits, underscore) of
    the lowercased text, as the regular expression of the source finds
    them. The quotient, the bonus and the sum are numbers of the
    floating-point format, whatever its rounding [fl] is; with the
    identity for [fl] they are the exact ones. *)
Theorem calculate_keyword_scores_spec (q : string) (s : state vec)
    (texts : list string) :
  texts_of (heap s) (document_chunks s) texts ->
  calculate_keyword_scores fl q s = (Ok (keyword_score fl q <$> texts), s)
  /\ Forall (fun v => (v <= 1)%Q) (keyword_score fl q <$> texts)
  /\ (filter long (word_tokens q) = [] ->
      keyword_score fl q <$> texts = replicate (length texts) 0%Q).
Proof.
  intros Ht. split; [by apply calculate_keyword_scores_run|]. split.
  - apply Forall_fmap, Forall_forall. intros t _. apply keyword_score_capped.
  - intros Hq. clear Ht. induction texts as [|t texts IH]; [done|].
    rewrite fmap_cons, IH. simpl. f_equal. unfold keyword_score. rewrite Hq.
    by destruct (decide _).
Qed.

(** Without a long token in the query, every keyword score is 0,
    whatever the passages. *)
Lemma calculate_keyword_scores_zero q s :
  query_words q = ∅ ->
  calculate_keyword_scores fl q s
  = (Ok (replicate (length (document_chunks s)) 0%Q), s).
Proof.
  intros He. unfold calculate_keyword_scores, bind, gets.
  by destruct (decide (query_words q = ∅)).
Qed.

End Scores.
End ScoreFacts.

(** ** Sorting and selection *)

Module SortFacts.
Import PyStr Engine Design AnswerFacts.

Lemma elem_of_insert_desc x l z : z ∈ insert_desc x l <-> z = x \/ z ∈ l.
Proof.
  induction l as [|y l IH]; simpl.
  - rewrite list_elem_of_singleton, elem_of_nil. tauto.
  - destruct (Qltb x.1 y.1).
    + rewrite !elem_of_cons, IH. tauto.
    + rewrite !elem_of_cons. tauto.
Qed.

Lemma elem_of_sort_desc l z : z ∈ sort_desc l <-> z ∈ l.
Proof.
  induction l as [|x l IH]; simpl; [done|].
  rewrite elem_of_insert_desc, elem_of_cons, IH. done.
Qed.

(** The sort keeps the entries: it only changes their order. *)
Lemma insert_desc_perm x l : insert_desc x l ≡ₚ x :: l.
Proof.
  induction l as [|y l IH]; simpl; [done|].
  destruct (Qltb x.1 y.1); [|done].
  rewrite IH. apply Permutation_swap.
Qed.

Lemma sort_desc_perm l : sort_desc l ≡ₚ l.
Proof.
  induction l as [|x l IH]; simpl; [done|].
  by rewrite insert_desc_perm, IH.
Qed.

(** An entry of a lower index and of a score that is not smaller
    ranks before. *)
Lemma before_intro (x z : Q * nat) :
  (z.1 <= x.1)%Q -> (x.2 < z.2)%nat -> before x z.
Proof.
  intros Hle Hlt. destruct (Qle_lt_or_eq _ _ Hle) as [H|H].
  - by left.
  - right. split; [by symmetry | done].
Qed.

Lemma before_score (y z : Q * nat) : before y z -> (z.1 <= y.1)%Q.
Proof. intros [H|[H _]]; [by apply Qlt_le_weak | rewrite H; apply Qle_refl]. Qed.

Lemma insert_desc_sorted x l :
  StronglySorted before l ->
  Forall (by_index x) l ->
  StronglySorted before (insert_desc x l).
Proof.
  induction 1 as [|y l Hl IH Hy]; intros Hx; simpl.
  - repeat constructor.
  - inversion Hx as [|? ? Hxy Hxl]; subst.
    destruct (Qltb x.1 y.1) eqn:E.
    + constructor; [by apply IH|].
      apply Forall_forall. intros z Hz.
      apply elem_of_insert_desc in Hz as [->|Hz].
      * left. by apply Qltb_lt.
      * by apply (proj1 (Forall_forall _ _) Hy).
    + apply Qltb_ge in E. constructor; [by constructor|].
      constructor; [by apply before_intro|].
      apply Forall_forall. intros z Hz.
      apply before_intro.
      * pose proof (before_score y z (proj1 (Forall_forall _ _) Hy z Hz)). lra.
      * by apply (proj1 (Forall_forall _ _) Hxl).
Qed.

(** The stable sort, on entries that come in the order of their
    indices, puts them by decreasing score and, for equal scores, by
    increasing index. *)
Lemma sort_desc_sorted l :
  StronglySorted by_index l -> StronglySorted before (sort_desc l).
Proof.
  induction 1 as [|x l Hl IH Hx]; simpl; [constructor|].
  apply insert_desc_sorted; [done|].
  rewrite Forall_forall in Hx.
  apply Forall_forall. intros z Hz. apply (proj1 (elem_of_sort_desc _ _)) in Hz.
  by apply Hx.
Qed.

Lemma StronglySorted_take {A} (R : relation A) n l :
  StronglySorted R l -> StronglySorted R (take n l).
Proof.
  intros H. revert n. induction H as [|x l Hl IH Hx]; intros [|n]; simpl;
    [constructor..|].
  constructor; [apply IH|].
  apply Forall_forall. intros z Hz.
  apply (proj1 (Forall_forall _ _) Hx).
  apply elem_of_take in Hz as (i & Hi & _). apply list_elem_of_lookup. eauto.
Qed.

Lemma StronglySorted_filter {A} (R : relation A) (P : A -> Prop)
    `{!forall x, Decision (P x)} l :
  StronglySorted R l -> StronglySorted R (filter P l).
Proof.
  induction 1 as [|x l Hl IH Hx]; [constructor|].
  rewrite filter_cons. destruct (decide (P x)); [|done].
  constructor; [done|].
  apply Forall_forall. intros z Hz. apply list_elem_of_filter in Hz as [_ Hz].
  by apply (proj1 (Forall_forall _ _) Hx).
Qed.

Section Selection.
Variable fl : Q -> Q.

Lemma combine_scores_lookup sims kws i e :
  combine_scores fl sims kws !! i = Some e <->
  exists sem kw, sims !! i = Some sem /\ kws !! i = Some kw /\
                 e = (combined_score fl sem kw, i).
Proof.
  unfold combine_scores. rewrite list_lookup_imap_Some. split.
  - intros ([sem kw] & Hz & ->). apply lookup_zip_Some in Hz as [? ?].
    by exists sem, kw.
  - intros (sem & kw & H1 & H2 & ->). exists (sem, kw). split; [|done].
    by apply lookup_zip_Some.
Qed.

Lemma indexed_sorted (l : list (Q * nat)) : forall n,
  (forall i e, l !! i = Some e -> e.2 = (n + i)%nat) ->
  StronglySorted by_index l.
Proof.
  induction l as [|x l IH]; intros n H; [constructor|].
  constructor.
  - apply (IH (S n)). intros i e He. rewrite (H (S i) e He). lia.
  - apply Forall_forall. intros z Hz.
    apply list_elem_of_lookup in Hz as [i Hi].
    unfold by_index. rewrite (H 0%nat x eq_refl), (H (S i) z Hi). lia.
Qed.

Lemma combine_scores_by_index sims kws :
  StronglySorted by_index (combine_scores fl sims kws).
Proof.
  apply (indexed_sorted _ 0). intros i e He.
  apply combine_scores_lookup in He as (sem & kw & _ & _ & ->). done.
Qed.

Lemma picked_sorted k sims kws : StronglySorted before (picked fl k sims kws).
Proof.
  unfold picked. apply StronglySorted_filter, StronglySorted_take.
  apply sort_desc_sorted, combine_scores_by_index.
Qed.

Lemma picked_length k sims kws :
  0 <= k -> Z.of_nat (length (picked fl k sims kws)) <= k.
Proof.
  intros Hk. unfold picked.
  pose proof (length_filter (fun e : Q * nat => Qltb (fl 0.1%Q) e.1)
    (take (Z.to_nat k) (sort_desc (combine_scores fl sims kws)))) as H.
  rewrite length_take in H. lia.
Qed.

Lemma picked_entry k sims kws e :
  e ∈ picked fl k sims kws ->
  (fl 0.1 < e.1)%Q /\
  exists sem kw, sims !! e.2 = Some sem /\ kws !! e.2 = Some kw /\
                 e.1 = combined_score fl sem kw.
Proof.
  unfold picked. intros He. apply list_elem_of_filter in He as [Hf He].
  split; [by apply Qltb_lt, Is_true_true|].
  apply elem_of_take in He as (j & Hj & _).
  assert (e ∈ sort_desc (combine_scores fl sims kws)) as He
    by (apply list_elem_of_lookup; eauto).
  apply (proj1 (elem_of_sort_desc _ _)) in He.
  apply list_elem_of_lookup in He as [i Hi].
  apply combine_scores_lookup in Hi as (sem & kw & H1 & H2 & ->).
  by exists sem, kw.
Qed.

Lemma picked_nil k sims kws :
  (forall i sem kw, sims !! i = Some sem -> kws !! i = Some kw ->
                    ~ (fl 0.1 < combined_score fl sem kw)%Q) ->
  picked fl k sims kws = [].
Proof.
  intros H. destruct (picked fl k sims kws) as [|e l] eqn:E; [done|].
  assert (e ∈ picked fl k sims kws) as He by (rewrite E; left).
  apply picked_entry in He as (Hf & sem & kw & H1 & H2 & H3).
  rewrite H3 in Hf. by destruct (H _ _ _ H1 H2).
Qed.

End Selection.

End SortFacts.

(** ** The retriever *)

Module RetrievalFacts.
Import PyStr Engine Design MonadFacts RunFacts AnswerFacts ScoreFacts SortFacts
       FrameFacts.

Section Retrieval.
Context {vec : Type}.
Variable fl : Q -> Q.
Variable model_encode : list string -> result (list vec).
Variable cosine : vec -> vec -> Q.
Implicit Types s : state vec.

Lemma retrieved_events s s1 sims kws l c e :
  retrieved fl s s1 sims kws c e -> retrieved fl s (with_events l s1) sims kws c e.
Proof. done. Qed.

(** One turn of the selection for an entry above the floor: a new
    object with the items of the stored passage and the three scores. *)
Lemma select_chunk_run s s' sims kws acc (e : Q * nat) c0 d sem kw :
  frame s s' ->
  document_chunks s !! e.2 = Some c0 ->
  heap s !! c0 = Some d ->
  sims !! e.2 = Some sem ->
  kws !! e.2 = Some kw ->
  Qltb (fl 0.1%Q) e.1 = true ->
  select_chunk fl sims kws acc e s'
  = (Ok (acc ++ [fresh (dom (heap s'))]),
     with_heap (<[fresh (dom (heap s')) := scored d e.1 sem kw]> (heap s')) s').
Proof.
  intros (Hc & _ & Hh) Hdoc Hd Hsem Hkw Hfloor.
  destruct e as [sc idx]. simpl in *.
  unfold select_chunk. rewrite Hfloor.
  unfold bind at 1. unfold gets. rewrite Hc.
  unfold bind at 1. unfold index at 1. rewrite Hdoc. unfold ret at 1.
  unfold bind at 1. unfold dict_copy, bind at 1, deref.
  rewrite (lookup_weaken _ _ _ _ Hd Hh).
  unfold bind, set_item, modify, index, ret. rewrite Hsem, Hkw. simpl.
  unfold with_heap. simpl. by rewrite !alter_insert_eq.
Qed.

Lemma retrieved_alloc s s' sims kws c e d' :
  retrieved fl s s' sims kws c e ->
  retrieved fl s (with_heap (<[fresh (dom (heap s')) := d']> (heap s')) s')
            sims kws c e.
Proof.
  intros (c0 & d & sem & kw & H1 & H2 & H3 & H4 & H5 & H6 & H7).
  exists c0, d, sem, kw. repeat split; try done. simpl.
  rewrite lookup_insert_ne; [done|].
  intros Heq. apply (is_fresh (dom (heap s'))). rewrite Heq.
  apply elem_of_dom. eauto.
Qed.

Lemma foldM_select_run s sims kws : forall top acc s' entries,
  frame s s' ->
  (forall e, e ∈ top ->
     exists c0 d sem kw,
       document_chunks s !! e.2 = Some c0 /\ heap s !! c0 = Some d /\
       sims !! e.2 = Some sem /\ kws !! e.2 = Some kw /\
       e.1 = combined_score fl sem kw) ->
  Forall2 (retrieved fl s s' sims kws) acc entries ->
  exists rel s'',
    foldM (select_chunk fl sims kws) acc top s' = (Ok rel, s'') /\
    frame s s'' /\
    events s'' = events s' /\
    Forall2 (retrieved fl s s'' sims kws) rel
            (entries ++ filter (fun e => Qltb (fl 0.1%Q) e.1) top).
Proof.
  induction top as [|e top IH]; intros acc s' entries Hf Htop Hacc.
  - exists acc, s'. simpl. rewrite app_nil_r. by split_and!.
  - simpl. rewrite filter_cons.
    destruct (Qltb (fl 0.1%Q) e.1) eqn:Hfloor.
    + destruct (Htop e) as (c0 & d & sem & kw & H1 & H2 & H3 & H4 & H5);
        [by left|].
      rewrite (bind_ok _ _ _ _ _
                 (select_chunk_run s s' sims kws acc e c0 d sem kw
                    Hf H1 H2 H3 H4 Hfloor)).
      destruct (frame_alloc s s' (scored d e.1 sem kw) Hf) as [Hf' Hnew].
      destruct (IH (acc ++ [fresh (dom (heap s'))])
                   (with_heap (<[fresh (dom (heap s')) := scored d e.1 sem kw]> (heap s')) s')
                   (entries ++ [e]))
        as (rel & s'' & Hrun & Hf'' & Hev & Hrel).
      * done.
      * intros e' He'. apply Htop. by right.
      * apply Forall2_app.
        -- eapply Forall2_impl; [exact Hacc|].
           intros c e' Hr. by apply retrieved_alloc.
        -- constructor; [|constructor].
           exists c0, d, sem, kw. repeat split; try done.
           ++ by apply Qltb_lt.
           ++ simpl. by rewrite lookup_insert_eq.
      * exists rel, s''. split_and!; try done.
        rewrite decide_True by done. by rewrite <- app_assoc in Hrel.
    + unfold select_chunk at 1. destruct e as [sc idx]. simpl in Hfloor.
      unfold bind at 1. rewrite Hfloor. unfold ret at 1.
      destruct (IH acc s' entries) as (rel & s'' & Hrun & Hf'' & Hev & Hrel);
        [done | | done |].
      * intros e' He'. apply Htop. by right.
      * exists rel, s''. by split_and!.
Qed.

Lemma stored_entry s texts sims kws (e : Q * nat) k :
  texts_of (heap s) (document_chunks s) texts ->
  length kws = length texts ->
  e ∈ take k (sort_desc (combine_scores fl sims kws)) ->
  exists c0 d sem kw,
    document_chunks s !! e.2 = Some c0 /\ heap s !! c0 = Some d /\
    sims !! e.2 = Some sem /\ kws !! e.2 = Some kw /\
    e.1 = combined_score fl sem kw.
Proof.
  intros Ht Hlen He.
  apply elem_of_take in He as (j & Hj & _).
  assert (e ∈ sort_desc (combine_scores fl sims kws)) as He
    by (apply list_elem_of_lookup; eauto).
  apply (proj1 (elem_of_sort_desc _ _)) in He.
  apply list_elem_of_lookup in He as [i Hi].
  apply combine_scores_lookup in Hi as (sem & kw & H1 & H2 & ->). simpl.
  assert (is_Some (texts !! i)) as [t Hti].
  { apply lookup_lt_is_Some. rewrite <- Hlen. apply lookup_lt_is_Some. eauto. }
  destruct (Forall2_lookup_r _ _ _ _ _ Ht Hti) as (c0 & Hc0 & Hd).
  destruct (heap s !! c0) as [d|] eqn:Hd0; [|done].
  by exists c0, d, sem, kw.
Qed.

(** C5: with a document loaded and the embedding of the query at
    hand, the retriever returns at most [k] chunks ([k] is 5 in the
    query operation). Each of them is a new object, the copy of a
    stored passage with its semantic score, its keyword score and the
    relevance score [0.7 * semantic + 0.3 * keyword], which is above
    [0.1]; they come by decreasing relevance score, and by increasing
    index of the passage for equal scores; no chunk is returned when
    no passage is above [0.1]. The relevance score is the number that
    the expression of the source computes in the floating-point format
    ([combined_score]: each literal, each product and the sum
    rounded), and the floor is the number that the literal [0.1]
    stands for; the order and the ties are the ones of these numbers. *)
Theorem find_relevant_chunks_spec (q : string) (k : Z) (s : state vec)
    (qv : vec) (rest embs : list vec) (texts : list string) :
  0 <= k ->
  model_encode [q] = Ok (qv :: rest) ->
  chunk_embeddings s = Some embs ->
  texts_of (heap s) (document_chunks s) texts ->
  let sims := cosine qv <$> embs in
  let kws := keyword_score fl q <$> texts in
  exists rel s1 entries,
    find_relevant_chunks fl model_encode cosine q k s = (Ok rel, s1) /\
    Z.of_nat (length rel) <= k /\
    entries = picked fl k sims kws /\
    Forall2 (retrieved fl s s1 sims kws) rel entries /\
    StronglySorted before entries /\
    ((forall i sem kw, sims !! i = Some sem -> kws !! i = Some kw ->
                       ~ (fl 0.1 < combined_score fl sem kw)%Q) ->
     rel = []).
Proof.
  intros Hk Henc Hemb Ht sims kws.
  set (se := with_events (events s ++ [EncodeCall [q]]) s).
  assert (encode model_encode [q] s = (Ok (qv :: rest), se)) as Hrun1.
  { unfold encode, bind, emit, modify, lift. by rewrite Henc. }
  assert (calculate_keyword_scores fl q se = (Ok kws, se)) as Hrun2.
  { by apply calculate_keyword_scores_run. }
  destruct embs as [|v embs'] eqn:Hembs.
  - (* no embedding at all: scikit-learn raises, no chunk is returned *)
    exists [], (with_events (events se ++
      [LogError ("Error finding relevant chunks: "
                 +:+ "Found array with 0 sample(s) while a minimum of 1 is required")]) se),
      (picked fl k sims kws).
    assert (picked fl k sims kws = []) as ->.
    { apply picked_nil. intros i sem kw Hs. by destruct i. }
    repeat split; try done; try constructor.
    unfold find_relevant_chunks.
    erewrite try_raise; [by unfold bind, log_error, emit, modify, ret|].
    rewrite (bind_ok _ _ _ _ _ Hrun1).
    unfold bind at 1. unfold gets. simpl. by rewrite Hemb.
  - rewrite <- Hembs in *.
    destruct (foldM_select_run s sims kws
                (take (Z.to_nat k) (sort_desc (combine_scores fl sims kws)))
                [] se [])
      as (rel & s'' & Hrun3 & Hf & Hev & Hrel).
    + by apply frame_events, frame_refl.
    + intros e He. eapply stored_entry; [exact Ht | | exact He].
      unfold kws. by rewrite length_fmap.
    + constructor.
    + simpl in Hrel. fold (picked fl k sims kws) in Hrel.
      exists rel,
        (with_events (events s'' ++
           [LogInfo ("Found " +:+ pretty (length rel)
                     +:+ " relevant chunks for query")]) s''),
        (picked fl k sims kws).
      assert (length rel = length (picked fl k sims kws)) as Hlen
        by by eapply Forall2_length.
      split; [|split; [|split; [|split; [|split]]]].
      * unfold find_relevant_chunks. apply try_ok.
        rewrite (bind_ok _ _ _ _ _ Hrun1).
        unfold bind at 1. unfold gets.
        change (chunk_embeddings se) with (chunk_embeddings s). rewrite Hemb.
        assert (cosine_similarity_row cosine (qv :: rest) (Some embs) se
                = (Ok sims, se)) as Hrun0 by (by rewrite Hembs).
        rewrite (bind_ok _ _ _ _ _ Hrun0).
        rewrite (bind_ok _ _ _ _ _ Hrun2).
        rewrite slice_list_take by done.
        rewrite (bind_ok _ _ _ _ _ Hrun3).
        by unfold bind, log_info, emit, modify, ret.
      * rewrite Hlen. by apply picked_length.
      * done.
      * eapply Forall2_impl; [exact Hrel|].
        intros c e Hr. by apply retrieved_events.
      * apply picked_sorted.
      * intros Hnone. apply length_zero_iff_nil.
        by rewrite Hlen, (picked_nil fl k sims kws Hnone).
Qed.

End Retrieval.

(** The ranking of a query without a long token *)

Lemma Qmult_le_l_nonneg (c x y : Q) : (0 <= c)%Q -> (x <= y)%Q -> (c * x <= c * y)%Q.
Proof.
  intros Hc Hxy. rewrite (Qmult_comm c x), (Qmult_comm c y).
  by apply Qmult_le_compat_r.
Qed.

(** Under a rounding that keeps the order, the combined score does
    not decrease with the semantic score. *)
Lemma combined_score_monotone fl kw sem sem' :
  monotone fl -> (sem <= sem')%Q ->
  (combined_score fl sem kw <= combined_score fl sem' kw)%Q.
Proof.
  intros [Hfl H07] Hle. unfold combined_score.
  apply Hfl. apply Qplus_le_compat; [|apply Qle_refl].
  apply Hfl. by apply Qmult_le_l_nonneg.
Qed.

Lemma combine_scores_zero fl sims n :
  combine_scores fl sims (replicate n 0%Q)
  = imap (fun i sem => (combined_score fl sem 0, i)) (take n sims).
Proof.
  apply list_eq. intros i.
  destruct (combine_scores fl sims (replicate n 0%Q) !! i) as [e|] eqn:E.
  - apply combine_scores_lookup in E as (sem & kw & H1 & H2 & ->).
    apply lookup_replicate in H2 as [-> Hi].
    symmetry. apply list_lookup_imap_Some. exists sem. split; [|done].
    by apply lookup_take_Some.
  - symmetry. destruct (imap _ _ !! i) as [e|] eqn:E'; [|done].
    apply list_lookup_imap_Some in E' as (sem & H1 & ->).
    apply lookup_take_Some in H1 as [H1 Hi].
    assert (combine_scores fl sims (replicate n 0%Q) !! i
            = Some (combined_score fl sem 0, i)) as E2.
    { apply combine_scores_lookup. exists sem, 0%Q. split; [done|].
      split; [|done]. by apply lookup_replicate. }
    by rewrite E in E2.
Qed.

Lemma StronglySorted_impl {A} (R R' : relation A) l :
  (forall x y, x ∈ l -> y ∈ l -> R x y -> R' x y) ->
  StronglySorted R l -> StronglySorted R' l.
Proof.
  intros H Hs. induction Hs as [|x l Hl IH Hx]; [constructor|].
  constructor.
  - apply IH. intros a b Ha Hb. apply H; by right.
  - apply Forall_forall. intros z Hz. apply H; [by left | by right |].
    by apply (proj1 (Forall_forall _ _) Hx).
Qed.

(** With keyword scores that are all 0, a passage stands before
    another in the sorted list only with a greater semantic score,
    or with the same combined score and a lower index. *)
Lemma sort_desc_semantic fl sims n :
  monotone fl ->
  StronglySorted (ranked_by sims)
    (sort_desc (combine_scores fl sims (replicate n 0%Q))).
Proof.
  intros Hfl.
  apply (StronglySorted_impl before);
    [|apply sort_desc_sorted, combine_scores_by_index].
  intros a b Ha Hb Hab.
  apply (proj1 (elem_of_sort_desc _ _)) in Ha, Hb.
  apply list_elem_of_lookup in Ha as [i Hi], Hb as [j Hj].
  apply combine_scores_lookup in Hi as (sa & ka & Ha1 & Ha2 & ->).
  apply combine_scores_lookup in Hj as (sb & kb & Hb1 & Hb2 & ->).
  apply lookup_replicate in Ha2 as [-> _], Hb2 as [-> _].
  exists sa, sb. split; [done|]. split; [done|].
  destruct Hab as [Hlt|Heq]; [|by right].
  left. simpl in Hlt. apply Qnot_le_lt. intros Hle.
  pose proof (combined_score_monotone fl 0 sa sb Hfl Hle). lra.
Qed.

Section ShortQuery.
Context {vec : Type}.
Variable fl : Q -> Q.
Implicit Types s : state vec.

(** C10 (amended): when the lowercased query has no token of more
    than 2 characters, a token being a run of word characters
    (letters, digits and the underscore, as the regular expression of
    the source finds them), the keyword score of every passage is 0,
    with no bonus for a verbatim occurrence of the query. The combined
    score of a passage is then computed from its semantic score
    alone; the sort keeps all the entries, and under a rounding that
    keeps the order of the numbers, as the one to the nearest float
    does, a passage is ranked before another only when its semantic
    score is greater, or when the two combined scores are the same
    number of the format and its index is lower. *)
Theorem short_query_scores_zero (q : string) (s : state vec) :
  monotone fl ->
  Forall (fun w => (String.length w <= 2)%nat) (word_tokens q) ->
  let n := length (document_chunks s) in
  calculate_keyword_scores fl q s = (Ok (replicate n 0%Q), s)
  /\ forall sims,
       let combined_scores := combine_scores fl sims (replicate n 0%Q) in
       combined_scores
       = imap (fun i sem => (combined_score fl sem 0, i)) (take n sims)
       /\ sort_desc combined_scores ≡ₚ combined_scores
       /\ StronglySorted (ranked_by sims) (sort_desc combined_scores).
Proof.
  intros Hfl H n. split.
  - apply calculate_keyword_scores_zero. by apply no_long_token.
  - intros sims combined_scores. split; [apply combine_scores_zero|].
    split; [apply sort_desc_perm | by apply sort_desc_semantic].
Qed.

End ShortQuery.
End RetrievalFacts.

(** ** The alignment of the session *)

Module SessionFacts.
Import PyStr Engine Design MonadFacts RunFacts FrameFacts.

Section Session.
Context {vec : Type}.
Variable fl : Q -> Q.
Variable model_encode : list string -> result (list vec).
Variable cosine : vec -> vec -> Q.
Variable summarizer : string -> nat -> nat -> bool -> result string.
Variable qa_model : string -> string -> result qa_result.
Implicit Types s : state vec.

Lemma initial_state_aligned : aligned (initial_state (vec := vec)).
Proof. done. Qed.

Lemma clear_document_aligned s : aligned (clear_document s).2.
Proof. done. Qed.

Lemma frame_aligned s s' : frame s s' -> aligned s -> aligned s'.
Proof. intros (Hc & He & _). unfold aligned. by rewrite Hc, He. Qed.

Lemma query_aligned q k s :
  aligned s -> aligned (query fl model_encode cosine summarizer qa_model q k s).2.
Proof.
  apply frame_aligned.
  pose proof (keeps_query fl model_encode cosine summarizer qa_model s q k s
                (frame_refl s)) as H.
  by destruct (query _ _ _ _ _ _ _) as [[a|e] s'].
Qed.

Lemma mapM_get_text_inv cs : forall s r s',
  mapM get_text cs s = (r, s') ->
  s' = s /\ forall ts, r = Ok ts -> length ts = length cs.
Proof.
  induction cs as [|c cs IH]; intros s r s'; simpl.
  - unfold ret. intros [= <- <-]. split; [done|]. by intros ts [= <-].
  - unfold bind at 1. unfold get_text at 1. unfold bind at 1. unfold deref.
    destruct (heap s !! c) as [d|]; [|by intros [= <- <-]].
    unfold ret at 1. unfold bind at 1.
    destruct (mapM get_text cs s) as [[ts|e] s1] eqn:E;
      destruct (IH _ _ _ E) as [-> Hlen].
    + unfold ret. intros [= <- <-]. split; [done|].
      intros ts' [= <-]. simpl. by rewrite (Hlen ts eq_refl).
    + by intros [= <- <-].
Qed.

(** A load that returns leaves the session aligned, when the embedding
    service gives one vector per text. *)
Lemma initialize_document_aligned chunks s :
  (forall texts embs,
     model_encode texts = Ok embs -> length embs = length texts) ->
  (initialize_document model_encode chunks s).1 = Ok tt ->
  aligned (initialize_document model_encode chunks s).2.
Proof.
  intros Hcontract.
  destruct (initialize_document model_encode chunks s) as [r s'] eqn:Hrun.
  simpl. intros ->.
  unfold initialize_document, try_except, bind, encode, log_info, log_error,
    emit, modify, lift, raise in Hrun.
  destruct (mapM get_text chunks (with_document_chunks chunks s))
    as [[texts|e] s1] eqn:E; [|done].
  destruct (mapM_get_text_inv _ _ _ _ E) as [-> Hlen].
  destruct (model_encode texts) as [embs|e] eqn:Henc; [|done].
  injection Hrun as <-. unfold aligned. simpl.
  by rewrite (Hcontract _ _ Henc), (Hlen texts eq_refl).
Qed.

(** A load whose embedding call fails hands the exception on and
    leaves the new passages next to the embeddings that were there. *)
Lemma initialize_document_encode_fails chunks s texts e :
  texts_of (heap s) chunks texts ->
  model_encode texts = Raise e ->
  exists s',
    initialize_document model_encode chunks s = (Raise e, s') /\
    document_chunks s' = chunks /\
    chunk_embeddings s' = chunk_embeddings s.
Proof.
  intros Ht He. eexists. split.
  - unfold initialize_document.
    erewrite try_raise; [by unfold bind, log_error, emit, modify, raise|].
    unfold bind at 1. unfold modify at 1.
    rewrite (bind_ok _ _ _ _ _
               (mapM_get_text_run (with_document_chunks chunks s) chunks texts Ht)).
    unfold bind at 1. unfold encode, bind, emit, modify, lift.
    by rewrite He.
  - done.
Qed.

End Session.
End SessionFacts.

(** ** The sample session *)

Module SampleFacts.
Import PyStr PyFloat Engine Design Samples RunFacts AnswerFacts ScoreFacts
       RetrievalFacts FrameFacts.

Lemma first_loaded_is_loaded : loaded first_loaded.
Proof. split; by vm_compute. Qed.

Lemma first_loaded_texts :
  texts_of (heap first_loaded) (document_chunks first_loaded)
           ["a cat"; "the dog barks loud"]%string.
Proof. repeat constructor. Qed.

(** C1 (the code does not do what the claim says): a first document
    of two passages is loaded and the session is aligned; the load of a
    second document of three passages fails in the embedding call. The
    exception goes to the caller, and the session is left with the
    three new passages next to the two embeddings of the first
    document. The next query answers from that pair. *)
Theorem failed_load_breaks_alignment :
  aligned first_loaded /\
  (initialize_document small_encode [3; 4; 5]%positive first_loaded).1
  = Raise "out of memory" /\
  document_chunks after_failed_load = [3; 4; 5]%positive /\
  chunk_embeddings after_failed_load = chunk_embeddings first_loaded /\
  length <$> chunk_embeddings after_failed_load = Some 2%nat /\
  ~ aligned after_failed_load /\
  (query unrounded small_encode plain_cosine echo_summarizer echo_qa "snow" 5
         after_failed_load).1
  = Ok (answer_marker +:+ "snow and ice", 2%nat).
Proof. repeat split; by vm_compute. Qed.

(** C3, as the claim states it, fails: for the query "cat" the
    passage "a cat" scores 0.8, the short token "a" of the passage
    being counted in the union, where the claim gives 1. In binary64
    the score is the float 0.8, and the claim gives 1 as well. *)
Lemma short_passage_tokens_count :
  (calculate_keyword_scores unrounded "cat" first_loaded).1 = Ok [16 # 20; 0 # 5]%Q /\
  (claimed_keyword_score unrounded "cat" "a cat" == 1)%Q /\
  ~ (16 # 20 == 1)%Q /\
  (calculate_keyword_scores binary64 "cat" first_loaded).1
  = Ok [3602879701896397 # 4503599627370496; 0]%Q /\
  claimed_keyword_score binary64 "cat" "a cat" = 1%Q.
Proof. repeat split; by vm_compute. Qed.

Lemma calculate_keyword_scores_spec_witness :
  calculate_keyword_scores unrounded "cat" first_loaded
  = (Ok (keyword_score unrounded "cat" <$> ["a cat"; "the dog barks loud"]%string),
     first_loaded)
  /\ Forall (fun v => (v <= 1)%Q)
            (keyword_score unrounded "cat" <$> ["a cat"; "the dog barks loud"]%string).
Proof.
  destruct (calculate_keyword_scores_spec unrounded "cat" first_loaded
              ["a cat"; "the dog barks loud"]%string) as (H1 & H2 & _).
  - apply first_loaded_texts.
  - by split.
Defined.

Lemma pets_loaded_is_loaded : loaded pets_loaded.
Proof. split; by vm_compute. Qed.

Lemma pets_loaded_texts :
  texts_of (heap pets_loaded) (document_chunks pets_loaded)
           ["cat xx yy"; "cat dog"]%string.
Proof. repeat constructor. Qed.

(** The two passages of the sample have the same combined score in
    exact arithmetic, 0.515, and the stable sort leaves them in their
    order; in binary64 the first one comes to 0.5149999999999999 and
    the second one, at 0.515, is returned first. *)
Lemma rounding_decides_order :
  returned_ids (find_relevant_chunks unrounded unit_encode plain_cosine
                  "cat dog pig" 5 pets_loaded)
  = [Some 0; Some 1]%nat
  /\ returned_ids (find_relevant_chunks binary64 unit_encode plain_cosine
                     "cat dog pig" 5 pets_loaded)
     = [Some 1; Some 0]%nat
  /\ combined_score binary64 (binary64 0.65) (binary64 (1 # 5))
     = (2319353808095805 # 4503599627370496)%Q
  /\ combined_score binary64 (binary64 0.45) (binary64 (2 # 3))
     = (4638707616191611 # 9007199254740992)%Q.
Proof. repeat split; by vm_compute. Qed.

Lemma find_relevant_chunks_spec_witness :
  exists rel s1 entries,
    find_relevant_chunks binary64 unit_encode plain_cosine "cat dog pig" 5 pets_loaded
    = (Ok rel, s1) /\
    Z.of_nat (length rel) <= 5 /\
    entries = [ (4638707616191611 # 9007199254740992, 1%nat);
                (2319353808095805 # 4503599627370496, 0%nat) ]%Q /\
    Forall2 (retrieved binary64 pets_loaded s1
               (plain_cosine 1 <$> [binary64 0.65; binary64 0.45]%Q)
               (keyword_score binary64 "cat dog pig"
                  <$> ["cat xx yy"; "cat dog"]%string))
            rel entries /\
    StronglySorted before entries.
Proof.
  destruct (find_relevant_chunks_spec binary64 unit_encode plain_cosine
              "cat dog pig" 5 pets_loaded 1%Q []
              [binary64 0.65; binary64 0.45]%Q
              ["cat xx yy"; "cat dog"]%string)
    as (rel & s1 & entries & Hrun & Hlen & Hent & Hrel & Hsorted & _).
  - lia.
  - by vm_compute.
  - by vm_compute.
  - apply pets_loaded_texts.
  - exists rel, s1, entries. split_and!; [done | done | | done | done].
    rewrite Hent. by vm_compute.
Defined.

(** The response of the fallback for the two passages of the sample. *)
Lemma excerpt_response_sample :
  excerpt_response "cat dog pig" ["cat dog"; "cat xx yy"]%string
  = join nl [ "Based on the document content:" +:+ nl;
              "--- Relevant Section 1 ---"; "cat dog"; "";
              "--- Relevant Section 2 ---"; "cat xx yy"; "";
              "--- Summary ---";
              "The above content from 2 sections answers your query about: 'cat dog pig'."
            ]%string.
Proof. by vm_compute. Qed.

Lemma query_answer_selection_witness :
  (query binary64 unit_encode plain_cosine echo_summarizer echo_qa "cat dog pig" 5
         pets_loaded).1
  = Ok (answer_marker +:+ "cat dog", 2%nat) /\
  (query binary64 unit_encode plain_cosine echo_summarizer unsure_qa "cat dog pig" 5
         pets_loaded).1
  = Ok (excerpt_response "cat dog pig" ["cat dog"; "cat xx yy"]%string, 2%nat).
Proof.
  split.
  - destruct (query_answer_selection binary64 unit_encode plain_cosine echo_summarizer
                echo_qa "cat dog pig" 5 pets_loaded
                (find_relevant_chunks binary64 unit_encode plain_cosine "cat dog pig" 5
                   pets_loaded).2
                [3; 4]%positive ["cat dog"; "cat xx yy"]%string
                [QAResult "cat dog" 0.5; QAResult "cat xx yy" 0.5]
                (QAResult "cat dog" 0.5))
      as (_ & _ & H).
    + by vm_compute.
    + apply pets_loaded_is_loaded.
    + by vm_compute.
    + by vm_compute.
    + repeat constructor.
    + repeat constructor.
    + by vm_compute.
    + rewrite H; [done|].
      intros [Hm|[Hm|Hm]]; vm_compute in Hm; [done | done | lia].
  - destruct (query_answer_selection binary64 unit_encode plain_cosine echo_summarizer
                unsure_qa "cat dog pig" 5 pets_loaded
                (find_relevant_chunks binary64 unit_encode plain_cosine "cat dog pig" 5
                   pets_loaded).2
                [3; 4]%positive ["cat dog"; "cat xx yy"]%string
                [QAResult "cat dog" 0.25; QAResult "cat xx yy" 0.25]
                (QAResult "cat dog" 0.25))
      as (_ & H & _).
    + by vm_compute.
    + apply pets_loaded_is_loaded.
    + by vm_compute.
    + by vm_compute.
    + repeat constructor.
    + repeat constructor.
    + by vm_compute.
    + rewrite H; [done|]. left. by vm_compute.
Defined.

Lemma query_summary_path_witness :
  query unrounded small_encode plain_cosine echo_summarizer echo_qa
        "Summarize this document" 5 first_loaded
  = (Ok (summary_marker +:+ "In short: a cat the dog barks loud", 1%nat),
     with_events
       (events first_loaded
        ++ [SummarizerCall "a cat the dog barks loud" 180 60 false])
       first_loaded).
Proof.
  destruct (query_summary_path unrounded small_encode plain_cosine echo_summarizer echo_qa
              "Summarize this document" 5 first_loaded
              ["a cat"; "the dog barks loud"]%string
              "In short: a cat the dog barks loud")
    as (H & _ & _).
  - apply first_loaded_is_loaded.
  - left. by vm_compute.
  - apply first_loaded_texts.
  - by vm_compute.
  - exact H.
Defined.

(** C8, as the claim states it, fails for the embedding call: with
    the embedding service down, the query on a loaded document answers
    that it found no relevant information, which is not an error
    response. *)
Lemma encode_failure_is_not_reported :
  loaded first_loaded /\
  down_encode ["where is the cat"%string] = Raise "encoder down" /\
  (query unrounded down_encode plain_cosine echo_summarizer echo_qa "where is the cat" 5
         first_loaded).1
  = Ok (no_relevant_message, 0%nat) /\
  is_error_response no_relevant_message = false.
Proof.
  split; [apply first_loaded_is_loaded|]. repeat split; by vm_compute.
Qed.

Lemma query_absorbs_failures_witness :
  (query unrounded small_encode plain_cosine down_summarizer echo_qa "a summary, please" 5
         first_loaded).1
  = Ok (error_prefix +:+ "summarizer down", 0%nat) /\
  (query unrounded down_encode plain_cosine echo_summarizer echo_qa "where is the cat" 5
         first_loaded).1
  = Ok (no_relevant_message, 0%nat) /\
  (query unrounded small_encode plain_cosine echo_summarizer down_qa "cat" 5
         first_loaded).1
  = Ok (error_prefix +:+ "reader down", 0%nat).
Proof.
  split; [|split].
  - destruct (query_absorbs_failures unrounded small_encode plain_cosine down_summarizer
                echo_qa "a summary, please" 5 first_loaded) as (_ & H & _ & _).
    apply (H ["a cat"; "the dog barks loud"]%string "summarizer down"%string).
    + apply first_loaded_is_loaded.
    + by vm_compute.
    + apply first_loaded_texts.
    + by vm_compute.
  - destruct (query_absorbs_failures unrounded down_encode plain_cosine echo_summarizer
                echo_qa "where is the cat" 5 first_loaded) as (_ & _ & H & _).
    apply (H "encoder down"%string).
    + apply first_loaded_is_loaded.
    + by vm_compute.
    + by vm_compute.
  - destruct (query_absorbs_failures unrounded small_encode plain_cosine echo_summarizer
                down_qa "cat" 5 first_loaded) as (_ & _ & _ & H).
    apply (H [6; 7]%positive
             (find_relevant_chunks unrounded small_encode plain_cosine "cat" 5 first_loaded).2
             [] "the dog barks loud"%string ["a cat"%string] "reader down"%string).
    + apply first_loaded_is_loaded.
    + by vm_compute.
    + by vm_compute.
    + repeat constructor.
    + constructor.
    + by vm_compute.
Defined.

(** C10, as the claim states it, fails on both counts. The query
    "a_b" has no run of letters and digits of more than 2 characters,
    and the passage "a_b" has the keyword score 1: the underscore is
    a word character, and the token "a_b" has 3 characters. And for
    the query "is it", whose keyword scores are all 0, the passage of
    the lower semantic score is returned first: the products of the
    two semantic scores by 0.7 round to the same float, and the
    stable sort leaves the passages in their order. *)
Lemma short_alnum_tokens_score :
  Forall (fun w => (String.length w <= 2)%nat) (alnum_tokens "a_b") /\
  (calculate_keyword_scores binary64 "a_b" names_loaded).1 = Ok [1; 0]%Q /\
  Forall (fun w => (String.length w <= 2)%nat) (alnum_tokens "is it") /\
  (calculate_keyword_scores binary64 "is it" close_loaded).1 = Ok [0; 0]%Q /\
  chunk_embeddings close_loaded = Some [close_low; close_high] /\
  (close_low < close_high)%Q /\
  binary64 close_low = close_low /\ binary64 close_high = close_high /\
  returned_ids (find_relevant_chunks binary64 unit_encode plain_cosine "is it" 5
                  close_loaded)
  = [Some 0; Some 1]%nat.
Proof. split_and!; try by vm_compute. all: by repeat constructor. Qed.

Lemma binary64_monotone : monotone binary64.
Proof. split; [apply FloatFacts.binary64_mono | by vm_compute]. Qed.

Lemma short_query_scores_zero_witness :
  calculate_keyword_scores binary64 "is it" pets_loaded
  = (Ok [0; 0]%Q, pets_loaded)
  /\ combine_scores binary64 [binary64 0.45; binary64 0.65]%Q [0; 0]%Q
     = [ (combined_score binary64 (binary64 0.45) 0, 0%nat);
         (combined_score binary64 (binary64 0.65) 0, 1%nat) ]
  /\ StronglySorted (ranked_by [binary64 0.45; binary64 0.65]%Q)
       (sort_desc (combine_scores binary64 [binary64 0.45; binary64 0.65]%Q
                     [0; 0]%Q))
  /\ ranking (combine_scores binary64 [binary64 0.45; binary64 0.65]%Q [0; 0]%Q)
     = [1; 0]%nat.
Proof.
  destruct (short_query_scores_zero binary64 "is it" pets_loaded) as [H1 H2].
  - apply binary64_monotone.
  - repeat constructor.
  - destruct (H2 [binary64 0.45; binary64 0.65]%Q) as (H3 & _ & H4).
    split; [exact H1|]. split; [exact H3|]. split; [exact H4 | by vm_compute].
Defined.

End SampleFacts.

(** ** More on the chunking loop: sizes, windows and coverage *)

Module ChunkBounds.
Import PyStr Chunker Design Pdf StripFacts ChunkerFacts RunFacts.

Lemma length_chars s : length (chars s) = String.length s.
Proof. by rewrite <- (str_chars s) at 2; rewrite length_str. Qed.

Lemma lstrip_length l : (length (lstrip_chars l) <= length l)%nat.
Proof.
  induction l as [|c l IH]; simpl; [done|].
  destruct (is_space c); simpl; lia.
Qed.

Lemma strip_chars_length l : (length (strip_chars l) <= length l)%nat.
Proof.
  unfold strip_chars. rewrite length_rev.
  etrans; [apply lstrip_length|]. rewrite length_rev. apply lstrip_length.
Qed.

Lemma strip_len s : len (strip s) <= len s.
Proof.
  unfold strip. rewrite len_str. unfold len. rewrite <- length_chars.
  pose proof (strip_chars_length (chars s)). lia.
Qed.

Lemma slice_list_length {A} (l : list A) lo hi :
  0 <= lo <= hi -> Z.of_nat (length (slice_list l lo hi)) <= hi - lo.
Proof.
  intros H. unfold slice_list, clamp_index.
  rewrite length_take.
  destruct (Z.ltb_spec lo 0); [lia|].
  destruct (Z.ltb_spec hi 0); lia.
Qed.

Lemma slice_len s lo hi : 0 <= lo <= hi -> len (slice s lo hi) <= hi - lo.
Proof. intros H. unfold slice. rewrite len_str. by apply slice_list_length. Qed.

Lemma last_index_lt c l k : last_index c l = Some k -> (k < length l)%nat.
Proof.
  revert k. induction l as [|x l IH]; intros k; simpl; [done|].
  destruct (last_index c l) as [j|].
  - intros [= <-]. specialize (IH j eq_refl). lia.
  - destruct (Ascii.eqb x c); [|done]. intros [= <-]. lia.
Qed.

(** [rfind] gives an index before the upper bound of the search. *)
Lemma rfind_upper s c lo hi : 0 <= hi -> rfind s c lo hi < hi.
Proof.
  intros Hhi. unfold rfind.
  destruct (last_index _ _) as [k|] eqn:E; [|lia].
  apply last_index_lt in E. revert E.
  unfold slice_list, clamp_index. rewrite length_take.
  destruct (Z.ltb_spec lo 0), (Z.ltb_spec hi 0); lia.
Qed.

Lemma max_default_le l d b :
  Forall (fun x => x <= b) l -> d <= b -> max_default l d <= b.
Proof.
  destruct l as [|x l]; simpl; [done|].
  intros H _. apply Forall_cons in H as [Hx H].
  induction H as [|y l Hy H IH]; simpl; lia.
Qed.

(** The cut is at most one character behind the hard boundary. *)
Lemma window_end_upper self text start :
  0 < chunk_size self -> 0 <= start ->
  window_end self text start <= start + chunk_size self + 1.
Proof.
  intros Hcs Hs. unfold window_end.
  destruct (_ <? len text); [|lia].
  match goal with |- context [max_default ?l ?d] => set (b := max_default l d) end.
  assert (b <= start + chunk_size self) as Hb.
  { apply max_default_le; [|lia].
    apply Forall_forall. intros x Hx.
    apply list_elem_of_filter in Hx as [_ Hx].
    assert (forall c, rfind text c (Z.max (start + chunk_size self - 200) start)
                        (start + chunk_size self) <= start + chunk_size self) as Hr.
    { intros c. pose proof (rfind_upper text c
        (Z.max (start + chunk_size self - 200) start) (start + chunk_size self)).
      lia. }
    repeat (apply elem_of_cons in Hx as [->|Hx]; [apply Hr|]).
    by apply elem_of_nil in Hx. }
  destruct (_ <? b); lia.
Qed.

Lemma window_end_after self text start :
  0 < chunk_size self -> start < window_end self text start.
Proof. intros Hcs. destruct (window_end_lower self text start Hcs); lia. Qed.

Lemma next_start_nonneg self text start start' :
  0 < chunk_size self -> 0 <= start ->
  next_start self text (window_end self text start) = Some start' ->
  0 <= start'.
Proof.
  intros Hcs Hs. unfold next_start.
  destruct (len text <=? _); [discriminate|].
  intros [= <-]. pose proof (window_end_after self text start Hcs).
  destruct (Z.leb_spec (window_end self text start - chunk_overlap self) 0); lia.
Qed.

Lemma append_chunk_Forall (P : string -> Prop) chunks c :
  Forall P chunks -> P c -> Forall P (append_chunk chunks c).
Proof.
  intros H Hc. unfold append_chunk. destruct (String.eqb c ""); [done|].
  apply Forall_app. split; [done|]. by constructor.
Qed.

Lemma chunk_loop_bounded self text : 0 < chunk_size self ->
  forall fuel start chunks res,
    0 <= start ->
    Forall (fun c => len c <= chunk_size self + 1) chunks ->
    chunk_loop self text fuel start chunks = Some res ->
    Forall (fun c => len c <= chunk_size self + 1) res.
Proof.
  intros Hcs. induction fuel as [|fuel IH]; intros start chunks res Hs Hc; simpl.
  - destruct (start <? len text); [discriminate|]. by intros [= <-].
  - destruct (start <? len text); [|by intros [= <-]].
    assert (Forall (fun c => len c <= chunk_size self + 1)
              (append_chunk chunks
                 (strip (slice text start (window_end self text start))))) as Hc'.
    { apply append_chunk_Forall; [done|].
      etrans; [apply strip_len|].
      pose proof (window_end_upper self text start Hcs Hs).
      pose proof (window_end_after self text start Hcs).
      etrans; [apply slice_len|]; lia. }
    destruct (next_start _ _ _) as [start'|] eqn:E.
    + apply IH; [|done]. by eapply next_start_nonneg.
    + by intros [= <-].
Qed.

Lemma create_chunks_sized self fuel text chunks :
  0 < chunk_size self ->
  create_chunks self fuel text = Some chunks ->
  Forall (fun c => len c <= chunk_size self + 1) chunks.
Proof.
  intros Hcs. unfold create_chunks.
  destruct (Z.leb_spec (len text) (chunk_size self)).
  - intros [= <-]. constructor; [lia | done].
  - by apply chunk_loop_bounded.
Qed.

(** X2: whenever [_create_chunks] returns, for a positive
    [chunk_size], no chunk has more than [chunk_size + 1] characters:
    the hard cut of a window takes one character more than
    [chunk_size], because the [+ 1] that steps over a sentence end is
    applied to the default of the [max] as well. *)
Theorem create_chunks_bounded self fuel text chunks :
  0 < chunk_size self ->
  create_chunks self fuel text = Some chunks ->
  Forall (fun c => len c <= chunk_size self + 1) chunks.
Proof. apply create_chunks_sized. Qed.

(** The bound is reached: a text without a sentence end is cut into
    chunks of [chunk_size + 1] characters. *)
Lemma create_chunks_bounded_witness :
  create_chunks {| chunk_size := 3; chunk_overlap := 1 |} 9 "abcdefghi"
    = Some ["abcd"; "defg"; "ghi"]%string /\
  Forall (fun c => len c <= 3 + 1) ["abcd"; "defg"; "ghi"]%string.
Proof.
  split; [by vm_compute|].
  apply (create_chunks_bounded {| chunk_size := 3; chunk_overlap := 1 |}
           9 "abcdefghi"); [done | by vm_compute].
Defined.

(** X1: under a configuration that advances (the default one of the
    application, 1000 and 200, is one), [_create_chunks] returns for
    every text: the loop is left after at most as many turns as the
    text has characters, and any larger bound on the turns gives a
    result too. *)
Theorem create_chunks_returns self text fuel :
  advances self -> (String.length text < fuel)%nat ->
  exists chunks, create_chunks self fuel text = Some chunks.
Proof.
  intros Hadv Hf. unfold create_chunks.
  destruct (len text <=? chunk_size self); [eauto|].
  apply chunk_loop_terminates; [done | lia |]. unfold len. lia.
Qed.

Lemma create_chunks_returns_witness :
  advances default_processor /\
  exists chunks,
    create_chunks default_processor 20 "One. Two! Three?" = Some chunks.
Proof.
  split; [apply default_processor_advances|].
  apply (create_chunks_returns default_processor "One. Two! Three?" 20).
  - apply default_processor_advances.
  - simpl. lia.
Defined.

(** The loop and its windows. *)
Lemma chunk_loop_windows self text : forall fuel start chunks,
  chunk_loop self text fuel start chunks
  = chunks_of text chunks <$> windows self text fuel start.
Proof.
  induction fuel as [|fuel IH]; intros start chunks; simpl.
  - by destruct (start <? len text).
  - destruct (start <? len text); [|done].
    destruct (next_start _ _ _) as [start'|]; [|done].
    rewrite IH. by destruct (windows self text fuel start').
Qed.

Lemma windows_cover self text :
  0 < chunk_size self -> 0 <= chunk_overlap self ->
  forall fuel start ws,
    0 <= start ->
    windows self text fuel start = Some ws ->
    forall p, start <= p < len text -> Exists (fun w => w.1 <= p < w.2) ws.
Proof.
  intros Hcs Hov. induction fuel as [|fuel IH]; intros start ws Hs; simpl.
  - destruct (Z.ltb_spec start (len text)); [discriminate|]. intros _ p Hp. lia.
  - destruct (Z.ltb_spec start (len text)); [|intros _ p Hp; lia].
    destruct (next_start _ _ _) as [start'|] eqn:E.
    + destruct (windows self text fuel start') as [ws'|] eqn:Ew; [|discriminate].
      intros [= <-] p Hp.
      destruct (Z.lt_ge_cases p (window_end self text start)) as [Hlt|Hge].
      * apply Exists_cons_hd. simpl. lia.
      * apply Exists_cons_tl. eapply IH; [|exact Ew|].
        -- by eapply next_start_nonneg.
        -- revert E. unfold next_start.
           destruct (len text <=? _); [discriminate|]. intros [= <-].
           destruct (_ <=? 0); lia.
    + intros [= <-] p Hp. apply Exists_cons_hd. simpl.
      revert E. unfold next_start.
      destruct (Z.leb_spec (len text) (window_end self text start)); [|discriminate].
      lia.
Qed.

(** X3: when the loop of [_create_chunks] returns, for a positive
    [chunk_size] and an overlap that is not negative, the chunks are
    the trimmed windows of the text in order, the blank ones left out,
    and the windows leave no gap: every position of the text lies in
    one of them. *)
Theorem create_chunks_covers self fuel text chunks :
  0 < chunk_size self -> 0 <= chunk_overlap self ->
  chunk_size self < len text ->
  create_chunks self fuel text = Some chunks ->
  exists ws,
    windows self text fuel 0 = Some ws /\
    chunks = chunks_of text [] ws /\
    forall p, 0 <= p < len text -> Exists (fun w => w.1 <= p < w.2) ws.
Proof.
  intros Hcs Hov Hlen. unfold create_chunks.
  rewrite (proj2 (Z.leb_gt _ _) Hlen), chunk_loop_windows.
  destruct (windows self text fuel 0) as [ws|] eqn:E; [|discriminate].
  intros [= <-]. exists ws. split; [done|]. split; [done|].
  by eapply windows_cover.
Qed.

Lemma create_chunks_covers_witness :
  exists ws,
    windows {| chunk_size := 3; chunk_overlap := 1 |} "ab. cdefg.ijk" 10 0 = Some ws /\
    ["ab."; ". cd"; "defg"; "g."; ".ijk"]%string = chunks_of "ab. cdefg.ijk" [] ws /\
    forall p, 0 <= p < len "ab. cdefg.ijk" -> Exists (fun w => w.1 <= p < w.2) ws.
Proof.
  apply (create_chunks_covers {| chunk_size := 3; chunk_overlap := 1 |} 10
           "ab. cdefg.ijk"); by vm_compute.
Defined.

(** What is not a blank stays through [strip]. *)
Lemma lstrip_keeps c l :
  c ∈ l -> is_space c = false -> c ∈ lstrip_chars l.
Proof.
  intros Hc Hn. induction l as [|x l IH]; simpl; [done|].
  destruct (is_space x) eqn:E; [|done].
  apply elem_of_cons in Hc as [->|Hc]; [congruence | by apply IH].
Qed.

Lemma strip_chars_keeps c l :
  c ∈ l -> is_space c = false -> c ∈ strip_chars l.
Proof.
  intros Hc Hn. unfold strip_chars.
  rewrite list_elem_of_In, <- in_rev, <- list_elem_of_In.
  apply lstrip_keeps; [|done].
  rewrite list_elem_of_In, <- in_rev, <- list_elem_of_In.
  by apply lstrip_keeps.
Qed.

Lemma lstrip_blank l : Forall (fun c => is_space c = true) l -> lstrip_chars l = [].
Proof. induction 1 as [|c l Hc _ IH]; simpl; [done|]. by rewrite Hc. Qed.

Lemma lstrip_subset c l : c ∈ lstrip_chars l -> c ∈ l.
Proof.
  induction l as [|x l IH]; simpl; [done|].
  destruct (is_space x); [|done]. intros H. apply elem_of_cons. right. by apply IH.
Qed.

Lemma strip_chars_subset c l : c ∈ strip_chars l -> c ∈ l.
Proof.
  unfold strip_chars.
  rewrite list_elem_of_In, <- in_rev, <- list_elem_of_In. intros H.
  apply lstrip_subset in H.
  rewrite list_elem_of_In, <- in_rev, <- list_elem_of_In in H.
  by apply lstrip_subset.
Qed.

(** A text is blank exactly when all its characters are. *)
Lemma strip_blank_iff s :
  strip s = ""%string <-> Forall (fun c => is_space c = true) (chars s).
Proof.
  unfold strip. split.
  - intros H. apply str_nil_inv in H.
    apply Forall_forall. intros c Hc.
    destruct (is_space c) eqn:E; [done|].
    apply (strip_chars_keeps c) in Hc; [|done]. rewrite H in Hc.
    by apply elem_of_nil in Hc.
  - intros H. unfold strip_chars. by rewrite (lstrip_blank _ H).
Qed.

Lemma slice_list_lookup {A} (l : list A) lo hi p x :
  0 <= lo -> lo <= p < hi -> l !! Z.to_nat p = Some x ->
  x ∈ slice_list l lo hi.
Proof.
  intros Hlo Hp Hx.
  pose proof (lookup_lt_Some _ _ _ Hx) as Hlt.
  unfold slice_list, clamp_index.
  destruct (Z.ltb_spec lo 0); [lia|].
  destruct (Z.ltb_spec hi 0); [lia|].
  apply list_elem_of_lookup. exists (Z.to_nat (p - lo)).
  rewrite lookup_take_lt by lia. rewrite lookup_drop.
  replace (Z.to_nat (Z.min lo (Z.of_nat (length l))) + Z.to_nat (p - lo))%nat
    with (Z.to_nat p) by lia.
  done.
Qed.

Lemma append_chunk_length chunks c :
  (length chunks <= length (append_chunk chunks c))%nat.
Proof.
  unfold append_chunk. destruct (String.eqb c ""); [done|].
  rewrite length_app. lia.
Qed.

Lemma chunks_of_length text : forall ws chunks,
  (length chunks <= length (chunks_of text chunks ws))%nat.
Proof.
  induction ws as [|w ws IH]; intros chunks; simpl; [done|].
  etrans; [apply append_chunk_length|]. apply IH.
Qed.

Lemma chunks_of_nonempty text ws : forall chunks,
  Exists (fun w => strip (slice text w.1 w.2) <> ""%string) ws ->
  chunks_of text chunks ws <> [].
Proof.
  induction ws as [|w ws IH]; intros chunks H.
  - by apply Exists_nil in H.
  - simpl. apply Exists_cons in H as [H|H]; [|by apply IH].
    intros E.
    pose proof (chunks_of_length text ws
                  (append_chunk chunks (strip (slice text w.1 w.2)))) as Hl.
    unfold chunks_of in E, Hl. rewrite E in Hl.
    unfold append_chunk in Hl.
    destruct (String.eqb_spec (strip (slice text w.1 w.2)) ""); [done|].
    rewrite length_app in Hl. simpl in Hl. lia.
Qed.

Lemma windows_start self text : 0 < chunk_size self ->
  forall fuel start ws,
    0 <= start -> windows self text fuel start = Some ws ->
    Forall (fun w => 0 <= w.1) ws.
Proof.
  intros Hcs. induction fuel as [|fuel IH]; intros start ws Hs; simpl.
  - destruct (start <? len text); [discriminate|]. by intros [= <-].
  - destruct (start <? len text); [|by intros [= <-]].
    destruct (next_start _ _ _) as [start'|] eqn:E.
    + destruct (windows self text fuel start') as [ws'|] eqn:Ew; [|discriminate].
      intros [= <-]. constructor; [done|].
      eapply IH; [|exact Ew]. by eapply next_start_nonneg.
    + intros [= <-]. by constructor.
Qed.

Lemma nonspace_position l :
  ~ Forall (fun c => is_space c = true) l ->
  exists i c, l !! i = Some c /\ is_space c = false.
Proof.
  induction l as [|x l IH]; intros H.
  - by destruct H.
  - destruct (is_space x) eqn:E.
    + destruct IH as (i & c & Hi & Hc).
      { intros Hl. apply H. by constructor. }
      by exists (S i), c.
    + by exists 0%nat, x.
Qed.

Lemma nonblank_position s :
  strip s <> ""%string ->
  exists p c, 0 <= p < len s /\ chars s !! Z.to_nat p = Some c /\ is_space c = false.
Proof.
  intros H.
  destruct (nonspace_position (chars s)) as (i & c & Hi & Hn).
  { intros Hb. by apply strip_blank_iff in Hb. }
  exists (Z.of_nat i), c. rewrite Nat2Z.id.
  pose proof (lookup_lt_Some _ _ _ Hi) as Hlt. rewrite length_chars in Hlt.
  split; [unfold len; lia|]. by split.
Qed.

Lemma create_chunks_some self fuel text chunks :
  0 < chunk_size self -> 0 <= chunk_overlap self ->
  strip text <> ""%string ->
  create_chunks self fuel text = Some chunks ->
  chunks <> [].
Proof.
  intros Hcs Hov Hnb Hrun.
  destruct (Z.le_gt_cases (len text) (chunk_size self)) as [Hle|Hgt].
  { revert Hrun. unfold create_chunks. rewrite (proj2 (Z.leb_le _ _) Hle).
    by intros [= <-]. }
  revert Hrun. unfold create_chunks.
  rewrite (proj2 (Z.leb_gt _ _) Hgt), chunk_loop_windows.
  destruct (windows self text fuel 0) as [ws|] eqn:E; [|discriminate].
  intros [= <-].
  destruct (nonblank_position text Hnb) as (p & c & Hp & Hc & Hn).
  pose proof (windows_cover self text Hcs Hov fuel 0 ws (Z.le_refl 0) E p Hp) as Hex.
  pose proof (windows_start self text Hcs fuel 0 ws (Z.le_refl 0) E) as Hst.
  apply chunks_of_nonempty.
  apply Exists_exists in Hex as (w & Hw & Hin).
  apply Exists_exists. exists w. split; [done|].
  rewrite Forall_forall in Hst. specialize (Hst w Hw).
  intros Hblank. apply strip_blank_iff in Hblank.
  rewrite Forall_forall in Hblank.
  assert (is_space c = true); [|congruence].
  apply Hblank. unfold slice. rewrite chars_str.
  by eapply slice_list_lookup.
Qed.

(** X4: when [_create_chunks] returns, for a positive [chunk_size] and
    an overlap that is not negative, a text that is not blank gives at
    least one chunk. *)
Theorem create_chunks_nonempty self fuel text chunks :
  0 < chunk_size self -> 0 <= chunk_overlap self ->
  strip text <> ""%string ->
  create_chunks self fuel text = Some chunks ->
  chunks <> [].
Proof. apply create_chunks_some. Qed.

Lemma create_chunks_nonempty_witness :
  create_chunks {| chunk_size := 3; chunk_overlap := 1 |} 10 "     a"
    = Some ["a"%string] /\
  ["a"%string] <> [].
Proof.
  split; [by vm_compute|].
  apply (create_chunks_nonempty {| chunk_size := 3; chunk_overlap := 1 |} 10
           "     a"); by vm_compute.
Defined.

End ChunkBounds.

(** ** The cleaning of the extracted text *)

Module CleanFacts.
Import PyStr PyRe Chunker Engine Design Pdf StripFacts RunFacts ChunkBounds.

Lemma sub_go_skip m : forall l k, sub_go m k l = sub_go m 0 (drop k l).
Proof.
  induction l as [|c l IH]; intros [|k]; simpl; try done; apply IH.
Qed.

Lemma sub_go_quiet m l : quiet m l -> sub_go m 0 l = l.
Proof.
  induction l as [|c l IH]; simpl; [done|].
  intros [-> H]. f_equal. by apply IH.
Qed.

Lemma is_lower_not_space c : is_lower c = true -> is_space c = false.
Proof.
  unfold is_lower, is_space. generalize (nat_of_ascii c). intros n.
  rewrite andb_true_iff, !Nat.leb_le. intros [H1 H2].
  apply orb_false_iff. split; apply andb_false_iff.
  - right. apply Nat.leb_gt. lia.
  - right. apply Nat.leb_gt. lia.
Qed.

Lemma is_upper_not_space c : is_upper c = true -> is_space c = false.
Proof.
  unfold is_upper, is_space. generalize (nat_of_ascii c). intros n.
  rewrite andb_true_iff, !Nat.leb_le. intros [H1 H2].
  apply orb_false_iff. split; apply andb_false_iff.
  - right. apply Nat.leb_gt. lia.
  - right. apply Nat.leb_gt. lia.
Qed.

Lemma is_upper_not_lower c : is_upper c = true -> is_lower c = false.
Proof.
  unfold is_upper, is_lower. generalize (nat_of_ascii c). intros n.
  rewrite andb_true_iff, !Nat.leb_le. intros [H1 H2].
  apply andb_false_iff. left. apply Nat.leb_gt. lia.
Qed.

Lemma is_newline_space c : is_newline c = true -> is_space c = true /\ c <> " "%char.
Proof. unfold is_newline. intros H. apply Ascii.eqb_eq in H as ->. by split. Qed.

Lemma is_blank_eq c : is_blank c = true -> c = " "%char.
Proof. unfold is_blank. apply Ascii.eqb_eq. Qed.

Lemma run_length_clean cls l :
  match drop (run_length cls l) l with
  | [] => True
  | c :: _ => cls c = false
  end.
Proof.
  induction l as [|c l IH]; simpl; [done|].
  destruct (cls c) eqn:E; simpl; [done | exact E].
Qed.

Lemma elem_of_drop_list {A} (x : A) k l : x ∈ drop k l -> x ∈ l.
Proof.
  intros H. apply list_elem_of_lookup in H as [i Hi].
  rewrite lookup_drop in Hi. by eapply list_elem_of_lookup_2.
Qed.

Lemma run_length_le cls l : (run_length cls l <= length l)%nat.
Proof. induction l as [|c l IH]; simpl; [done|]. destruct (cls c); simpl; lia. Qed.

Lemma run_length_start cls l :
  match l with [] => True | c :: _ => cls c = false end -> run_length cls l = 0%nat.
Proof. destruct l as [|c l]; simpl; [done|]. by intros ->. Qed.

(** One step of the substitution of a run. *)
Lemma sub_run_step cls replacement c l :
  sub_go (run_of cls replacement) 0 (c :: l)
  = if cls c
    then replacement ++ sub_go (run_of cls replacement) 0 (drop (run_length cls l) l)
    else c :: sub_go (run_of cls replacement) 0 l.
Proof.
  simpl. unfold run_of at 1. simpl. destruct (cls c); [|done].
  replace (S (run_length cls l) - 1)%nat with (run_length cls l) by lia.
  by rewrite sub_go_skip.
Qed.

Lemma spaced_suffix p l : spaced (p ++ l) -> spaced l.
Proof. induction p as [|c p IH]; simpl; [done|]. intros [_ H]. by apply IH. Qed.

Lemma spaced_prefix l q : spaced (l ++ q) -> spaced l.
Proof.
  induction l as [|c l IH]; simpl; [done|].
  intros [H1 H2]. split; [|by apply IH].
  intros Hc. destruct (H1 Hc) as [-> Hcl]. split; [done|]. by eapply clean_prefix.
Qed.

Lemma spaced_no_newline l : spaced l -> Forall (fun c => is_newline c = false) l.
Proof.
  induction l as [|c l IH]; simpl; [done|].
  intros [H1 H2]. constructor; [|by apply IH].
  destruct (is_newline c) eqn:E; [|done].
  apply is_newline_space in E as [Hs Hn]. by destruct (H1 Hs).
Qed.

(** *** The first substitution: runs of white space *)

Lemma sub_whitespace_spaced : forall n l, (length l <= n)%nat ->
  spaced (sub_go whitespace_run 0 l)
  /\ (clean l -> clean (sub_go whitespace_run 0 l)).
Proof.
  unfold whitespace_run.
  induction n as [|n IH]; intros [|c l] Hn; simpl in Hn; try done; try lia.
  rewrite sub_run_step. destruct (is_space c) eqn:E.
  - pose proof (run_length_le is_space l).
    destruct (IH (drop (run_length is_space l) l)) as [H1 H2].
    { rewrite length_drop. lia. }
    split; [|simpl; by rewrite E].
    simpl. split; [|done]. intros _. split; [done|].
    apply H2. apply run_length_clean.
  - destruct (IH l) as [H1 H2]; [lia|].
    split; [|done]. simpl. split; [|done]. by rewrite E.
Qed.

Lemma sub_whitespace_id l : spaced l -> sub_go whitespace_run 0 l = l.
Proof.
  unfold whitespace_run.
  induction l as [|c l IH]; [done|]. intros [H1 H2].
  rewrite sub_run_step. destruct (is_space c) eqn:E.
  - destruct (H1 eq_refl) as [-> Hc].
    rewrite (run_length_start is_space l Hc).
    change (drop 0 l) with l. by rewrite IH.
  - by rewrite IH.
Qed.

Lemma sub_blank_id l : spaced l -> sub_go blank_run 0 l = l.
Proof.
  unfold blank_run.
  induction l as [|c l IH]; [done|]. intros [H1 H2].
  rewrite sub_run_step. destruct (is_blank c) eqn:E.
  - apply is_blank_eq in E as ->. destruct (H1 eq_refl) as [_ Hc].
    rewrite (run_length_start is_blank l).
    + change (drop 0 l) with l. by rewrite IH.
    + destruct l as [|x l]; [done|]. simpl in Hc.
      destruct (is_blank x) eqn:Ex; [|done].
      apply is_blank_eq in Ex as ->. done.
  - by rewrite IH.
Qed.

Lemma sub_whitespace_keeps c : forall n l, (length l <= n)%nat ->
  c ∈ l -> is_space c = false -> c ∈ sub_go whitespace_run 0 l.
Proof.
  unfold whitespace_run.
  induction n as [|n IH]; intros [|x l] Hn Hc Hs; simpl in Hn;
    try (by apply elem_of_nil in Hc); try lia.
  rewrite sub_run_step. destruct (is_space x) eqn:E.
  - apply elem_of_cons in Hc as [->|Hc]; [congruence|].
    simpl. apply elem_of_cons. right.
    pose proof (run_length_le is_space l).
    apply IH; [rewrite length_drop; lia | | done].
    clear -Hc Hs. induction l as [|y l IH]; simpl; [done|].
    destruct (is_space y) eqn:Ey; simpl; [|done].
    apply elem_of_cons in Hc as [->|Hc]; [congruence | by apply IH].
  - apply elem_of_cons in Hc as [->|Hc]; [by left|].
    apply elem_of_cons. right. apply IH; [lia | done..].
Qed.

Lemma sub_whitespace_from c : forall n l, (length l <= n)%nat ->
  c ∈ sub_go whitespace_run 0 l -> c = " "%char \/ c ∈ l.
Proof.
  unfold whitespace_run.
  induction n as [|n IH]; intros [|x l] Hn; simpl in Hn; try lia;
    try (by intros H; apply elem_of_nil in H).
  rewrite sub_run_step. destruct (is_space x) eqn:E.
  - simpl. intros H. apply elem_of_cons in H as [->|H]; [by left|].
    pose proof (run_length_le is_space l).
    apply IH in H as [H|H]; [by left | | rewrite length_drop; lia].
    right. apply elem_of_cons. right. by eapply elem_of_drop_list.
  - intros H. apply elem_of_cons in H as [->|H]; [right; by left|].
    apply IH in H as [H|H]; [by left | | lia]. right. by right.
Qed.

(** *** The substitution between a small and a capital letter *)

Lemma sub_lower_upper_step a b l :
  sub_go lower_upper 0 (a :: b :: l)
  = if is_lower a && is_upper b
    then a :: " "%char :: b :: sub_go lower_upper 0 l
    else a :: sub_go lower_upper 0 (b :: l).
Proof.
  change (sub_go lower_upper 0 (a :: b :: l))
    with (match lower_upper (a :: b :: l) with
          | Some (replacement, n) => replacement ++ sub_go lower_upper (n - 1) (b :: l)
          | None => a :: sub_go lower_upper 0 (b :: l)
          end).
  unfold lower_upper at 1. by destruct (is_lower a && is_upper b).
Qed.

Lemma sub_lower_upper_head c l :
  exists t, sub_go lower_upper 0 (c :: l) = c :: t.
Proof.
  destruct l as [|b l]; [by exists []|].
  rewrite sub_lower_upper_step. destruct (_ && _); eauto.
Qed.

Lemma sub_lower_upper_clean l : clean l -> clean (sub_go lower_upper 0 l).
Proof.
  destruct l as [|c l]; [done|]. intros H.
  by destruct (sub_lower_upper_head c l) as [t ->].
Qed.

Lemma sub_lower_upper_spaced : forall n l, (length l <= n)%nat ->
  spaced l -> spaced (sub_go lower_upper 0 l).
Proof.
  induction n as [|n IH]; intros [|a [|b l]] Hn; simpl in Hn; try done; try lia.
  intros (Ha & Hb & Hl). rewrite sub_lower_upper_step.
  destruct (is_lower a && is_upper b) eqn:E.
  - apply andb_true_iff in E as [E1 E2].
    apply is_lower_not_space in E1. apply is_upper_not_space in E2.
    assert (spaced (sub_go lower_upper 0 l)) as Hout by (apply IH; [lia | done]).
    simpl. split; [by rewrite E1|]. split; [by intros _|].
    split; [by rewrite E2 | done].
  - assert (spaced (sub_go lower_upper 0 (b :: l))) as Hout.
    { apply IH; [simpl; lia | by split]. }
    destruct (sub_lower_upper_head b l) as [t Ht]. rewrite Ht in *.
    split; [|done]. intros Hs. destruct (Ha Hs) as [-> Hc]. by split.
Qed.

Lemma sub_lower_upper_quiet : forall n l, (length l <= n)%nat ->
  quiet lower_upper (sub_go lower_upper 0 l).
Proof.
  induction n as [|n IH]; intros [|a [|b l]] Hn; simpl in Hn; try done; try lia.
  rewrite sub_lower_upper_step.
  destruct (is_lower a && is_upper b) eqn:E.
  - apply andb_true_iff in E as [E1 E2].
    assert (quiet lower_upper (sub_go lower_upper 0 l)) as Hout by (apply IH; lia).
    simpl. split; [by rewrite andb_false_r|]. split; [done|]. split; [|done].
    destruct (sub_go lower_upper 0 l); [done|].
    by rewrite (is_upper_not_lower b E2).
  - assert (quiet lower_upper (sub_go lower_upper 0 (b :: l))) as Hout.
    { apply IH. simpl. lia. }
    destruct (sub_lower_upper_head b l) as [t Ht]. rewrite Ht in *.
    simpl. split; [by rewrite E | done].
Qed.

Lemma sub_lower_upper_keeps c : forall n l, (length l <= n)%nat ->
  c ∈ l -> c ∈ sub_go lower_upper 0 l.
Proof.
  induction n as [|n IH]; intros [|a [|b l]] Hn Hc; simpl in Hn; try done; try lia.
  rewrite sub_lower_upper_step.
  destruct (is_lower a && is_upper b).
  - apply elem_of_cons in Hc as [->|Hc]; [by left|].
    apply elem_of_cons in Hc as [->|Hc]; [right; right; by left|].
    do 3 right. apply IH; [lia | done].
  - apply elem_of_cons in Hc as [->|Hc]; [by left|].
    right. apply IH; [simpl; lia | done].
Qed.

Lemma sub_lower_upper_from c : forall n l, (length l <= n)%nat ->
  c ∈ sub_go lower_upper 0 l -> c = " "%char \/ c ∈ l.
Proof.
  induction n as [|n IH]; intros [|a [|b l]] Hn; simpl in Hn; try lia;
    try (by right).
  rewrite sub_lower_upper_step.
  destruct (is_lower a && is_upper b); intros H.
  - apply elem_of_cons in H as [->|H]; [right; by left|].
    apply elem_of_cons in H as [->|H]; [by left|].
    apply elem_of_cons in H as [->|H]; [right; right; by left|].
    apply IH in H as [H|H]; [by left | | lia]. right. by do 2 right.
  - apply elem_of_cons in H as [->|H]; [right; by left|].
    apply IH in H as [H|H]; [by left | | simpl; lia]. right. by right.
Qed.

Lemma quiet_suffix m p l : quiet m (p ++ l) -> quiet m l.
Proof.
  induction p as [|c p IH]; [done|]. intros H.
  apply IH. simpl in H. by destruct H.
Qed.

Lemma quiet_lower_upper_prefix l q :
  quiet lower_upper (l ++ q) -> quiet lower_upper l.
Proof.
  induction l as [|a l IH]; [by intros _|].
  intros H. change ((a :: l) ++ q) with (a :: (l ++ q)) in H.
  destruct H as [H1 H2]. split; [|by apply IH].
  destruct l as [|b l]; [done|]. exact H1.
Qed.

(** *** The three substitutions that look for a line break *)

Lemma page_separator_quiet l : spaced l -> quiet page_separator l.
Proof.
  induction l as [|c l IH]; [done|].
  intros Hs. pose proof (spaced_no_newline _ Hs) as Hn.
  destruct Hs as [_ Hs]. split; [|by apply IH].
  apply Forall_cons in Hn as [Hc _]. unfold is_newline in Hc.
  rewrite Ascii.eqb_sym in Hc. unfold page_separator.
  change (strip_prefix ("010"%char :: chars "--- Page ") (c :: l))
    with (if Ascii.eqb "010" c then strip_prefix (chars "--- Page ") l else None).
  by rewrite Hc.
Qed.

Lemma hyphen_break_quiet l : spaced l -> quiet hyphen_break l.
Proof.
  induction l as [|c l IH]; [done|].
  intros Hs. pose proof (spaced_no_newline _ Hs) as Hn.
  destruct Hs as [_ Hs]. split; [|by apply IH].
  destruct l as [|h [|n [|b l]]]; try done.
  apply Forall_cons in Hn as [_ Hn]. apply Forall_cons in Hn as [_ Hn].
  apply Forall_cons in Hn as [Hn _].
  unfold hyphen_break. by rewrite Hn, andb_false_r.
Qed.

Lemma newline_run_quiet l : spaced l -> quiet newline_run l.
Proof.
  induction l as [|c l IH]; [done|].
  intros Hs. pose proof (spaced_no_newline _ Hs) as Hn.
  destruct Hs as [_ Hs]. split; [|by apply IH].
  apply Forall_cons in Hn as [Hc _].
  unfold newline_run, run_of. simpl. by rewrite Hc.
Qed.

(** *** The cleaned text *)

Lemma sub_chars m s : chars (sub m s) = sub_go m 0 (chars s).
Proof. unfold sub. apply chars_str. Qed.

Lemma whitespace_lower_spaced s :
  spaced (chars (sub lower_upper (sub whitespace_run s))).
Proof.
  rewrite !sub_chars. eapply sub_lower_upper_spaced; [done|].
  by eapply sub_whitespace_spaced.
Qed.

Lemma clean_text_short s :
  clean_text s = strip (sub lower_upper (sub whitespace_run s)).
Proof.
  unfold clean_text.
  pose proof (whitespace_lower_spaced s) as Hs.
  rewrite !sub_chars in Hs.
  assert (sub page_separator (sub whitespace_run s) = sub whitespace_run s) as ->.
  { unfold sub at 1. rewrite sub_go_quiet; [apply str_chars|].
    apply page_separator_quiet. rewrite sub_chars.
    by eapply sub_whitespace_spaced. }
  set (t := sub lower_upper (sub whitespace_run s)).
  assert (spaced (chars t)) as Ht by (unfold t; by rewrite !sub_chars).
  assert (sub hyphen_break t = t) as ->.
  { unfold sub. rewrite sub_go_quiet; [apply str_chars|].
    by apply hyphen_break_quiet. }
  assert (sub newline_run t = t) as ->.
  { unfold sub. rewrite sub_go_quiet; [apply str_chars|].
    by apply newline_run_quiet. }
  assert (sub blank_run t = t) as ->.
  { unfold sub. rewrite sub_blank_id; [apply str_chars | done]. }
  done.
Qed.

Lemma strip_chars_infix l : exists p q, l = p ++ strip_chars l ++ q.
Proof.
  unfold strip_chars.
  destruct (lstrip_suffix l) as [p Hp].
  destruct (lstrip_suffix (rev (lstrip_chars l))) as [q Hq].
  exists p, (rev q).
  rewrite <- rev_app_distr, <- Hq, rev_involutive. exact Hp.
Qed.

Lemma strip_chars_fixed l : clean l -> clean (rev l) -> strip_chars l = l.
Proof.
  intros H1 H2. unfold strip_chars.
  by rewrite (lstrip_fixed l H1), (lstrip_fixed _ H2), rev_involutive.
Qed.

Lemma strip_chars_clean_rev l : clean (rev (strip_chars l)).
Proof. unfold strip_chars. rewrite rev_involutive. apply lstrip_clean. Qed.

(** X5: [_clean_text] is the replacement of every run of white space
    by one blank, then the blank put between a small letter and the
    capital that follows it, then [strip]: the four other
    substitutions never change the text. The page separators, the
    hyphens at the end of a line and the runs of line breaks that they
    look for all hold a line break, and the first substitution has
    left none; so the separators [--- Page n ---] stay in the text
    that is chunked. *)
Theorem clean_text_normal_form s :
  clean_text s = strip (sub lower_upper (sub whitespace_run s))
  /\ sub page_separator (sub whitespace_run s) = sub whitespace_run s.
Proof.
  split; [apply clean_text_short|].
  unfold sub at 1. rewrite sub_go_quiet; [apply str_chars|].
  apply page_separator_quiet. rewrite sub_chars.
  by eapply sub_whitespace_spaced.
Qed.

Lemma clean_text_spaced s : spaced (chars (clean_text s)).
Proof.
  rewrite clean_text_short. unfold strip. rewrite chars_str.
  pose proof (whitespace_lower_spaced s) as Hs.
  destruct (strip_chars_infix (chars (sub lower_upper (sub whitespace_run s))))
    as (p & q & E).
  rewrite E in Hs. apply spaced_suffix in Hs. by apply spaced_prefix in Hs.
Qed.

Lemma clean_text_quiet s : quiet lower_upper (chars (clean_text s)).
Proof.
  rewrite clean_text_short. unfold strip. rewrite chars_str.
  assert (quiet lower_upper (chars (sub lower_upper (sub whitespace_run s)))) as Hs.
  { rewrite sub_chars. by eapply sub_lower_upper_quiet. }
  destruct (strip_chars_infix (chars (sub lower_upper (sub whitespace_run s))))
    as (p & q & E).
  rewrite E in Hs. apply quiet_suffix in Hs. by apply quiet_lower_upper_prefix in Hs.
Qed.

Lemma clean_text_trimmed s : strip (clean_text s) = clean_text s.
Proof. rewrite clean_text_short. apply strip_idemp. Qed.

(** X6: the text that [_clean_text] returns has no white space but
    single blanks, each between two characters that are not white
    space: it holds no line break and no tabulation, no two blanks in
    a row, and neither starts nor ends with a blank. *)
Theorem clean_text_shape s :
  spaced (chars (clean_text s))
  /\ clean (chars (clean_text s))
  /\ clean (rev (chars (clean_text s)))
  /\ Forall (fun c => is_space c = true -> c = " "%char) (chars (clean_text s)).
Proof.
  split; [apply clean_text_spaced|].
  split; [|split].
  - rewrite clean_text_short. unfold strip. rewrite chars_str.
    apply strip_chars_clean.
  - rewrite clean_text_short. unfold strip. rewrite chars_str.
    apply strip_chars_clean_rev.
  - pose proof (clean_text_spaced s) as H.
    induction (chars (clean_text s)) as [|c l IH]; [done|].
    destruct H as [H1 H2]. constructor; [|by apply IH].
    intros Hc. by destruct (H1 Hc).
Qed.

(** X7: cleaning a cleaned text changes nothing. *)
Theorem clean_text_idempotent s : clean_text (clean_text s) = clean_text s.
Proof.
  rewrite (clean_text_short (clean_text s)).
  unfold sub. rewrite sub_whitespace_id by apply clean_text_spaced.
  rewrite str_chars, sub_go_quiet by apply clean_text_quiet.
  rewrite str_chars. apply clean_text_trimmed.
Qed.

Lemma clean_text_keeps c s :
  c ∈ chars s -> is_space c = false -> c ∈ chars (clean_text s).
Proof.
  intros Hc Hs. rewrite clean_text_short. unfold strip. rewrite chars_str.
  apply strip_chars_keeps; [|done]. rewrite !sub_chars.
  eapply sub_lower_upper_keeps; [done|].
  by eapply sub_whitespace_keeps.
Qed.

Lemma clean_text_from c s :
  c ∈ chars (clean_text s) -> c = " "%char \/ c ∈ chars s.
Proof.
  rewrite clean_text_short. unfold strip. rewrite chars_str. intros H.
  apply strip_chars_subset in H. rewrite !sub_chars in H.
  eapply sub_lower_upper_from in H as [H|H]; [by left | | done].
  eapply sub_whitespace_from in H; done.
Qed.

Lemma clean_text_blank_iff s : clean_text s = ""%string <-> strip s = ""%string.
Proof.
  split.
  - intros H. apply strip_blank_iff. apply Forall_forall. intros c Hc.
    destruct (is_space c) eqn:E; [done|].
    apply (clean_text_keeps c s) in Hc; [|done].
    rewrite H in Hc. by apply elem_of_nil in Hc.
  - intros H. rewrite <- clean_text_trimmed. apply strip_blank_iff.
    apply Forall_forall. intros c Hc.
    apply clean_text_from in Hc as [->|Hc]; [done|].
    apply strip_blank_iff in H. rewrite Forall_forall in H. by apply H.
Qed.

(** X8: the cleaned text is empty exactly when the text is blank, and
    the characters that are not white space are those of the text:
    cleaning only adds and removes white space. *)
Theorem clean_text_empty_iff s :
  (clean_text s = ""%string <-> strip s = ""%string)
  /\ (forall c, is_space c = false ->
        (c ∈ chars (clean_text s) <-> c ∈ chars s)).
Proof.
  split; [apply clean_text_blank_iff|].
  intros c Hs. split.
  - intros H. apply clean_text_from in H as [->|H]; [done | done].
  - intros H. by apply clean_text_keeps.
Qed.

End CleanFacts.

(** ** The extraction of the chunks of a file *)

Module ExtractFacts.
Import PyStr PyRe Chunker Engine Design Pdf Samples.
Import StripFacts ChunkerFacts RunFacts ChunkBounds CleanFacts.

Lemma chars_app a b : chars (a +:+ b) = chars a ++ chars b.
Proof. induction a as [|c a IH]; simpl; [done|]. by rewrite IH. Qed.

Lemma extract_pages_keeps c : forall pages n acc log,
  c ∈ chars acc -> c ∈ chars (extract_pages n pages acc log).1.
Proof.
  induction pages as [|p pages IH]; intros n acc log Hc; simpl; [done|].
  destruct p as [[t|]|e]; try by apply IH.
  destruct (String.eqb t ""); apply IH; [done|].
  rewrite chars_app. apply elem_of_app. by left.
Qed.

Lemma extract_pages_text : forall pages n acc log,
  Exists (fun p => has_text p = true) pages ->
  "-"%char ∈ chars (extract_pages n pages acc log).1.
Proof.
  induction pages as [|p pages IH]; intros n acc log H.
  - by apply Exists_nil in H.
  - apply Exists_cons in H as [H|H].
    + destruct p as [[t|]|e]; try done. simpl in *.
      destruct (String.eqb t ""); [done|].
      apply extract_pages_keeps. rewrite !chars_app.
      apply elem_of_app. right. apply elem_of_app. right.
      apply elem_of_app. left. simpl. by left.
    + simpl. destruct p as [[t|]|e]; try by apply IH.
      destruct (String.eqb t ""); by apply IH.
Qed.

Lemma extract_pages_blank : forall pages n acc log,
  Forall (fun p => has_text p = false) pages ->
  (extract_pages n pages acc log).1 = acc.
Proof.
  induction pages as [|p pages IH]; intros n acc log H; simpl; [done|].
  apply Forall_cons in H as [Hp H].
  destruct p as [[t|]|e]; try by apply IH.
  simpl in Hp. destruct (String.eqb t ""); [by apply IH | done].
Qed.

Lemma full_text_nonblank pages n log :
  Exists (fun p => has_text p = true) pages ->
  strip (extract_pages n pages "" log).1 <> ""%string.
Proof.
  intros H Hb. apply strip_blank_iff in Hb. rewrite Forall_forall in Hb.
  by specialize (Hb _ (extract_pages_text pages n "" log H)).
Qed.

Section Files.

Variable path_exists : string -> bool.
Variable open_pdf : string -> result (list page).

(** X9: [extract_text_chunks], on a file that exists and that the
    reader opens, raises the error of a document without text exactly
    when no page gives a text that is not empty. A page whose text is
    only white space counts as text: its separator is added to the
    full text, which is then not blank. *)
Theorem extract_text_chunks_no_text self fuel pdf_path log pages :
  path_exists pdf_path = true ->
  open_pdf pdf_path = Ok pages ->
  (exists log',
     extract_text_chunks path_exists open_pdf self fuel pdf_path log
     = Some (Raise "No text content found in PDF", log'))
  <-> Forall (fun p => has_text p = false) pages.
Proof.
  intros Hex Hop.
  unfold extract_text_chunks, extract_body, extract_full_text.
  rewrite Hex, Hop. cbn [negb]. cbv beta iota.
  destruct (extract_pages 1 pages "" _) as [full_text log1] eqn:Ep.
  split.
  - intros [log' H].
    destruct (decide (Forall (fun p => has_text p = false) pages)) as [|Hn]; [done|].
    exfalso.
    assert (Exists (fun p => has_text p = true) pages) as Hsome.
    { clear -Hn. induction pages as [|p pages IH]; [by destruct Hn|].
      destruct (has_text p) eqn:E; [by left|].
      right. apply IH. intros Hf. apply Hn. by constructor. }
    pose proof (full_text_nonblank pages 1
                  (log ++ [Info ("Processing PDF with " +:+ pretty (length pages)
                                   +:+ " pages")]) Hsome) as Hnb.
    rewrite Ep in Hnb. cbn [fst] in Hnb. cbv beta iota in H.
    destruct (String.eqb_spec (strip full_text) ""); [done|].
    cbv beta iota zeta in H.
    by destruct (create_chunks self fuel (clean_text full_text)).
  - intros Hall.
    pose proof (extract_pages_blank pages 1 ""
                  (log ++ [Info ("Processing PDF with " +:+ pretty (length pages)
                                   +:+ " pages")]) Hall) as Hb.
    rewrite Ep in Hb. cbn [fst] in Hb. subst full_text.
    change (strip "") with ""%string. cbn [String.eqb]. eauto.
Qed.

Lemma chunk_loop_trimmed self text : forall fuel start chunks res,
  Forall (fun c => strip c = c) chunks ->
  chunk_loop self text fuel start chunks = Some res ->
  Forall (fun c => strip c = c) res.
Proof.
  induction fuel as [|fuel IH]; intros start chunks res Hc; simpl.
  - destruct (start <? len text); [discriminate|]. by intros [= <-].
  - destruct (start <? len text); [|by intros [= <-]].
    assert (Forall (fun c => strip c = c)
              (append_chunk chunks
                 (strip (slice text start (window_end self text start))))) as Hc'.
    { apply append_chunk_Forall; [done | apply strip_idemp]. }
    destruct (next_start _ _ _) as [start'|]; [by apply IH | by intros [= <-]].
Qed.

Lemma create_chunks_trimmed self fuel text chunks :
  strip text = text ->
  create_chunks self fuel text = Some chunks ->
  Forall (fun c => strip c = c) chunks.
Proof.
  intros Ht. unfold create_chunks. destruct (len text <=? chunk_size self).
  - intros [= <-]. by constructor.
  - by apply chunk_loop_trimmed.
Qed.

Lemma create_chunks_filled self fuel text chunks :
  strip text <> ""%string ->
  create_chunks self fuel text = Some chunks ->
  Forall nonblank chunks.
Proof.
  intros Ht. unfold create_chunks. destruct (len text <=? chunk_size self).
  - intros [= <-]. by constructor.
  - by apply chunk_loop_nonblank.
Qed.

(** What a call of [extract_text_chunks] that returns has gone through. *)
Lemma extract_text_chunks_ok self fuel pdf_path log chunks log' :
  extract_text_chunks path_exists open_pdf self fuel pdf_path log
    = Some (Ok chunks, log') ->
  exists full_text texts,
    strip full_text <> ""%string /\
    create_chunks self fuel (clean_text full_text) = Some texts /\
    chunks = with_metadata (path_name pdf_path) texts.
Proof.
  unfold extract_text_chunks, extract_body, extract_full_text.
  destruct (path_exists pdf_path); cbn [negb]; cbv beta iota; [|done].
  destruct (open_pdf pdf_path) as [pages|e]; [|done].
  destruct (extract_pages 1 pages "" _) as [full_text log1].
  destruct (String.eqb_spec (strip full_text) ""); cbv beta iota zeta; [done|].
  destruct (create_chunks self fuel (clean_text full_text)) as [texts|] eqn:E; [|done].
  intros [= <- <-]. by exists full_text, texts.
Qed.

Lemma extract_text_chunks_some self fuel pdf_path log chunks log' :
  0 < chunk_size self -> 0 <= chunk_overlap self ->
  extract_text_chunks path_exists open_pdf self fuel pdf_path log
    = Some (Ok chunks, log') ->
  chunks <> [].
Proof.
  intros Hcs Hov Hrun.
  apply extract_text_chunks_ok in Hrun as (full_text & texts & Hnb & Hc & ->).
  assert (strip (clean_text full_text) <> ""%string) as Hnb'.
  { rewrite clean_text_trimmed. intros E. apply Hnb. by apply clean_text_blank_iff. }
  pose proof (create_chunks_some self fuel _ texts Hcs Hov Hnb' Hc) as Hne.
  by destruct texts.
Qed.

Lemma extract_text_chunks_items self fuel pdf_path log chunks log' :
  0 < chunk_size self -> 0 <= chunk_overlap self ->
  extract_text_chunks path_exists open_pdf self fuel pdf_path log
    = Some (Ok chunks, log') ->
  chunks <> [] /\
  forall i c, chunks !! i = Some c ->
    chunk_id c = i /\
    length_ c = String.length (text c) /\
    source c = path_name pdf_path /\
    relevance_score c = None /\ semantic_score c = None /\
    Engine.keyword_score c = None /\
    strip (text c) = text c /\
    text c <> ""%string /\
    len (text c) <= chunk_size self + 1.
Proof.
  intros Hcs Hov Hrun.
  apply extract_text_chunks_ok in Hrun as (full_text & texts & Hnb & Hc & ->).
  assert (strip (clean_text full_text) <> ""%string) as Hnb'.
  { rewrite clean_text_trimmed. intros E. apply Hnb. by apply clean_text_blank_iff. }
  split.
  - pose proof (create_chunks_some self fuel _ texts Hcs Hov Hnb' Hc) as Hne.
    by destruct texts.
  - intros i c Hi. unfold with_metadata in Hi.
    rewrite list_lookup_imap in Hi.
    destruct (texts !! i) as [t|] eqn:Et; [|done].
    cbn [fmap option_fmap option_map] in Hi. injection Hi as <-. cbn [chunk_id length_ source relevance_score semantic_score Engine.keyword_score text].
    pose proof (create_chunks_trimmed self fuel _ texts (clean_text_trimmed _) Hc) as H1.
    pose proof (create_chunks_filled self fuel _ texts Hnb' Hc) as H2.
    pose proof (create_chunks_sized self fuel _ texts Hcs Hc) as H3.
    rewrite Forall_forall in H1, H2, H3.
    pose proof (list_elem_of_lookup_2 _ _ _ Et) as Hin.
    specialize (H1 _ Hin). specialize (H2 _ Hin). specialize (H3 _ Hin).
    repeat split; try done.
    intros E. apply H2. by rewrite E.
Qed.

(** X10: the list that [extract_text_chunks] returns, for a positive
    [chunk_size] and an overlap that is not negative, is never empty,
    and the dictionary at position [i] has [chunk_id = i], the name of
    the file as [source], the number of characters of its text as
    [length], no score yet, and a text that is trimmed, not empty and
    of at most [chunk_size + 1] characters. *)
Theorem extract_text_chunks_metadata self fuel pdf_path log chunks log' :
  0 < chunk_size self -> 0 <= chunk_overlap self ->
  extract_text_chunks path_exists open_pdf self fuel pdf_path log
    = Some (Ok chunks, log') ->
  chunks <> [] /\
  forall i c, chunks !! i = Some c ->
    chunk_id c = i /\
    length_ c = String.length (text c) /\
    source c = path_name pdf_path /\
    relevance_score c = None /\ semantic_score c = None /\
    Engine.keyword_score c = None /\
    strip (text c) = text c /\
    text c <> ""%string /\
    len (text c) <= chunk_size self + 1.
Proof. apply extract_text_chunks_items. Qed.

Lemma extract_text_chunks_total self pdf_path log :
  advances self ->
  exists fuel r,
    extract_text_chunks path_exists open_pdf self fuel pdf_path log = Some r.
Proof.
  intros Hadv.
  unfold extract_text_chunks, extract_body, extract_full_text.
  destruct (path_exists pdf_path); cbn [negb]; cbv beta iota;
    [|by exists 0%nat; eauto].
  destruct (open_pdf pdf_path) as [pages|e]; [|by exists 0%nat; eauto].
  destruct (extract_pages 1 pages "" _) as [full_text log1].
  destruct (String.eqb (strip full_text) ""); cbv beta iota zeta;
    [by exists 0%nat; eauto|].
  exists (S (String.length (clean_text full_text))).
  destruct (create_chunks_terminates self (clean_text full_text) Hadv) as [res ->].
  eauto.
Qed.

(** X11: under a configuration that advances, as the one of the
    application does, [extract_text_chunks] comes to an end on every
    file: it returns the chunks or raises. *)
Theorem extract_text_chunks_returns self pdf_path log :
  advances self ->
  exists fuel r,
    extract_text_chunks path_exists open_pdf self fuel pdf_path log = Some r.
Proof. apply extract_text_chunks_total. Qed.

End Files.

(** C4: the chunker is handed the cleaned text of a file whose
    extracted text is not blank ([extract_text_chunks] raises before
    it otherwise, and [_clean_text] comes right before
    [_create_chunks]). On such a text of at most [chunk_size]
    characters it returns exactly one chunk, the trimmed text; and
    every chunk that it returns, on such a text of any length, is not
    empty once trimmed. *)
Theorem create_chunks_short_and_nonblank (self : PDFProcessor) (fuel : nat)
    (full_text : string) :
  strip full_text <> ""%string ->
  let text := clean_text full_text in
  (len text <= chunk_size self ->
   create_chunks self fuel text = Some [strip text])
  /\ (forall chunks,
        create_chunks self fuel text = Some chunks -> Forall nonblank chunks).
Proof.
  intros Hnb text. split.
  - intros Hlen. unfold create_chunks.
    destruct (Z.leb_spec (len text) (chunk_size self)); [|lia].
    unfold text. by rewrite clean_text_trimmed.
  - intros chunks Hc. apply (create_chunks_filled self fuel text chunks); [|done].
    unfold text. rewrite clean_text_trimmed. intros E. apply Hnb.
    by apply clean_text_blank_iff.
Qed.

Lemma create_chunks_short_and_nonblank_witness :
  clean_text " Hello   world.  " = "Hello world."%string
  /\ create_chunks default_processor 0 "Hello world." = Some ["Hello world."%string]
  /\ Forall nonblank ["Hello world."%string].
Proof.
  destruct (create_chunks_short_and_nonblank default_processor 0 " Hello   world.  ")
    as [H1 H2]; [by vm_compute|].
  split; [by vm_compute|].
  change (clean_text " Hello   world.  ") with "Hello world."%string in H1, H2.
  split; [by apply H1 | by apply H2, H1].
Defined.

Lemma extract_text_chunks_no_text_witness :
  Forall (fun p => has_text p = false) PdfSamples.scan_pages /\
  exists log',
    extract_text_chunks PdfSamples.on_disk PdfSamples.open_scan default_processor 0
      PdfSamples.report_path []
    = Some (Raise "No text content found in PDF", log').
Proof.
  assert (Forall (fun p => has_text p = false) PdfSamples.scan_pages) as H.
  { by repeat constructor. }
  split; [exact H|].
  by apply (proj2 (extract_text_chunks_no_text PdfSamples.on_disk PdfSamples.open_scan
                     default_processor 0 PdfSamples.report_path []
                     PdfSamples.scan_pages eq_refl eq_refl)).
Defined.

Lemma extract_text_chunks_metadata_witness :
  exists chunks log',
    extract_text_chunks PdfSamples.on_disk PdfSamples.open_report default_processor 0
      PdfSamples.report_path [] = Some (Ok chunks, log') /\
    text <$> chunks = ["--- Page 1 --- Intro. hello World --- Page 3 ---"%string] /\
    chunks <> [] /\
    forall i c, chunks !! i = Some c ->
      chunk_id c = i /\
      length_ c = String.length (text c) /\
      source c = "tmpk3v9.pdf"%string /\
      relevance_score c = None /\ semantic_score c = None /\
      Engine.keyword_score c = None /\
      strip (text c) = text c /\
      text c <> ""%string /\
      len (text c) <= 1000 + 1.
Proof.
  eexists _, _. split; [by vm_compute|]. split; [by vm_compute|].
  eapply (extract_text_chunks_metadata PdfSamples.on_disk PdfSamples.open_report
            default_processor 0 PdfSamples.report_path []); by vm_compute.
Defined.

Lemma extract_text_chunks_returns_witness :
  advances default_processor /\
  exists fuel r,
    extract_text_chunks PdfSamples.on_disk PdfSamples.open_report default_processor
      fuel PdfSamples.report_path [] = Some r.
Proof.
  split; [apply default_processor_advances|].
  apply (extract_text_chunks_returns PdfSamples.on_disk PdfSamples.open_report
           default_processor PdfSamples.report_path []).
  apply default_processor_advances.
Defined.

End ExtractFacts.

(** ** More on the query engine *)

Module EngineMore.
Import PyStr PyFloat Engine Design Samples.
Import StripFacts MonadFacts FrameFacts RunFacts ChunkBounds SessionFacts.

Lemma len_app a b : len (a +:+ b) = len a + len b.
Proof.
  unfold len. induction a as [|c a IH]; simpl; [done|].
  change (String.length (a +:+ b)) with (String.length (a +:+ b)) in *. lia.
Qed.

(** The end of [_generate_response] gives at most 2038 characters. *)
Lemma assemble_len parts : len (assemble parts) <= 2038.
Proof.
  unfold assemble. destruct (Z.ltb_spec 2000 (len (join nl parts))); [|lia].
  rewrite !len_app. pose proof (prefix_to_len (join nl parts) 2000).
  change (len nl) with 1.
  change (len "[Response truncated for readability]") with 36. lia.
Qed.

Section More.
Context {vec : Type}.
Variable fl : Q -> Q.
Variable model_encode : list string -> result (list vec).
Variable cosine : vec -> vec -> Q.
Variable summarizer : string -> nat -> nat -> bool -> result string.
Variable qa_model : string -> string -> result qa_result.
Implicit Types s : state vec.

Lemma get_text_cases c s :
  (exists t, get_text c s = (Ok t, s)) \/
  get_text c s = (Raise "dangling reference", s).
Proof.
  unfold get_text, bind, deref, ret.
  destruct (heap s !! c) as [d|]; [left; eauto | by right].
Qed.

Lemma foldM_parts_cases : forall (entries : list (nat * positive)) parts s,
  (exists parts',
     foldM (fun parts entry =>
              bind (get_text entry.2)
                   (fun chunk_text => ret (parts ++ section_parts entry.1 chunk_text)))
           parts entries s = (Ok parts', s)) \/
  foldM (fun parts entry =>
           bind (get_text entry.2)
                (fun chunk_text => ret (parts ++ section_parts entry.1 chunk_text)))
        parts entries s = (Raise "dangling reference", s).
Proof.
  induction entries as [|entry entries IH]; intros parts s; simpl.
  - left. by eexists.
  - destruct (get_text_cases entry.2 s) as [[t Ht]|Ht].
    + assert (bind (get_text entry.2)
                (fun chunk_text => ret (parts ++ section_parts entry.1 chunk_text)) s
              = (Ok (parts ++ section_parts entry.1 t), s)) as H1
        by (by rewrite (bind_ok _ _ _ _ _ Ht)).
      rewrite (bind_ok _ _ _ _ _ H1). apply IH.
    + assert (bind (get_text entry.2)
                (fun chunk_text => ret (parts ++ section_parts entry.1 chunk_text)) s
              = (Raise "dangling reference", s)) as H1
        by (by rewrite (bind_raise _ _ _ _ _ Ht)).
      right. by rewrite (bind_raise _ _ _ _ _ H1).
Qed.

(** X12: [_generate_response] never raises, and its response has at
    most 2038 characters, whatever the query and the chunks: the
    2000 characters that are kept of a longer response and the note
    that it was cut. *)
Theorem generate_response_bounded (q : string) (rel : list positive) s :
  exists response s',
    generate_response q rel s = (Ok response, s') /\ len response <= 2038.
Proof.
  unfold generate_response, try_except. unfold bind at 1.
  destruct (foldM_parts_cases (imap (fun i c => (i, c)) rel)
              ["Based on the document content:" +:+ nl] s) as [[parts ->]| ->].
  - unfold ret. eexists _, _. split; [done|]. apply assemble_len.
  - unfold bind, log_error, emit, modify, ret. eexists _, _. split; [done|].
    by vm_compute.
Qed.

Lemma triple_any {A} (m : M vec A) :
  triple (fun _ : state vec => True) m (fun _ _ => True) (fun _ => True).
Proof. intros s _. by destruct (m s) as [[a|e] s']. Qed.

Lemma triple_emit_any e E :
  triple (fun _ : state vec => True) (emit e) (fun _ _ => True) E.
Proof. by intros s _. Qed.

Lemma triple_bind_pure {A B} (P : state vec -> Prop) (F : A -> Prop)
    (m : M vec A) (k : A -> M vec B) R E :
  triple P m (fun a _ => F a) E ->
  (forall a, F a -> triple (fun _ : state vec => True) (k a) R E) ->
  triple P (bind m k) R E.
Proof.
  intros Hm Hk s Hs. specialize (Hm s Hs). unfold bind.
  destruct (m s) as [[a|e] s']; [|done]. by apply Hk.
Qed.

Lemma select_chunk_length sims kws acc (entry : Q * nat) :
  triple (fun _ : state vec => True) (select_chunk fl sims kws acc entry)
         (fun acc' _ => (length acc' <= S (length acc))%nat) (fun _ => True).
Proof.
  unfold select_chunk. destruct entry as [sc idx].
  destruct (Qltb _ _); [|apply triple_ret; intros; lia].
  eapply triple_bind; [apply triple_any|]. intros chunks.
  eapply triple_bind; [apply triple_any|]. intros c.
  eapply triple_bind; [apply triple_any|]. intros c'.
  eapply triple_bind; [apply triple_any|]. intros ?.
  eapply triple_bind; [apply triple_any|]. intros sem.
  eapply triple_bind; [apply triple_any|]. intros ?.
  eapply triple_bind; [apply triple_any|]. intros kw.
  eapply triple_bind; [apply triple_any|]. intros ?.
  apply triple_ret. intros s _. rewrite length_app. simpl. lia.
Qed.

Lemma foldM_select_length sims kws : forall entries acc,
  triple (fun _ : state vec => True) (foldM (select_chunk fl sims kws) acc entries)
         (fun rel _ => (length rel <= length acc + length entries)%nat)
         (fun _ => True).
Proof.
  induction entries as [|entry entries IH]; intros acc; simpl.
  - apply triple_ret. intros; lia.
  - eapply triple_bind_pure; [apply select_chunk_length|]. intros acc' Hacc.
    eapply triple_weaken; [apply IH | done | | done].
    intros rel s H. simpl in *. lia.
Qed.

(** The retriever returns, and gives at most [top_k] chunks. *)
Lemma find_relevant_chunks_length q k :
  0 <= k ->
  triple (fun _ : state vec => True) (find_relevant_chunks fl model_encode cosine q k)
         (fun rel _ => Z.of_nat (length rel) <= k) (fun _ => False).
Proof.
  intros Hk. unfold find_relevant_chunks.
  eapply triple_try with (E' := fun _ => True).
  - eapply triple_bind; [apply triple_any|]. intros qe.
    eapply triple_bind; [apply triple_any|]. intros ce.
    eapply triple_bind; [apply triple_any|]. intros sims.
    eapply triple_bind; [apply triple_any|]. intros kws.
    eapply triple_bind_pure; [apply foldM_select_length|]. intros rel Hrel.
    eapply triple_bind; [apply triple_any|]. intros ?.
    apply triple_ret. intros s _.
    pose proof (slice_list_length
                  (sort_desc (combine_scores fl sims kws)) 0 k) as Hs.
    simpl in Hrel. lia.
  - intros e.
    eapply triple_bind; [apply triple_emit_any|]. intros ?.
    apply triple_ret. intros s _. simpl. lia.
Qed.

Lemma query_used q k :
  1 <= k ->
  triple (fun _ : state vec => True) (query fl model_encode cosine summarizer qa_model q k)
         (fun p _ => Z.of_nat p.2 <= k) (fun _ => False).
Proof.
  intros Hk. unfold query.
  eapply triple_try with (E' := fun _ => True).
  - eapply triple_bind; [apply triple_any|]. intros chunks.
    eapply triple_bind; [apply triple_any|]. intros ce.
    destruct (_ || _); [apply triple_ret; intros; simpl; lia|].
    destruct (summary_requested q).
    + eapply triple_bind; [apply triple_any|]. intros texts.
      eapply triple_bind; [apply triple_any|]. intros ?.
      eapply triple_bind; [apply triple_any|]. intros summary.
      apply triple_ret. intros; simpl; lia.
    + eapply triple_bind_pure.
      { eapply triple_weaken;
          [apply (find_relevant_chunks_length q k); lia | done | | done].
        intros rel s H. exact H. }
      intros rel Hrel.
      destruct (bool_decide _); [apply triple_ret; intros; simpl; lia|].
      eapply triple_bind; [apply triple_any|]. intros b.
      destruct (falls_back fl b); [|by apply triple_ret].
      eapply triple_bind; [apply triple_any|]. intros fb.
      by apply triple_ret.
  - intros e.
    eapply triple_bind; [apply triple_emit_any|]. intros ?.
    apply triple_ret. intros; simpl; lia.
Qed.

(** X13: for a [top_k] of at least 1, as the 5 of the application,
    the number of passages that [query] reports is at most [top_k],
    whatever the state of the engine and the answers of the services. *)
Theorem query_reports_at_most (q : string) (k : Z) s response used s' :
  1 <= k ->
  query fl model_encode cosine summarizer qa_model q k s = (Ok (response, used), s') ->
  Z.of_nat used <= k.
Proof.
  intros Hk Hrun. pose proof (query_used q k Hk s I) as H.
  by rewrite Hrun in H.
Qed.

Lemma query_unloaded q k s :
  document_chunks s = [] \/ chunk_embeddings s = None ->
  query fl model_encode cosine summarizer qa_model q k s
  = (Ok (no_document_message, 0%nat), s).
Proof.
  intros H. unfold query, try_except, bind, gets.
  assert (bool_decide (document_chunks s = [])
          || bool_decide (chunk_embeddings s = None) = true) as ->; [|done].
  destruct H as [H|H]; rewrite (bool_decide_eq_true_2 _ H); [done|].
  apply orb_true_r.
Qed.

(** X14: an engine that holds no passage or no embedding answers
    every query with the message of a missing document and 0
    passages, without a call to a service and without a log record:
    the state is the one before. This is so on a new engine, after
    [clear_document], and after a first load that failed. *)
Theorem query_without_document (q : string) (k : Z) s :
  document_chunks s = [] \/ chunk_embeddings s = None ->
  query fl model_encode cosine summarizer qa_model q k s
  = (Ok (no_document_message, 0%nat), s).
Proof. apply query_unloaded. Qed.

Lemma mapM_get_text_texts cs : forall s ts s',
  mapM get_text cs s = (Ok ts, s') -> texts_of (heap s) cs ts.
Proof.
  induction cs as [|c cs IH]; intros s ts s'; simpl.
  - unfold ret. intros [= <- <-]. constructor.
  - unfold bind at 1. unfold get_text at 1. unfold bind at 1. unfold deref.
    destruct (heap s !! c) as [d|] eqn:Ed; [|done].
    unfold ret at 1. unfold bind at 1.
    destruct (mapM get_text cs s) as [[ts'|e] s1] eqn:E; [|done].
    unfold ret. intros [= <- <-].
    constructor; [by rewrite Ed | by eapply IH].
Qed.

(** What a load leaves, by its outcome. *)
Lemma initialize_document_outcome chunks s :
  match initialize_document model_encode chunks s with
  | (Ok _, s') =>
      exists texts embeddings,
        texts_of (heap s) chunks texts /\
        model_encode texts = Ok embeddings /\
        s' = State (heap s) chunks (Some embeddings)
               (events s ++ [EncodeCall texts;
                             LogInfo "Document initialized successfully"])
  | (Raise e, s') =>
      heap s' = heap s /\
      document_chunks s' = chunks /\
      chunk_embeddings s' = chunk_embeddings s /\
      last (events s') = Some (LogError ("Error initializing document: " +:+ e))
  end.
Proof.
  unfold initialize_document, try_except.
  unfold bind at 1. unfold modify at 1. unfold bind at 1.
  destruct (mapM get_text chunks (with_document_chunks chunks s))
    as [[texts|e] s1] eqn:E.
  - pose proof (mapM_get_text_texts _ _ _ _ E) as Ht.
    destruct (mapM_get_text_inv _ _ _ _ E) as [-> _].
    unfold bind at 1. unfold encode, bind at 1, emit, modify, lift.
    destruct (model_encode texts) as [embs|e] eqn:Henc.
    + unfold bind, log_info, emit, modify. simpl.
      exists texts, embs. split; [done|]. split; [done|].
      unfold with_events, with_chunk_embeddings, with_document_chunks. simpl.
      by rewrite <- app_assoc.
    + unfold bind, log_error, emit, modify, raise. simpl.
      split; [done|]. split; [done|]. split; [done|]. by rewrite last_snoc.
  - destruct (mapM_get_text_inv _ _ _ _ E) as [-> _].
    unfold bind, log_error, emit, modify, raise. simpl.
    split; [done|]. split; [done|]. split; [done|]. by rewrite last_snoc.
Qed.

(** X15: [initialize_document] replaces the list of passages whatever
    its outcome. When it returns, the embeddings are those that the
    service gave for the texts of the passages in their order, in one
    call, and the store of dictionaries is as before; when it raises,
    the embeddings are those of before the call and the error is the
    last record of the log. *)
Theorem initialize_document_effect chunks s :
  document_chunks (initialize_document model_encode chunks s).2 = chunks
  /\ heap (initialize_document model_encode chunks s).2 = heap s
  /\ match initialize_document model_encode chunks s with
     | (Ok _, s') =>
         exists texts embeddings,
           texts_of (heap s) chunks texts /\
           model_encode texts = Ok embeddings /\
           chunk_embeddings s' = Some embeddings /\
           events s' = events s ++ [EncodeCall texts;
                                    LogInfo "Document initialized successfully"]
     | (Raise e, s') =>
         chunk_embeddings s' = chunk_embeddings s /\
         last (events s') = Some (LogError ("Error initializing document: " +:+ e))
     end.
Proof.
  pose proof (initialize_document_outcome chunks s) as H.
  destruct (initialize_document model_encode chunks s) as [[[]|e] s'].
  - destruct H as (texts & embs & Ht & He & ->). simpl.
    split; [done|]. split; [done|]. by exists texts, embs.
  - destruct H as (H1 & H2 & H3 & H4). simpl. by repeat split.
Qed.

End More.

Lemma query_reports_at_most_witness :
  exists response used s',
    query unrounded small_encode plain_cosine echo_summarizer echo_qa "dog barks" 5 first_loaded
    = (Ok (response, used), s') /\
    Z.of_nat used <= 5.
Proof.
  eexists _, _, _. split; [by vm_compute|].
  eapply (query_reports_at_most unrounded small_encode plain_cosine echo_summarizer echo_qa
            "dog barks" 5 first_loaded); [done | by vm_compute].
Defined.

Lemma query_without_document_witness :
  chunk_embeddings (initialize_document down_encode [1; 2]%positive fresh_engine).2
    = None /\
  query unrounded small_encode plain_cosine echo_summarizer echo_qa "dog barks" 5
    (initialize_document down_encode [1; 2]%positive fresh_engine).2
  = (Ok (no_document_message, 0%nat),
     (initialize_document down_encode [1; 2]%positive fresh_engine).2).
Proof.
  split; [done|].
  apply (query_without_document unrounded small_encode plain_cosine echo_summarizer echo_qa).
  by right.
Defined.

End EngineMore.

(** ** The server *)

Module AppFacts.
Import PyStr PyFloat Chunker Engine Design Pdf App Samples AppSamples.
Import StripFacts MonadFacts FrameFacts RunFacts ChunkerFacts ChunkBounds.
Import ExtractFacts EngineMore.

Section Server.
Context {vec : Type}.
Variable fl : Q -> Q.
Variable model_encode : list string -> result (list vec).
Variable cosine : vec -> vec -> Q.
Variable summarizer : string -> nat -> nat -> bool -> result string.
Variable qa_model : string -> string -> result qa_result.
Variable parse_pdf : string -> result (list page).
Variable isoformat : Q -> string.
Variable seconds_2f : Q -> string.
Implicit Types a : app vec.

Lemma new_dicts_spec : forall (ds : list chunk) (s : state vec) cs s',
  new_dicts ds s = (cs, s') ->
  length cs = length ds /\
  document_chunks s' = document_chunks s /\
  chunk_embeddings s' = chunk_embeddings s /\
  events s' = events s /\
  heap s ⊆ heap s' /\
  Forall2 (fun c d => heap s' !! c = Some d) cs ds.
Proof.
  induction ds as [|d ds IH]; intros s cs s'; simpl.
  - intros [= <- <-]. by repeat split.
  - destruct (new_dicts ds _) as [cs1 s1] eqn:E. intros [= <- <-].
    destruct (IH _ _ _ E) as (H1 & H2 & H3 & H4 & H5 & H6).
    simpl in *. split; [by rewrite H1|]. repeat split; try done.
    + etrans; [|exact H5].
      apply insert_subseteq, not_elem_of_dom, is_fresh.
    + constructor; [|done].
      eapply lookup_weaken; [|exact H5]. apply lookup_insert_eq.
Qed.

Lemma str_app l1 l2 : str (l1 ++ l2) = str l1 +:+ str l2.
Proof. induction l1 as [|c l1 IH]; simpl; [done|]. by rewrite IH. Qed.

Lemma slice_whole p d :
  0 <= d <= len p -> slice p 0 d +:+ slice p d (len p) = p.
Proof.
  intros Hd. unfold slice. rewrite slice_list_take by lia.
  assert (slice_list (chars p) d (len p) = drop (Z.to_nat d) (chars p)) as ->.
  { unfold slice_list, clamp_index, len in *. rewrite length_chars.
    destruct (Z.ltb_spec d 0); [lia|].
    destruct (Z.ltb_spec (Z.of_nat (String.length p)) 0); [lia|].
    rewrite !Z.min_l by lia. apply take_ge. rewrite length_drop, length_chars. lia. }
  rewrite <- str_app, take_drop. apply str_chars.
Qed.

(** The extension that [splitext] finds is the end of the path, behind
    a root that is not empty. *)
Lemma splitext_ext p :
  (splitext p).2 <> ""%string ->
  p = (splitext p).1 +:+ (splitext p).2 /\ (splitext p).1 <> ""%string.
Proof.
  unfold splitext.
  set (sepIndex := rfind p "/" 0 (len p)).
  set (dotIndex := rfind p "." 0 (len p)).
  destruct (Z.ltb_spec sepIndex dotIndex) as [Hlt|]; [|done].
  destruct (existsb _ _) eqn:Ex; [|done]. simpl. intros _.
  assert (0 <= len p) as Hlen by (unfold len; lia).
  pose proof (rfind_upper p "." 0 (len p) Hlen) as Hup. fold dotIndex in Hup.
  assert (-1 <= sepIndex) as Hsep.
  { unfold sepIndex, rfind. destruct (last_index _ _); [|lia].
    unfold clamp_index. simpl. lia. }
  split; [symmetry; apply slice_whole; lia|].
  intros E. apply existsb_exists in Ex as (c & Hc & _).
  assert (len (slice p 0 dotIndex) = 0) as Hz by (by rewrite E).
  unfold slice in Hz. rewrite len_str, slice_list_take in Hz by lia.
  rewrite length_take, length_chars in Hz.
  assert (slice_list (chars p) (sepIndex + 1) dotIndex = []) as Hnil.
  { unfold slice_list, clamp_index. rewrite length_chars.
    destruct (Z.ltb_spec (sepIndex + 1) 0); [lia|].
    destruct (Z.ltb_spec dotIndex 0); [lia|].
    apply length_zero_iff_nil. rewrite length_take. unfold len in *. lia. }
  rewrite Hnil in Hc. by destruct Hc.
Qed.

(** The ways through [upload_pdf]. The answer 422 is not among them:
    [extract_text_chunks] never returns an empty list. *)
Lemma upload_pdf_inv fuel file_filename content temp start_time end_time a r a' :
  upload_pdf model_encode parse_pdf fuel file_filename content temp
    start_time end_time a = Some (r, a') ->
  (exists detail, r = HTTPException 400 detail /\ a' = a /\
     (file_filename = None \/ file_filename = Some ""%string \/
      exists name, file_filename = Some name /\
                   lower (splitext name).2 ∉ ALLOWED_EXTENSIONS))
  \/ (exists detail name, r = HTTPException 413 detail /\ a' = a /\
        file_filename = Some name /\
        lower (splitext name).2 ∈ ALLOWED_EXTENSIONS /\
        MAX_FILE_SIZE < len content)
  \/ (exists name, file_filename = Some name /\ name <> ""%string /\
        lower (splitext name).2 ∈ ALLOWED_EXTENSIONS /\
        len content <= MAX_FILE_SIZE /\
        files a' = delete temp (<[temp := content]> (files a)) /\
        ((exists e, r = HTTPException 500 ("Error processing PDF: " +:+ e) /\
            query_engine a' = query_engine a /\
            chat_history a' = chat_history a /\
            current_document a' = current_document a)
         \/ (exists chunks log0 log1 refs engine1,
               extract_text_chunks
                 (path_exists (<[temp := content]> (files a)))
                 (open_pdf parse_pdf (<[temp := content]> (files a)))
                 pdf_processor fuel temp log0 = Some (Ok chunks, log1) /\
               chunks <> [] /\
               new_dicts chunks (query_engine a) = (refs, engine1) /\
               ((exists e,
                   initialize_document model_encode refs engine1
                     = (Raise e, query_engine a') /\
                   r = HTTPException 500 ("Error processing PDF: " +:+ e) /\
                   chat_history a' = chat_history a /\
                   current_document a' = current_document a)
                \/ (initialize_document model_encode refs engine1
                      = (Ok tt, query_engine a') /\
                    r = Reply {| message := "Successfully processed " +:+ name;
                                 filename := name;
                                 chunks_created := length chunks;
                                 file_size := len content;
                                 upload_processing_time :=
                                   (end_time - start_time)%Q |} /\
                    chat_history a' = [] /\
                    current_document a' = Some name))))).
Proof.
  unfold upload_pdf.
  destruct file_filename as [name|]; [|intros [= <- <-]; left; eauto 10].
  destruct (String.eqb_spec name "") as [->|Hname];
    [intros [= <- <-]; left; eauto 10|].
  case_bool_decide as Hext; [intros [= <- <-]; left; eauto 10|].
  destruct (Z.ltb_spec MAX_FILE_SIZE (len content)) as [Hsize|Hsize];
    [intros [= <- <-]; right; left; eauto 10|].
  cbv zeta.
  destruct (extract_text_chunks _ _ _ _ _ _) as [[[chunks|e] log1]|] eqn:Ex;
    [| |done].
  - case_bool_decide as Hc.
    + exfalso. by eapply (extract_text_chunks_some _ _ pdf_processor) in Ex.
    + destruct (new_dicts chunks (query_engine a)) as [refs engine1] eqn:En.
      destruct (initialize_document model_encode refs engine1)
        as [[[]|e] engine2] eqn:Ei; intros [= <- <-]; right; right;
        exists name; repeat (split; [done|]); right;
        eexists chunks, _, log1, refs, engine1;
        (split; [exact Ex|]); (split; [done|]); (split; [done|]).
      * right. by repeat split.
      * left. exists e. by repeat split.
  - intros [= <- <-]. right; right. exists name. repeat (split; [done|]).
    left. exists e. by repeat split.
Qed.

(** X16: [upload_pdf] never answers 422. An upload that is refused
    is refused with 400, 413 or 500: the test for an empty list of
    chunks never holds, since [extract_text_chunks] raises when it
    has no text and gives at least one chunk otherwise. A file
    without text is a 500. *)
Theorem upload_pdf_status fuel file_filename content temp start_time end_time a
    code detail a' :
  upload_pdf model_encode parse_pdf fuel file_filename content temp
    start_time end_time a = Some (HTTPException code detail, a') ->
  code = 400 \/ code = 413 \/ code = 500.
Proof.
  intros H. apply upload_pdf_inv in H
    as [(d & [= -> _] & _)|[(d & n & [= -> _] & _)|(name & _ & _ & _ & _ & _ & H)]];
    [by left | by right; left |].
  right; right.
  destruct H as [(e & [= -> _] & _)|(chunks & l0 & l1 & refs & e1 & _ & _ & _ & H)];
    [done|].
  by destruct H as [(e & _ & [= -> _] & _)|(_ & [=] & _)].
Qed.

(** X17: an upload that is refused leaves the name of the current
    document, the chat history and the embeddings of the engine as
    they were, and every dictionary of the store in its place. (The
    list of passages of the engine is not in this list: a load that
    fails has already replaced it.) *)
Theorem upload_pdf_refused fuel file_filename content temp start_time end_time a
    code detail a' :
  upload_pdf model_encode parse_pdf fuel file_filename content temp
    start_time end_time a = Some (HTTPException code detail, a') ->
  current_document a' = current_document a /\
  chat_history a' = chat_history a /\
  chunk_embeddings (query_engine a') = chunk_embeddings (query_engine a) /\
  heap (query_engine a) ⊆ heap (query_engine a').
Proof.
  intros H. apply upload_pdf_inv in H
    as [(d & _ & -> & _)|[(d & n & _ & -> & _)|(name & _ & _ & _ & _ & _ & H)]];
    [done..|].
  destruct H as [(e & _ & -> & -> & ->)|(chunks & l0 & l1 & refs & e1 & _ & _ & Hn & H)];
    [done|].
  destruct H as [(e & Hi & _ & -> & ->)|(_ & [=] & _)].
  split; [done|]. split; [done|].
  apply new_dicts_spec in Hn as (_ & _ & He & _ & Hh & _).
  pose proof (initialize_document_outcome model_encode refs e1) as Ho.
  rewrite Hi in Ho. destruct Ho as (Hh' & _ & He' & _).
  rewrite He', He, Hh'. done.
Qed.

(** X18: [upload_pdf] leaves no temporary file: when the name of the
    temporary file is a new one, the files after the handler are
    those before, whatever the outcome. *)
Theorem upload_pdf_cleans_up fuel file_filename content temp start_time end_time
    a r a' :
  files a !! temp = None ->
  upload_pdf model_encode parse_pdf fuel file_filename content temp
    start_time end_time a = Some (r, a') ->
  files a' = files a.
Proof.
  intros Hnew H. apply upload_pdf_inv in H
    as [(d & _ & -> & _)|[(d & n & _ & -> & _)|(name & _ & _ & _ & _ & -> & _)]];
    [done..|].
  by apply delete_insert_id.
Qed.

(** X19: an upload that is accepted names the file as the current
    document, empties the chat history and leaves the engine loaded:
    the file had a name and at most [MAX_FILE_SIZE] bytes, the engine
    holds as many passages as the response counts chunks, at least
    one, and has embeddings for them. *)
Theorem upload_pdf_accepted fuel file_filename content temp start_time end_time a
    body a' :
  upload_pdf model_encode parse_pdf fuel file_filename content temp
    start_time end_time a = Some (Reply body, a') ->
  file_filename = Some (filename body) /\
  file_size body = len content /\
  len content <= MAX_FILE_SIZE /\
  current_document a' = Some (filename body) /\
  chat_history a' = [] /\
  chunks_created body = length (document_chunks (query_engine a')) /\
  (1 <= chunks_created body)%nat /\
  exists embeddings, chunk_embeddings (query_engine a') = Some embeddings.
Proof.
  intros H. apply upload_pdf_inv in H
    as [(d & [=] & _)|[(d & n & [=] & _)|(name & -> & _ & _ & Hsize & _ & H)]].
  destruct H as [(e & [=] & _)|(chunks & l0 & l1 & refs & e1 & _ & Hne & Hn & H)].
  destruct H as [(e & _ & [=] & _)|(Hi & [= ->] & -> & ->)].
  simpl. repeat (split; [done|]).
  apply new_dicts_spec in Hn as (Hlen & _).
  pose proof (initialize_document_outcome model_encode refs e1) as Ho.
  rewrite Hi in Ho. destruct Ho as (texts & embs & _ & _ & ->). simpl.
  split; [done|]. split; [|by exists embs].
  destruct chunks; [done | simpl; lia].
Qed.

(** X24: after an upload that is accepted, the passages of the
    engine are dictionaries of the store, the one at position [i]
    with [chunk_id = i], a text that is not empty and has at most
    1001 characters, its number of characters as [length], and as
    [source] the name of the temporary file, not the name of the
    file that was uploaded. *)
Theorem upload_pdf_passages fuel file_filename content temp start_time end_time a
    body a' :
  upload_pdf model_encode parse_pdf fuel file_filename content temp
    start_time end_time a = Some (Reply body, a') ->
  forall i c, document_chunks (query_engine a') !! i = Some c ->
    exists d,
      heap (query_engine a') !! c = Some d /\
      chunk_id d = i /\
      source d = path_name temp /\
      length_ d = String.length (text d) /\
      text d <> ""%string /\
      len (text d) <= 1001.
Proof.
  intros H. apply upload_pdf_inv in H
    as [(d & [=] & _)|[(d & n & [=] & _)|(name & _ & _ & _ & _ & _ & H)]].
  destruct H as [(e & [=] & _)|(chunks & l0 & l1 & refs & e1 & Hex & _ & Hn & H)].
  destruct H as [(e & _ & [=] & _)|(Hi & _ & _ & _)].
  apply new_dicts_spec in Hn as (_ & _ & _ & _ & _ & Hall).
  pose proof (initialize_document_outcome model_encode refs e1) as Ho.
  rewrite Hi in Ho. destruct Ho as (texts & embs & _ & _ & ->). simpl.
  intros i c Hc.
  destruct (Forall2_lookup_l _ _ _ _ _ Hall Hc) as (d & Hd & Hcd).
  exists d. split; [done|].
  eapply extract_text_chunks_items in Hex as [_ Hitems]; [|done..].
  destruct (Hitems i d Hd) as (H1 & H2 & H3 & _ & _ & _ & _ & H4 & H5).
  by repeat split.
Qed.

(** X25: an upload that is not refused with 400 has a file name that
    ends with [.pdf], in small or capital letters, behind a root that
    is not empty: the extension is the one that [os.path.splitext]
    finds, compared in small letters. *)
Theorem upload_pdf_extension fuel file_filename content temp start_time end_time a
    r a' :
  upload_pdf model_encode parse_pdf fuel file_filename content temp
    start_time end_time a = Some (r, a') ->
  (forall detail, r <> HTTPException 400 detail) ->
  exists stem ext,
    file_filename = Some (stem +:+ ext) /\
    stem <> ""%string /\
    lower ext = ".pdf"%string.
Proof.
  intros H Hr.
  assert (exists name, file_filename = Some name /\
            lower (splitext name).2 ∈ ALLOWED_EXTENSIONS) as (name & -> & Hext).
  { apply upload_pdf_inv in H
      as [(d & -> & _)|[(d & n & _ & _ & Hn & He & _)|(name & Hn & _ & He & _)]];
      [by destruct (Hr d) | by eauto..]. }
  apply list_elem_of_singleton in Hext.
  destruct (splitext_ext name) as [Hname Hstem].
  { intros E. by rewrite E in Hext. }
  exists (splitext name).1, (splitext name).2. by rewrite <- Hname.
Qed.

(** X20: [upload_pdf] comes to an end on every request: with the
    chunker of the application, the chunking loop is left. *)
Theorem upload_pdf_returns file_filename content temp start_time end_time a :
  exists fuel r,
    upload_pdf model_encode parse_pdf fuel file_filename content temp
      start_time end_time a = Some r.
Proof.
  unfold upload_pdf.
  destruct file_filename as [name|]; [|by exists 0%nat; eauto].
  destruct (String.eqb name ""); [by exists 0%nat; eauto|].
  case_bool_decide; [by exists 0%nat; eauto|].
  destruct (MAX_FILE_SIZE <? len content); [by exists 0%nat; eauto|].
  cbv zeta.
  match goal with
  | |- context [extract_text_chunks ?pe ?op ?self _ ?p ?l] =>
      destruct (extract_text_chunks_total pe op self p l default_processor_advances)
        as (fuel & [[chunks|e] log1] & Hr)
  end; exists fuel; rewrite Hr; [|by eauto].
  case_bool_decide; [by eauto|].
  destruct (new_dicts chunks (query_engine a)) as [refs engine1].
  destruct (initialize_document model_encode refs engine1) as [[[]|e] engine2];
    by eauto.
Qed.

Lemma query_document_outcome message_query start_time end_time now a :
  match query_document fl model_encode cosine summarizer qa_model
          isoformat seconds_2f message_query start_time end_time now a with
  | (Reply body, a') =>
      current_document a <> None /\
      strip message_query <> ""%string /\
      len (strip message_query) <= 1000
  | (HTTPException code detail, a') =>
      code = 400 /\ a' = a /\
      (current_document a = None \/
       strip message_query = ""%string \/
       1000 < len (strip message_query))
  end.
Proof.
  unfold query_document.
  destruct (current_document a) as [doc|]; [|by auto].
  destruct (String.eqb_spec (strip message_query) ""); [by auto|].
  destruct (Z.ltb_spec 1000 (len (strip message_query))); [by auto|].
  cbv zeta.
  destruct (query_returns fl model_encode cosine summarizer qa_model
              (strip message_query) 5 (query_engine a)) as (resp & used & s' & ->).
  done.
Qed.

(** X21: [query_document] answers with a response or with 400, never
    with 500, since [query] of the engine never raises. It answers
    400 exactly when no document is named, or the query is blank, or
    the trimmed query has more than 1000 characters, and the state is
    then the one before. *)
Theorem query_document_status message_query start_time end_time now a :
  match query_document fl model_encode cosine summarizer qa_model
          isoformat seconds_2f message_query start_time end_time now a with
  | (Reply body, a') =>
      current_document a <> None /\
      strip message_query <> ""%string /\
      len (strip message_query) <= 1000
  | (HTTPException code detail, a') =>
      code = 400 /\ a' = a /\
      (current_document a = None \/
       strip message_query = ""%string \/
       1000 < len (strip message_query))
  end.
Proof. apply query_document_outcome. Qed.

(** The way through [query_document] that gives a response. *)
Lemma query_document_inv message_query start_time end_time now a body a' :
  query_document fl model_encode cosine summarizer qa_model
    isoformat seconds_2f message_query start_time end_time now a
  = (Reply body, a') ->
  current_document a <> None /\
  query fl model_encode cosine summarizer qa_model (strip message_query) 5
    (query_engine a)
  = (Ok (response body, chunks_used body), query_engine a') /\
  timestamp body = now /\
  processing_time body = (end_time - start_time)%Q /\
  current_document a' = current_document a /\
  files a' = files a /\
  chat_history a' =
    (if (MAX_CHAT_HISTORY <=? length (chat_history a))%nat
     then drop 1 (chat_history a) else chat_history a)
    ++ [ChatEntry (strip message_query) (response body) (isoformat now)
                  (chunks_used body)].
Proof.
  unfold query_document.
  destruct (current_document a) as [doc|] eqn:Hdoc; [|done].
  destruct (String.eqb (strip message_query) ""); [done|].
  destruct (1000 <? len (strip message_query)); [done|].
  cbv zeta.
  destruct (query fl model_encode cosine summarizer qa_model
              (strip message_query) 5 (query_engine a))
    as [[[resp used]|e] s']; [|done].
  intros [= <- <-].
  cbn [response chunks_used timestamp processing_time current_document files
       chat_history query_engine].
  repeat (split; [done|]).
  rewrite length_app. cbn [length]. unfold MAX_CHAT_HISTORY.
  destruct (Nat.ltb_spec 5 (length (chat_history a) + 1)),
           (Nat.leb_spec 5 (length (chat_history a))); try lia; [|done].
  destruct (chat_history a); simpl in *; [lia | done].
Qed.

(** X22: a query that is answered runs the engine on the trimmed
    query with [top_k = 5] and reports at most 5 passages; its entry
    is the last of the chat history, behind the entries of before,
    the oldest of which is dropped when there were 5 already; the
    named document and the files stay, and so do the passages and the
    embeddings of the engine. *)
Theorem query_document_reply message_query start_time end_time now a body a' :
  query_document fl model_encode cosine summarizer qa_model
    isoformat seconds_2f message_query start_time end_time now a
  = (Reply body, a') ->
  query fl model_encode cosine summarizer qa_model (strip message_query) 5
    (query_engine a)
  = (Ok (response body, chunks_used body), query_engine a') /\
  (chunks_used body <= 5)%nat /\
  chat_history a' =
    (if (MAX_CHAT_HISTORY <=? length (chat_history a))%nat
     then drop 1 (chat_history a) else chat_history a)
    ++ [ChatEntry (strip message_query) (response body) (isoformat now)
                  (chunks_used body)] /\
  current_document a' = current_document a /\
  files a' = files a /\
  frame (query_engine a) (query_engine a').
Proof.
  intros H. apply query_document_inv in H as (_ & Hq & _ & _ & Hd & Hf & Hh).
  split; [done|]. split.
  { pose proof (query_used fl model_encode cosine summarizer qa_model
                  (strip message_query) 5 ltac:(lia) (query_engine a) I) as Hu.
    rewrite Hq in Hu. simpl in Hu. lia. }
  repeat (split; [done|]).
  pose proof (keeps_query fl model_encode cosine summarizer qa_model
                (query_engine a) (strip message_query) 5 (query_engine a)
                (frame_refl _)) as Hk.
  by rewrite Hq in Hk.
Qed.

Lemma consistent_start fs : consistent (start (vec := vec) fs).
Proof.
  unfold consistent, loaded. simpl. split; [lia|].
  split; [split; [done | by intros [? _]]|]. by split.
Qed.

Lemma consistent_step r a a' :
  consistent a ->
  serve fl model_encode cosine summarizer qa_model parse_pdf isoformat seconds_2f r a
    = Some a' ->
  consistent a'.
Proof.
  intros Hcons. pose proof Hcons as (H1 & H2 & H3 & H4).
  destruct r as [fuel fn content temp st en|q st en now|]; simpl.
  - destruct (upload_pdf _ _ _ _ _ _ _ _ _) as [[r a1]|] eqn:Hu; [|done].
    simpl. intros [= <-]. apply upload_pdf_inv in Hu
      as [(d & _ & -> & _)|[(d & n & _ & -> & _)|(name & _ & _ & _ & _ & _ & H)]];
      [done..|].
    destruct H as [(e & _ & He & Hh & Hd)|(chunks & l0 & l1 & refs & e1 & _ & Hne & Hn & H)].
    { unfold consistent. by rewrite He, Hh, Hd. }
    apply new_dicts_spec in Hn as (Hlen & _ & Hemb & _).
    assert (refs <> []) as Hrefs.
    { destruct refs; [|done]. by destruct chunks. }
    pose proof (initialize_document_outcome model_encode refs e1) as Ho.
    destruct H as [(e & Hi & _ & Hh & Hd)|(Hi & _ & Hh & Hd)]; rewrite Hi in Ho.
    + destruct Ho as (_ & Hc & He & _).
      unfold consistent, loaded. rewrite Hh, Hd, Hc, He, Hemb.
      split; [done|]. split; [|by split].
      rewrite H2. unfold loaded. split.
      * intros [_ ?]. by split.
      * intros [_ ?]. split; [by apply H3 | done].
    + destruct Ho as (texts & embs & _ & _ & Hs).
      unfold consistent, loaded. rewrite Hh, Hd, Hs. simpl.
      split; [lia|]. by repeat split.
  - intros [= <-].
    destruct (query_document _ _ _ _ _ _ _ _ _ _ _) as [[body|code detail] a1] eqn:Hq.
    + pose proof (query_document_inv _ _ _ _ _ _ _ Hq)
        as (_ & Hrun & _ & _ & Hd & _ & Hh).
      pose proof (keeps_query fl model_encode cosine summarizer qa_model
                    (query_engine a) (strip q) 5 (query_engine a)
                    (frame_refl _)) as Hk.
      rewrite Hrun in Hk. destruct Hk as (Hc & He & _).
      simpl. unfold consistent, loaded. rewrite Hh, Hd, Hc, He.
      split.
      { rewrite length_app. cbn [length]. unfold MAX_CHAT_HISTORY in *.
        destruct (Nat.leb_spec 5 (length (chat_history a))).
        - rewrite length_drop. lia.
        - lia. }
      split; [done|]. split; [done|].
      intros Hnone. apply query_document_inv in Hq as (Hsome & _). by rewrite Hnone in Hsome.
    + pose proof (query_document_outcome q st en now a) as Hs.
      rewrite Hq in Hs. by destruct Hs as (_ & -> & _).
  - intros [= <-]. unfold consistent. simpl.
    split; [lia|]. split; [exact H2|]. split; [exact H3 | done].
Qed.

Lemma reachable_is_consistent a :
  reachable fl model_encode cosine summarizer qa_model parse_pdf isoformat seconds_2f a ->
  consistent a.
Proof.
  induction 1 as [fs|a r a' _ IH Hs]; [apply consistent_start|].
  by eapply consistent_step.
Qed.

(** X23: in every state that the server reaches by uploads, queries
    and deletions of the history, the chat history has at most 5
    entries and none while no document is named, and a document is
    named exactly when the engine holds passages and embeddings: a
    query that passes the test of [query_document] for a document
    passes the one of [query] in the engine as well. *)
Theorem reachable_consistent a :
  reachable fl model_encode cosine summarizer qa_model parse_pdf isoformat seconds_2f a ->
  consistent a /\
  (total_messages (get_chat_history a) <= 5)%nat /\
  (ready_for_queries (get_document_status a) = true <-> loaded (query_engine a)).
Proof.
  intros H. apply reachable_is_consistent in H.
  split; [done|]. destruct H as (H1 & H2 & _). split; [done|].
  simpl. rewrite bool_decide_eq_true. exact H2.
Qed.

End Server.

(** A file whose only page has no text is refused with 500. *)
Lemma upload_pdf_status_witness :
  exists detail a',
    upload_sample (Some "a.pdf"%string) "" (start ∅)
      = Some (HTTPException 500 detail, a') /\
    (500 = 400 \/ 500 = 413 \/ 500 = 500).
Proof.
  eexists _, _. split; [by vm_compute|].
  eapply (upload_pdf_status small_encode line_pages 5 (Some "a.pdf"%string) ""
            "/tmp/tmpq1.pdf" 0 1 (start ∅) 500).
  by vm_compute.
Defined.

(** A second upload while the embedding service is down: the first
    document stays the current one, with its embeddings. *)
Lemma upload_pdf_refused_witness :
  exists code detail a',
    upload_pdf down_encode line_pages 5 (Some "b.pdf"%string) "rain and snow"
      "/tmp/tmpq2.pdf" 0 1 after_upload = Some (HTTPException code detail, a') /\
    current_document a' = current_document after_upload /\
    chat_history a' = chat_history after_upload /\
    chunk_embeddings (query_engine a') = chunk_embeddings (query_engine after_upload) /\
    heap (query_engine after_upload) ⊆ heap (query_engine a').
Proof.
  eexists _, _, _. split; [by vm_compute|].
  eapply (upload_pdf_refused down_encode line_pages 5 (Some "b.pdf"%string)
            "rain and snow" "/tmp/tmpq2.pdf" 0 1 after_upload).
  by vm_compute.
Defined.

Lemma upload_pdf_cleans_up_witness :
  files (start (vec := Q) ∅) !! "/tmp/tmpq1.pdf"%string = None /\
  exists r a',
    upload_sample (Some "Report.PDF"%string) "the dog barks loud" (start ∅)
      = Some (r, a') /\
    files a' = files (start (vec := Q) ∅).
Proof.
  split; [done|]. eexists _, _. split; [by vm_compute|].
  eapply (upload_pdf_cleans_up small_encode line_pages 5 (Some "Report.PDF"%string)
            "the dog barks loud" "/tmp/tmpq1.pdf" 0 1 (start ∅));
    [done | by vm_compute].
Defined.

Lemma upload_pdf_accepted_witness :
  exists body a',
    upload_sample (Some "Report.PDF"%string) "the dog barks loud" (start ∅)
      = Some (Reply body, a') /\
    Some "Report.PDF"%string = Some (filename body) /\
    file_size body = len "the dog barks loud" /\
    len "the dog barks loud" <= MAX_FILE_SIZE /\
    current_document a' = Some (filename body) /\
    chat_history a' = [] /\
    chunks_created body = length (document_chunks (query_engine a')) /\
    (1 <= chunks_created body)%nat /\
    exists embeddings, chunk_embeddings (query_engine a') = Some embeddings.
Proof.
  eexists _, _. split; [by vm_compute|].
  eapply (upload_pdf_accepted small_encode line_pages 5 (Some "Report.PDF"%string)
            "the dog barks loud" "/tmp/tmpq1.pdf" 0 1 (start ∅)).
  by vm_compute.
Defined.

Lemma upload_pdf_passages_witness :
  exists d,
    heap (query_engine after_upload) !! 1%positive = Some d /\
    chunk_id d = 0%nat /\
    source d = "tmpq1.pdf"%string /\
    length_ d = String.length (text d) /\
    text d <> ""%string /\
    len (text d) <= 1001.
Proof.
  eapply (upload_pdf_passages small_encode line_pages 5 (Some "Report.PDF"%string)
            "the dog barks loud" "/tmp/tmpq1.pdf" 0 1 (start ∅) _ after_upload);
    by vm_compute.
Defined.

Lemma upload_pdf_extension_witness :
  exists stem ext,
    Some "Report.PDF"%string = Some (stem +:+ ext) /\
    stem <> ""%string /\
    lower ext = ".pdf"%string.
Proof.
  eapply (upload_pdf_extension small_encode line_pages 5 (Some "Report.PDF"%string)
            "the dog barks loud" "/tmp/tmpq1.pdf" 0 1 (start ∅)).
  - by vm_compute.
  - intros detail. discriminate.
Defined.

Lemma query_document_reply_witness :
  exists body a',
    query_sample "  dog barks " after_upload = (Reply body, a') /\
    query unrounded small_encode plain_cosine echo_summarizer echo_qa (strip "  dog barks ") 5
      (query_engine after_upload)
    = (Ok (response body, chunks_used body), query_engine a') /\
    (chunks_used body <= 5)%nat /\
    chat_history a' =
      (if (MAX_CHAT_HISTORY <=? length (chat_history after_upload))%nat
       then drop 1 (chat_history after_upload) else chat_history after_upload)
      ++ [ChatEntry (strip "  dog barks ") (response body) (plain_isoformat 2)
                    (chunks_used body)] /\
    current_document a' = current_document after_upload /\
    files a' = files after_upload /\
    frame (query_engine after_upload) (query_engine a').
Proof.
  eexists _, _. split; [by vm_compute|].
  eapply (query_document_reply unrounded small_encode plain_cosine echo_summarizer echo_qa
            plain_isoformat plain_seconds "  dog barks " 0 1 2 after_upload).
  by vm_compute.
Defined.

Lemma reachable_consistent_witness :
  reachable unrounded small_encode plain_cosine echo_summarizer echo_qa line_pages
    plain_isoformat plain_seconds after_upload /\
  consistent after_upload /\
  (total_messages (get_chat_history after_upload) <= 5)%nat /\
  (ready_for_queries (get_document_status after_upload) = true
   <-> loaded (query_engine after_upload)).
Proof.
  assert (reachable unrounded small_encode plain_cosine echo_summarizer echo_qa line_pages
            plain_isoformat plain_seconds after_upload) as H.
  { apply reachable_step
      with (a := start ∅)
           (r := PostUpload 5 (Some "Report.PDF"%string) "the dog barks loud"
                            "/tmp/tmpq1.pdf" 0 1);
      [apply reachable_start | by vm_compute]. }
  split; [exact H|].
  exact (reachable_consistent unrounded small_encode plain_cosine echo_summarizer echo_qa
           line_pages plain_isoformat plain_seconds after_upload H).
Defined.

End AppFacts.
